(** * llmimage: the retrieval-to-composition pipeline of the Wikimedia
      image-enhanced Q&A tool (src/llmimage/app.js), as a shallow embedding.

    Layout of the development:
    - [JS]: the string primitives of the platform that the program calls
      ([toLowerCase], [trim], [endsWith], [includes], [split], [replace],
      [parseInt], ...) and the regular expressions of app.js, each as a
      matcher specialised to that pattern;
    - [Json]: parsed response bodies and property access with the
      [TypeError]s of the platform;
    - [Net]: a small monad for code that throws, catches and talks to the
      network; the network is an oracle, the state is the trace of the
      requests issued so far;
    - [ImageProcessor], [WikimediaAPI], [GeminiAPI], [AppController]: the
      modules of app.js, function by function;
    - [UIController]: the handler of the submit button; [Legacy]: the
      model calls, the composition of the answer and the run of the
      earlier single-file version;
    - the vocabulary of the statements, and concrete platforms and inputs;
    - the theorems.

    The earlier single-file version of the pipeline runs the same
    admission loop with other constants; both sets of constants are
    instances of [Config].

    Strings are sequences of code units below 256 (Latin-1); on that
    range case mapping, white space and line terminators are those of
    ECMAScript.  Numbers that the program computes with are integers far
    below 2^53, where the floating point arithmetic of the platform is
    exact, so they are modelled in [Z].  Logging and the updates of the
    page (loading state, previews) have no influence on what the
    functions return and are left out. *)

From Stdlib Require Import ZArith Ascii String DecimalString Lia.
From stdpp Require Import base list strings.

Set Warnings "-register-all".

Abbreviation str := (list ascii).
Coercion list_ascii_of_string : string >-> list.

(** ** String primitives *)

Module JS.

Definition code (c : ascii) : N := N_of_ascii c.

Definition is_char (n : N) (c : ascii) : bool := (code c =? n)%N.

(** LineTerminator: LF and CR (U+2028 and U+2029 are outside the range). *)
Definition is_line_terminator (c : ascii) : bool :=
  is_char 10 c || is_char 13 c.

(** WhiteSpace and LineTerminator, as used by [trim], [parseInt] and [\s]. *)
Definition is_white (c : ascii) : bool :=
  ((9 <=? code c) && (code c <=? 13))%N || is_char 32 c || is_char 160 c.

Definition is_digit (c : ascii) : bool :=
  ((48 <=? code c) && (code c <=? 57))%N.

(** [\w]: ASCII letters, digits and the underscore. *)
Definition is_word (c : ascii) : bool :=
  ((65 <=? code c) && (code c <=? 90))%N
  || ((97 <=? code c) && (code c <=? 122))%N
  || is_digit c || is_char 95 c.

Definition lower_char (c : ascii) : ascii :=
  if (((65 <=? code c) && (code c <=? 90))
      || ((192 <=? code c) && (code c <=? 222) && negb (code c =? 215)))%N
  then ascii_of_N (code c + 32) else c.

Definition toLowerCase (s : str) : str := map lower_char s.

Fixpoint trimStart (s : str) : str :=
  match s with
  | [] => []
  | c :: s' => if is_white c then trimStart s' else s
  end.

Definition trimEnd (s : str) : str := reverse (trimStart (reverse s)).

Definition trim (s : str) : str := trimEnd (trimStart s).

Fixpoint startsWith (s p : str) {struct p} : bool :=
  match p, s with
  | [], _ => true
  | _ :: _, [] => false
  | a :: p', b :: s' => (a =? b)%char && startsWith s' p'
  end.

Definition endsWith (s p : str) : bool :=
  startsWith (reverse s) (reverse p).

(** [s.indexOf(p)]; [None] stands for -1. *)
Fixpoint indexOf (s p : str) : option nat :=
  if startsWith s p then Some 0
  else match s with
       | [] => None
       | _ :: s' => S <$> indexOf s' p
       end.

Definition includes (s p : str) : bool :=
  match indexOf s p with Some _ => true | None => false end.

(** [s.substring(0, n)] *)
Definition substring0 (n : nat) (s : str) : str := take n s.

(** [s.split(sep)] for a separator of one code unit: always at least one
    piece. *)
Fixpoint split (sep : ascii) (s : str) : list str :=
  match s with
  | [] => [[]]
  | c :: s' =>
      if (c =? sep)%char then [] :: split sep s'
      else match split sep s' with
           | p :: ps => (c :: p) :: ps
           | [] => [[c]]
           end
  end.

(** [pieces.join(sep)] *)
Fixpoint join (sep : str) (pieces : list str) : str :=
  match pieces with
  | [] => []
  | [p] => p
  | p :: ps => p ++ sep ++ join sep ps
  end.

(** GetSubstitution for a string pattern (no capture groups, no named
    groups): [$$], [$&], [$`] and [$'] are expanded, every other [$] is
    literal. *)
Fixpoint GetSubstitution (matched before after template : str) : str :=
  match template with
  | [] => []
  | c :: t =>
      if is_char 36 c then
        match t with
        | [] => [c]
        | d :: t' =>
            if is_char 36 d then c :: GetSubstitution matched before after t'
            else if is_char 38 d then matched ++ GetSubstitution matched before after t'
            else if is_char 96 d then before ++ GetSubstitution matched before after t'
            else if is_char 39 d then after ++ GetSubstitution matched before after t'
            else c :: GetSubstitution matched before after t
        end
      else c :: GetSubstitution matched before after t
  end.

(** [s.replace(pattern, replacement)] with a string pattern: the first
    occurrence only. *)
Definition replace (s pattern replacement : str) : str :=
  match indexOf s pattern with
  | None => s
  | Some pos =>
      let before := take pos s in
      let after := drop (pos + length pattern) s in
      before ++ GetSubstitution pattern before after replacement ++ after
  end.

(** [s.replace(/c/g, r)] for a pattern of one literal code unit and a
    replacement without [$]. *)
Fixpoint replaceAllChar (n : N) (r : str) (s : str) : str :=
  match s with
  | [] => []
  | c :: s' => if is_char n c then r ++ replaceAllChar n r s' else c :: replaceAllChar n r s'
  end.

(** [parseInt(s, 10)]: leading white space, an optional sign, then the
    longest run of decimal digits; [None] stands for NaN. *)
Fixpoint digits_value (acc : Z) (s : str) : Z :=
  match s with
  | [] => acc
  | c :: s' =>
      if is_digit c then digits_value (acc * 10 + Z.of_N (code c - 48)) s' else acc
  end.

Definition parse_digits (s : str) : option Z :=
  match s with
  | c :: _ => if is_digit c then Some (digits_value 0 s) else None
  | [] => None
  end.

Definition parseInt10 (s : str) : option Z :=
  match trimStart s with
  | c :: s' =>
      if is_char 45 c then Z.opp <$> parse_digits s'
      else if is_char 43 c then parse_digits s'
      else parse_digits (c :: s')
  | [] => None
  end.

(** Number to string, for the integers that occur in messages. *)
Definition Z_to_str (z : Z) : str := NilZero.string_of_int (Z.to_int z).

(** *** The regular expressions of app.js *)

(** [/<.*?>/g]: number of code units after a [<] up to and including the
    nearest [>], when no line terminator comes before it. *)
Fixpoint tag_len (s : str) : option nat :=
  match s with
  | [] => None
  | c :: s' =>
      if is_char 62 c then Some 1
      else if is_line_terminator c then None
      else S <$> tag_len s'
  end.

(** [s.replace(/<.*?>/g, '')]; [skip] code units of a match are still to
    be dropped. *)
Fixpoint strip_tags_from (skip : nat) (s : str) : str :=
  match s with
  | [] => []
  | c :: s' =>
      match skip with
      | S k => strip_tags_from k s'
      | O =>
          if is_char 60 c then
            match tag_len s' with
            | Some k => strip_tags_from k s'
            | None => c :: strip_tags_from 0 s'
            end
          else c :: strip_tags_from 0 s'
      end
  end.

Definition strip_tags (s : str) : str := strip_tags_from 0 s.

(** [s.replace(/\s+/g, '_')]; [in_run] says that the previous code unit
    was white space. *)
Fixpoint ws_runs_from (in_run : bool) (s : str) : str :=
  match s with
  | [] => []
  | c :: s' =>
      if is_white c then
        if in_run then ws_runs_from true s' else "_"%char :: ws_runs_from true s'
      else c :: ws_runs_from false s'
  end.

Definition ws_runs_to_underscore (s : str) : str := ws_runs_from false s.

(** [s.replace(/\.\w+$/, '')]: the leftmost dot that is followed, up to
    the end of the string, by one or more word characters. *)
Fixpoint strip_extension (s : str) : str :=
  match s with
  | [] => []
  | c :: s' =>
      if is_char 46 c && negb (bool_decide (s' = [])) && forallb is_word s'
      then []
      else c :: strip_extension s'
  end.

(** [s.replace(/\r?\n|\r/g, ' ')] *)
Fixpoint newlines_to_space (s : str) : str :=
  match s with
  | [] => []
  | c :: s' =>
      if is_char 13 c then
        match s' with
        | d :: s'' => if is_char 10 d then " "%char :: newlines_to_space s''
                      else " "%char :: newlines_to_space s'
        | [] => [" "%char]
        end
      else if is_char 10 c then " "%char :: newlines_to_space s'
      else c :: newlines_to_space s'
  end.

(** [/\[\[\[(.*?)\]\]\]/g].  [close_len s] is the length of the shortest
    run of non-terminators of [s] that is followed by three closing
    brackets: the lazy [.*?]. *)
Fixpoint close_len (s : str) : option nat :=
  if startsWith s "]]]" then Some 0
  else match s with
       | [] => None
       | c :: s' => if is_line_terminator c then None else S <$> close_len s'
       end.

(** One result of [pattern.exec]: [match[0]] and [match[1]]. *)
Record Match := { match0 : str; match1 : str }.

(** All the results of the loop [while ((match = pattern.exec(s)) !== null)],
    in order; [skip] code units of the previous match are still to be
    passed over ([lastIndex]). *)
Fixpoint exec_from (skip : nat) (s : str) : list Match :=
  match s with
  | [] => []
  | c :: s' =>
      match skip with
      | S k => exec_from k s'
      | O =>
          if startsWith s "[[[" then
            match close_len (drop 3 s) with
            | Some k =>
                let filename := take k (drop 3 s) in
                {| match0 := "[[[" ++ filename ++ "]]]"; match1 := filename |}
                  :: exec_from (k + 5) s'
            | None => exec_from 0 s'
            end
          else exec_from 0 s'
      end
  end.

Definition exec_all (s : str) : list Match := exec_from 0 s.

End JS.

(** ** Exceptions and parsed JSON values *)

(** A thrown value: [Error msg] is [new Error(msg)] thrown by the program,
    [Native msg] an exception raised by the platform (a [TypeError], a
    [SyntaxError] of [response.json()], a rejected [fetch]). *)
Inductive Exn :=
| Error (msg : str)
| Native (msg : str).

Definition message (e : Exn) : str :=
  match e with Error msg => msg | Native msg => msg end.

Inductive Result (A : Type) :=
| Ok (a : A)
| Throw (e : Exn).
Arguments Ok {A} a.
Arguments Throw {A} e.

#[global] Instance Result_ret : MRet Result := @Ok.
#[global] Instance Result_bind : MBind Result :=
  fun A B f r => match r with Ok a => f a | Throw e => Throw e end.

Module Json.

(** The value of [await response.json()].  The fields of an object are
    listed in the order in which the platform enumerates them, without
    duplicate keys; numbers are the integers. *)
Inductive JsValue :=
| JUndefined
| JNull
| JBool (b : bool)
| JNum (n : Z)
| JStr (s : str)
| JArr (items : list JsValue)
| JObj (fields : list (str * JsValue)).

(** ToBoolean *)
Definition truthy (v : JsValue) : bool :=
  match v with
  | JUndefined | JNull => false
  | JBool b => b
  | JNum n => negb (n =? 0)%Z
  | JStr s => negb (bool_decide (s = []))
  | JArr _ | JObj _ => true
  end.

Definition TypeError {A} : Result A := Throw (Native "TypeError").

Fixpoint lookup_field (fields : list (str * JsValue)) (key : str) : JsValue :=
  match fields with
  | [] => JUndefined
  | (k, v) :: rest => if bool_decide (k = key) then v else lookup_field rest key
  end.

(** A canonical array index: ["0"], or decimal digits without a leading
    zero. *)
Definition array_index (key : str) : option nat :=
  match key with
  | [] => None
  | c :: rest =>
      if forallb JS.is_digit key && (negb (JS.is_char 48 c) || bool_decide (rest = []))
      then Some (Z.to_nat (JS.digits_value 0 key))
      else None
  end.

(** [v[key]] and [v.key], for the keys that hold data: reading a property
    of [undefined] or [null] throws; a key that is absent reads as
    [undefined]. *)
Definition get (v : JsValue) (key : str) : Result JsValue :=
  match v with
  | JUndefined | JNull => TypeError
  | JBool _ | JNum _ => Ok JUndefined
  | JObj fields => Ok (lookup_field fields key)
  | JArr items =>
      match array_index key with
      | Some i => Ok (nth i items JUndefined)
      | None => if bool_decide (key = "length") then Ok (JNum (Z.of_nat (length items)))
                else Ok JUndefined
      end
  | JStr s =>
      match array_index key with
      | Some i => Ok (match s !! i with Some c => JStr [c] | None => JUndefined end)
      | None => if bool_decide (key = "length") then Ok (JNum (Z.of_nat (length s)))
                else Ok JUndefined
      end
  end.

(** [v.k1.k2...kn], left to right. *)
Fixpoint path (v : JsValue) (keys : list str) : Result JsValue :=
  match keys with
  | [] => Ok v
  | k :: rest => v' ← get v k; path v' rest
  end.

(** [Object.keys(v)] *)
Definition keys (v : JsValue) : Result (list str) :=
  match v with
  | JUndefined | JNull => TypeError
  | JBool _ | JNum _ => Ok []
  | JObj fields => Ok (fields.*1)
  | JArr items => Ok (map (fun i => JS.Z_to_str (Z.of_nat i)) (seq 0 (length items)))
  | JStr s => Ok (map (fun i => JS.Z_to_str (Z.of_nat i)) (seq 0 (length s)))
  end.

(** A method of [String.prototype] called on [v]: a [TypeError] unless
    [v] is a string. *)
Definition as_string (v : JsValue) : Result str :=
  match v with JStr s => Ok s | _ => TypeError end.

(** ToString, as applied by a template literal. *)
Fixpoint ToString (v : JsValue) : str :=
  match v with
  | JUndefined => "undefined"
  | JNull => "null"
  | JBool b => if b then "true" else "false"
  | JNum n => JS.Z_to_str n
  | JStr s => s
  | JArr items =>
      JS.join ","
        (map (fun item => match item with
                          | JUndefined | JNull => []
                          | _ => ToString item
                          end) items)
  | JObj _ => "[object Object]"
  end.

End Json.
Export Json.

(** ** The network and the monad of effectful code *)

Module Net.

Record ImagePart := { mime_type : str; data : JsValue }.

(** [requestData] of the two model calls. *)
Inductive RequestData :=
| SearchTermsRequest (promptText : str)
| ImageAnalysisRequest (systemInstruction : str) (imageParts : list ImagePart)
    (text : str).

(** The value passed to [JSON.stringify] for the request body. *)
Inductive Body :=
| ProxyBody (model : str) (data : RequestData)
| DirectBody (data : RequestData).

Inductive Request :=
| HttpGet (url : str)                  (* fetch(url) *)
| HttpHead (url : str)                 (* fetch(url, { method: 'HEAD' }) *)
| HttpPost (url : str) (body : Body)   (* fetch(url, { method: 'POST', ... }) *)
| LoadImage (url : str).               (* img.src = url, drawn to a canvas *)

(** What the program reads of a response.  [json] is [None] when
    [response.json()] rejects; [dataUrl] is the result of reading the body
    with [FileReader.readAsDataURL] (for [LoadImage], of
    [canvas.toDataURL]), [None] when that fails. *)
Record Response := {
  ok : bool;
  status : Z;
  statusText : str;
  contentLength : option str;
  json : option JsValue;
  text : str;
  dataUrl : option str
}.

Inductive NetResult :=
| Rejected (msg : str)
| Settled (r : Response).

Definition Trace := list Request.

(** What the program takes from its platform.  The answer of the network
    to a request may depend on every request issued before it; the
    program itself is deterministic, so every run of the real program is
    the run of the model against some [net]. *)
Record Platform := {
  net : Trace -> Request -> NetResult;
  encodeURIComponent : JsValue -> str;
  marked_parse : str -> str;       (* marked.parse *)
  innerHTML : str -> str           (* div.innerHTML = s; return div.innerHTML *)
}.

(** A computation reads the platform, extends the trace of requests and
    returns a value or throws. *)
Definition M (A : Type) : Type := Platform -> Trace -> Result A * Trace.

Definition ret {A} (a : A) : M A := fun _ tr => (Ok a, tr).

Definition bind {A B} (m : M A) (k : A -> M B) : M B :=
  fun P tr =>
    match m P tr with
    | (Ok a, tr') => k a P tr'
    | (Throw e, tr') => (Throw e, tr')
    end.

Definition throw {A} (e : Exn) : M A := fun _ tr => (Throw e, tr).

(** [try { m } catch (error) { handler error }] *)
Definition try_catch {A} (m : M A) (handler : Exn -> M A) : M A :=
  fun P tr =>
    match m P tr with
    | (Ok a, tr') => (Ok a, tr')
    | (Throw e, tr') => handler e P tr'
    end.

Definition lift {A} (r : Result A) : M A := fun _ tr => (r, tr).

Definition fetch (req : Request) : M Response :=
  fun P tr =>
    (match net P tr req with
     | Rejected msg => Throw (Native msg)
     | Settled r => Ok r
     end, tr ++ [req]).

(** [await response.json()] *)
Definition response_json (r : Response) : M JsValue :=
  match json r with
  | Some v => ret v
  | None => throw (Native "SyntaxError")
  end.

Declare Scope M_scope.
Delimit Scope M_scope with M.
Bind Scope M_scope with M.
Notation "x <- m ;; k" := (bind m (fun x => k))
  (at level 100, m at next level, right associativity) : M_scope.
Notation "m ;;; k" := (bind m (fun _ => k))
  (at level 100, right associativity) : M_scope.

(** [await Promise.all(items.map(f))] for an [f] whose requests are all
    issued before its first [await] resolves: the requests go out in the
    order of [items], and a rejection rejects the whole. *)
Fixpoint Promise_all_map {A B} (f : A -> M B) (items : list A) : M (list B) :=
  match items with
  | [] => ret []
  | x :: rest => (y <- f x ;; ys <- Promise_all_map f rest ;; ret (y :: ys))%M
  end.

End Net.
Export Net.

(** ** prompts.js *)

Module PROMPTS.

Definition dq : str := [ascii_of_N 34].

Definition SEARCH_TERMS : str :=
"Generate 3-5 specific search terms that could be used to find images related to this question on Wikimedia. 
Return only the search terms as a comma-separated list, with no other text or explanation:

Question: {question}".

Definition IMAGE_ANALYSIS : str :=
"You are an assistant that helps answer questions using visual aids. 
Examine the provided images and use ONLY the ones that are directly relevant to answering the user's question.
Prioritize images with English text and labels. If an image contains non-English text, either:
1. Only use it if the visual content is clear without needing to understand the text, or
2. Skip it in favor of images with English labels or no text dependency.
Keep in mind the image helps text! So the explnation should be also sufficietn without the images

In your response:
1. When inserting an image, include it using triple square brackets like this: [[[filename.png]]]
2. Only include images that directly help explain your answer
3. Always naturally reference each image in your text before showing it (e.g., " ++ dq
++ "As shown in the image below," ++ dq ++ " or " ++ dq
++ "You can see in the following illustration that..." ++ dq ++ ")
4. Describe specific elements within images when relevant
5. Make your response feel like a well-written article that integrates visuals with explanatory text
6. Provide a clear, informative response to the user's question if there is no good image, just provide a pure text answer".

End PROMPTS.

(** ** The data model *)

(** The object built by [getImageDetails]; [processImages] overwrites
    [title] and adds [base64] ([None] while the property is absent).
    [url] is whatever the metadata reply holds under [imageinfo[0].url].
    Every call of [getImageDetails] builds a new object, so the entries
    of [imageDetails] are distinct objects and the assignments to one do
    not show in another: an entry is a value here. *)
Record Image := {
  url : JsValue;
  altText : str;
  title : str;
  license : str;
  attribution : str;
  base64 : option str
}.

Definition set_title (img : Image) (t : str) : Image :=
  {| url := url img; altText := altText img; title := t;
     license := license img; attribution := attribution img;
     base64 := base64 img |}.

Definition set_base64 (img : Image) (b : str) : Image :=
  {| url := url img; altText := altText img; title := title img;
     license := license img; attribution := attribution img;
     base64 := Some b |}.

(** The constants on which the two versions of the pipeline differ:
    the payload budget, the ceiling of the size probe (in bytes) and the
    maximal number of images. *)
Record Config := {
  MAX_PAYLOAD_SIZE : Z;
  MAX_IMAGE_BYTES : Z;
  MAX_IMAGES : nat
}.

(** app.js: [17 * 1024 * 1024], [sizeInMB <= 1.0], [splice(15)]. *)
Definition app_config : Config :=
  {| MAX_PAYLOAD_SIZE := 17 * 1024 * 1024;
     MAX_IMAGE_BYTES := 1024 * 1024;
     MAX_IMAGES := 15 |}.

(** The earlier single-file version: [15 * 1024 * 1024],
    [sizeInMB <= 0.5], [splice(8)]. *)
Definition legacy_config : Config :=
  {| MAX_PAYLOAD_SIZE := 15 * 1024 * 1024;
     MAX_IMAGE_BYTES := 512 * 1024;
     MAX_IMAGES := 8 |}.

(** ** ImageProcessor *)

Module ImageProcessor.

(** The image is loaded and drawn on a white canvas; [onerror] rejects
    with a new error, a failing [toDataURL] with the exception caught. *)
Definition svgToPng (svgUrl : str) : M str :=
  (img <- try_catch (fetch (LoadImage svgUrl))
                    (fun _ => throw (Error "Failed to load SVG")) ;;
   match dataUrl img with
   | Some pngUrl => ret pngUrl
   | None => throw (Native "toDataURL")
   end)%M.

Definition getImageBase64 (url : str) : M str :=
  try_catch
    (response <- fetch (HttpGet url) ;;
     if negb (ok response)
     then throw (Error ("Failed to fetch image: " ++ statusText response))
     else match dataUrl response with
          | Some result => ret result
          | None => throw (Native "FileReader")
          end)%M
    (fun error => throw error).

(** [sizeInBytes / (1024 * 1024) <= limit]: the division by a power of
    two is exact, so the test is [sizeInBytes <= limit * 1024 * 1024];
    with NaN it is false. *)
Definition checkImageSize (cfg : Config) (url : str) : M bool :=
  try_catch
    (response <- fetch (HttpHead url) ;;
     if negb (ok response)
     then throw (Error ("Failed to check image size: " ++ statusText response))
     else match contentLength response with
          | None => ret true
          | Some contentLength =>
              if bool_decide (contentLength = []) then ret true
              else match JS.parseInt10 contentLength with
                   | Some sizeInBytes => ret (sizeInBytes <=? MAX_IMAGE_BYTES cfg)%Z
                   | None => ret false
                   end
          end)%M
    (fun _ => ret false).

(** [Math.ceil(n / 4)] for [0 <= n] *)
Definition ceil_quarter (n : Z) : Z := ((n + 3) / 4)%Z.

Definition estimateBase64Size (base64String : str) : Z :=
  let base64Data :=
    match JS.split "," base64String with
    | _ :: second :: _ => if bool_decide (second = []) then base64String else second
    | _ => base64String
    end in
  ceil_quarter (Z.of_nat (length base64Data) * 3).

End ImageProcessor.

(** ** WikimediaAPI *)

Module Candidate.
Record t := { title : JsValue; pageId : JsValue }.
End Candidate.

Module WikimediaAPI.

(** [a.map(f)]: only an array has the method. *)
Definition array_map {B} (a : JsValue) (f : JsValue -> Result B) : Result (list B) :=
  match a with
  | JArr items => mapM f items
  | _ => TypeError
  end.

(** The template of the log line reads [data.query.search.length]
    before the results are mapped. *)
Definition searchImages (searchTerm : str) : M (list Candidate.t) :=
  fun P =>
  let encodedSearchTerm := encodeURIComponent P (JStr searchTerm) in
  let apiUrl : str :=
    "https://commons.wikimedia.org/w/api.php?action=query&list=search&srsearch="
    ++ encodedSearchTerm
    ++ "+filetype:bitmap|drawing+-filetype:gif&srnamespace=6&format=json&origin=*&srlimit=3" in
  try_catch
    (response <- fetch (HttpGet apiUrl) ;;
     if negb (ok response)
     then throw (Error ("Wikimedia API error: " ++ JS.Z_to_str (status response)))
     else
       data <- response_json response ;;
       lift (search ← path data ["query" : str; "search" : str];
             _ ← get search "length";
             array_map search (fun result =>
               title ← get result "title";
               pageid ← get result "pageid";
               Ok {| Candidate.title := title; Candidate.pageId := pageid |})))%M
    (fun _ => ret []) P.

(** [metadata.F && metadata.F.value] *)
Definition field_value (metadata : JsValue) (field : str) : Result JsValue :=
  f ← get metadata field;
  if truthy f then get f "value" else Ok f.

(** The chain that selects the text of [altText], before it is cleaned
    up. *)
Definition altText_source (metadata imageTitle : JsValue) : Result JsValue :=
  description ← field_value metadata "ImageDescription";
  if truthy description then
    s ← as_string description; Ok (JStr (JS.strip_tags s))
  else
    objectName ← field_value metadata "ObjectName";
    if truthy objectName then Ok objectName
    else
      categories ← field_value metadata "Categories";
      if truthy categories then
        s ← as_string categories; Ok (JStr (JS.strip_tags s))
      else
        s ← as_string imageTitle; Ok (JStr (JS.replace s "File:" [])).

(** [altText.trim().substring(0, 200)], then the ellipsis when the
    length is 200. *)
Definition clean_altText (altText : str) : str :=
  let altText := JS.substring0 200 (JS.trim altText) in
  if (length altText =? 200)%nat then altText ++ "..." else altText.

Definition altText_of (metadata imageTitle : JsValue) : Result str :=
  source ← altText_source metadata imageTitle;
  s ← as_string source;
  Ok (clean_altText s).

Definition license_of (metadata : JsValue) : Result str :=
  short ← field_value metadata "LicenseShortName";
  if truthy short then s ← as_string short; Ok (JS.strip_tags s)
  else
    long ← field_value metadata "License";
    if truthy long then s ← as_string long; Ok (JS.strip_tags s)
    else Ok ("Unknown license" : str).

Definition attribution_of (metadata : JsValue) : Result str :=
  artist ← field_value metadata "Artist";
  if truthy artist then s ← as_string artist; Ok (JS.strip_tags s)
  else Ok [].

(** The part of [getImageDetails] between [response.json()] and the
    [return]; when [pages] has no key, [pageId] is [undefined] and
    [pages[pageId]] reads the property of that name. *)
Definition details_of (data imageTitle : JsValue) : Result Image :=
  pages ← path data ["query" : str; "pages" : str];
  pageIds ← keys pages;
  let pageId := head pageIds in
  if bool_decide (pageId = Some ("-1" : str)) then Throw (Error "Image not found")
  else
    page ← get pages (default ("undefined" : str) pageId);
    imageInfo ← path page ["imageinfo" : str; "0" : str];
    metadata ← get imageInfo "extmetadata";
    altText ← altText_of metadata imageTitle;
    licenseInfo ← license_of metadata;
    attribution ← attribution_of metadata;
    url ← get imageInfo "url";
    title ← as_string imageTitle;
    Ok {| url := url; altText := altText; title := JS.replace title "File:" [];
          license := licenseInfo; attribution := attribution; base64 := None |}.

(** [None] is the [null] returned from the [catch]. *)
Definition getImageDetails (imageTitle : JsValue) : M (option Image) :=
  fun P =>
  let encodedTitle := encodeURIComponent P imageTitle in
  let apiUrl : str :=
    "https://commons.wikimedia.org/w/api.php?action=query&titles="
    ++ encodedTitle
    ++ "&prop=imageinfo&iiprop=url|extmetadata&format=json&origin=*" in
  try_catch
    (response <- fetch (HttpGet apiUrl) ;;
     if negb (ok response)
     then throw (Error ("Wikimedia API error: " ++ JS.Z_to_str (status response)))
     else
       data <- response_json response ;;
       details <- lift (details_of data imageTitle) ;;
       ret (Some details))%M
    (fun _ => ret None) P.

End WikimediaAPI.

(** ** GeminiAPI *)

Module GeminiAPI.

Definition PROXY_URL : str :=
  "https://tight-brook-3d83.jcmpagel.workers.dev/generateContent".

Definition LF : str := [ascii_of_N 10].

(** [data.candidates[0].content.parts[0].text] *)
Definition answer_text (data : JsValue) : Result JsValue :=
  path data ["candidates" : str; "0" : str; "content" : str; "parts" : str;
             "0" : str; "text" : str].

(** [text.trim()], then [searchTermsText.split(',').map(term => term.trim())] *)
Definition searchTerms_of (data : JsValue) : Result (list str) :=
  text ← answer_text data;
  text ← as_string text;
  let searchTermsText := JS.trim text in
  Ok (map JS.trim (JS.split "," searchTermsText)).

(** [!apiKey] *)
Definition missing (apiKey : str) : bool := bool_decide (apiKey = []).

(** [usingProxy] is the flag of the module, read when the call starts.
    The result of the first [try] is [Some] for its [return] and [None]
    when the [catch] falls through to the direct call. *)
Definition getSearchTerms (usingProxy : bool) (question apiKey : str) : M (list str) :=
  let promptText := JS.replace PROMPTS.SEARCH_TERMS "{question}" question in
  let requestData := SearchTermsRequest promptText in
  (viaProxy <-
     (if usingProxy then
        try_catch
          (response <- fetch (HttpPost PROXY_URL
                                (ProxyBody "gemini-2.0-flash-lite" requestData)) ;;
           if negb (ok response)
           then throw (Error ("Proxy error: " ++ JS.Z_to_str (status response)))
           else
             data <- response_json response ;;
             searchTerms <- lift (searchTerms_of data) ;;
             ret (Some searchTerms))
          (fun _ => ret None)
      else ret None) ;;
   match viaProxy with
   | Some searchTerms => ret searchTerms
   | None =>
       if missing apiKey
       then throw (Error "API key is required when proxy is unavailable")
       else
         let apiUrl : str :=
           "https://generativelanguage.googleapis.com/v1beta/models/gemini-2.0-flash-lite:generateContent?key="
           ++ apiKey in
         try_catch
           (response <- fetch (HttpPost apiUrl (DirectBody requestData)) ;;
            if negb (ok response)
            then throw (Error ("Gemini API error: " ++ JS.Z_to_str (status response)
                               ++ " " ++ text response))
            else
              data <- response_json response ;;
              lift (searchTerms_of data))
           (fun error => throw error)
   end)%M.

Definition image_part (img : Image) : Result ImagePart :=
  u ← as_string (url img);
  b ← match base64 img with Some b => Ok b | None => TypeError end;
  Ok {| mime_type := if JS.endsWith u ".svg" then "image/png" else "image/jpeg";
        data := nth 1 (JStr <$> JS.split "," b) JUndefined |}.

Definition image_metadata (img : Image) : str :=
  "Image filename: " ++ title img ++ LF ++ "Description: " ++ altText img.

(** [generationConfig] is a constant of the request and left out. *)
Definition analysis_request (question : str) (imageData : list Image) : Result RequestData :=
  imageParts ← mapM image_part imageData;
  let imageMetadata := JS.join (LF ++ LF) (map image_metadata imageData) in
  Ok (ImageAnalysisRequest PROMPTS.IMAGE_ANALYSIS imageParts
        ("Image metadata:" ++ LF ++ imageMetadata ++ LF ++ LF
         ++ "User question: " ++ question)).

Definition analyzeImages (usingProxy : bool) (question : str) (imageData : list Image)
    (apiKey modelName : str) : M JsValue :=
  (requestData <- lift (analysis_request question imageData) ;;
   viaProxy <-
     (if usingProxy then
        try_catch
          (response <- fetch (HttpPost PROXY_URL (ProxyBody modelName requestData)) ;;
           if negb (ok response)
           then throw (Error ("Proxy error: " ++ JS.Z_to_str (status response)))
           else
             data <- response_json response ;;
             answerText <- lift (answer_text data) ;;
             ret (Some answerText))
          (fun _ => ret None)
      else ret None) ;;
   match viaProxy with
   | Some answerText => ret answerText
   | None =>
       if missing apiKey
       then throw (Error "API key is required when proxy is unavailable")
       else
         let apiUrl : str :=
           "https://generativelanguage.googleapis.com/v1beta/models/"
           ++ modelName ++ ":generateContent?key=" ++ apiKey in
         try_catch
           (response <- fetch (HttpPost apiUrl (DirectBody requestData)) ;;
            if negb (ok response)
            then throw (Error ("Gemini API error: " ++ JS.Z_to_str (status response)
                               ++ " " ++ text response))
            else
              data <- response_json response ;;
              lift (answer_text data))
           (fun error => throw error)
   end)%M.

End GeminiAPI.

(** ** AppController *)

Module AppController.

(** *** processImages *)

(** The body of the [try] of one iteration of the loop, from the state
    of the loop to its next state; leaving the state as it is stands for
    [continue]. *)
Definition loop_body (cfg : Config) (img : Image)
    (processedImages : list Image) (totalPayloadSize : Z) : M (list Image * Z) :=
  (u <- lift (as_string (url img)) ;;
   if JS.endsWith (JS.toLowerCase u) ".gif"
   then ret (processedImages, totalPayloadSize)
   else
     isWithinSizeLimit <- ImageProcessor.checkImageSize cfg u ;;
     if negb isWithinSizeLimit
     then ret (processedImages, totalPayloadSize)
     else
       let fileName := JS.toLowerCase (JS.ws_runs_to_underscore (title img)) in
       fetched <-
         (if JS.endsWith u ".svg"
          then base64 <- ImageProcessor.svgToPng u ;;
               ret (base64, set_title img (JS.replace fileName ".svg" ".png"))
          else base64 <- ImageProcessor.getImageBase64 u ;;
               ret (base64, set_title img fileName)) ;;
       let base64 := fst fetched in
       let img := snd fetched in
       let imageSize := ImageProcessor.estimateBase64Size base64 in
       if (totalPayloadSize + imageSize >? MAX_PAYLOAD_SIZE cfg)%Z
       then ret (processedImages, totalPayloadSize)
       else
         let totalPayloadSize := (totalPayloadSize + imageSize)%Z in
         ret (processedImages ++ [set_base64 img base64], totalPayloadSize))%M.

(** [for (const img of imageDetails) { try { ... } catch (error) { } }] *)
Fixpoint admission_loop (cfg : Config) (imageDetails : list Image)
    (processedImages : list Image) (totalPayloadSize : Z) : M (list Image * Z) :=
  match imageDetails with
  | [] => ret (processedImages, totalPayloadSize)
  | img :: rest =>
      (state <- try_catch (loop_body cfg img processedImages totalPayloadSize)
                          (fun _ => ret (processedImages, totalPayloadSize)) ;;
       admission_loop cfg rest (fst state) (snd state))%M
  end.

Definition processImages (cfg : Config) (imageDetails : list Image) : M (list Image) :=
  (state <- admission_loop cfg imageDetails [] 0%Z ;;
   let processedImages := fst state in
   ret (if (MAX_IMAGES cfg <? length processedImages)%nat
        then take (MAX_IMAGES cfg) processedImages
        else processedImages))%M.

(** *** formatResponse *)

(** [imagePlaceholders[placeholder] = filename] on an object whose keys
    are enumerated in the order of their first assignment. *)
Fixpoint assign (obj : list (str * str)) (placeholder filename : str) : list (str * str) :=
  match obj with
  | [] => [(placeholder, filename)]
  | (k, v) :: rest =>
      if bool_decide (k = placeholder) then (k, filename) :: rest
      else (k, v) :: assign rest placeholder filename
  end.

(** The [while] loop over [pattern.exec]; the result is
    [Object.entries(imagePlaceholders)]. *)
Definition imagePlaceholders (geminiResponse : str) : list (str * str) :=
  foldl (fun obj m => assign obj (JS.match0 m) (JS.match1 m)) []
        (JS.exec_all geminiResponse).

(** The callback of [processedImages.find]. *)
Definition title_matches (normalizedFilename : str) (img : Image) : bool :=
  let imgTitle := JS.toLowerCase (title img) in
  bool_decide (imgTitle = normalizedFilename)
  || JS.includes imgTitle normalizedFilename
  || JS.includes normalizedFilename imgTitle
  || bool_decide (JS.strip_extension imgTitle = JS.strip_extension normalizedFilename).

Definition find_image (filename : str) (processedImages : list Image) : option Image :=
  let normalizedFilename := JS.trim (JS.toLowerCase filename) in
  List.find (title_matches normalizedFilename) processedImages.

Definition dq : str := [ascii_of_N 34].

Definition figcaption_of (P : Platform) (img : Image) : str :=
  let captionElements : list (option str) :=
    [ Some (if negb (bool_decide (license img = []))
               && negb (bool_decide (license img = ("Unknown license" : str)))
            then "<small>Source: Wikimedia Commons - " ++ license img ++ "</small>"
            else "<small>Source: Wikimedia Commons</small>" : str);
      if negb (bool_decide (attribution img = []))
         && negb (bool_decide (JS.trim (attribution img) = []))
      then Some ("<small>Attribution: " ++ attribution img ++ "</small>")
      else None ] in
  JS.join "<br>" (map (innerHTML P) (omap id captionElements)).

Definition cleanAltText_of (img : Image) : str :=
  JS.replaceAllChar 39 "&#39;"
    (JS.replaceAllChar 34 "&quot;"
       (JS.newlines_to_space
          (if bool_decide (altText img = []) then "Image from Wikimedia Commons"
           else altText img))).

Definition imgTag_of (P : Platform) (img : Image) : str :=
  let figcaption := figcaption_of P img in
  let cleanAltText := cleanAltText_of img in
  "<figure style=" ++ dq ++ "margin: 20px 0;" ++ dq ++ ">
                    <img src=" ++ dq
  ++ ToString (url img)
  ++ dq ++ " alt=" ++ dq
  ++ cleanAltText
  ++ dq ++ " style=" ++ dq ++ "width:100%; border-radius:5px; box-shadow:0 2px 8px rgba(0,0,0,0.1);" ++ dq ++ ">
                    <figcaption style=" ++ dq ++ "font-style:italic; font-size:0.9em; color:#555; margin-top:5px;" ++ dq ++ ">
                        "
  ++ figcaption
  ++ "
                    </figcaption>
                </figure>".

(** The callback of [Object.entries(imagePlaceholders).forEach], as a
    function of the current [formattedResponse]. *)
Definition substitute (P : Platform) (processedImages : list Image)
    (formattedResponse : str) (entry : str * str) : str :=
  let placeholder := fst entry in
  let filename := snd entry in
  match find_image filename processedImages with
  | Some img => JS.replace formattedResponse placeholder (imgTag_of P img)
  | None => formattedResponse
  end.

(** [formattedResponse] when the [forEach] is over. *)
Definition substituted (P : Platform) (geminiResponse : str)
    (processedImages : list Image) : str :=
  foldl (substitute P processedImages) geminiResponse
        (imagePlaceholders geminiResponse).

Definition formatResponse (P : Platform) (geminiResponse : str)
    (processedImages : list Image) : str :=
  marked_parse P (substituted P geminiResponse processedImages).

(** *** processQuestion *)

(** What the user sees when the run is over. *)
Inductive Outcome :=
| DisplayResponse (question formattedResponse : str)
| ShowError (error : Exn).

Definition NO_IMAGES : str :=
  "No images found on Wikimedia for the given search terms".

(** The [try] block.  An answer that is not a string makes
    [formatResponse] throw ([replace] is no method of it, or
    [marked.parse] rejects it). *)
Definition answerQuestion (cfg : Config) (usingProxy : bool)
    (question apiKey modelName : str) : M str :=
  fun P =>
  ((if negb usingProxy && GeminiAPI.missing apiKey
    then throw (Error "API key is required when not using the proxy")
    else ret tt) ;;;
   searchTerms <- GeminiAPI.getSearchTerms usingProxy question apiKey ;;
   searchResults <- Promise_all_map WikimediaAPI.searchImages searchTerms ;;
   let allImageResults := concat searchResults in
   let allImageResults :=
     if (15 <? length allImageResults)%nat then take 15 allImageResults
     else allImageResults in
   if (length allImageResults =? 0)%nat
   then throw (Error NO_IMAGES)
   else
     details <- Promise_all_map
                  (fun img => WikimediaAPI.getImageDetails (Candidate.title img))
                  allImageResults ;;
     let imageDetails := omap id details in
     processedImages <- processImages cfg imageDetails ;;
     geminiResponse <- GeminiAPI.analyzeImages usingProxy question processedImages
                         apiKey modelName ;;
     answer <- lift (as_string geminiResponse) ;;
     ret (formatResponse P answer processedImages))%M P.

Definition processQuestion (cfg : Config) (usingProxy : bool)
    (question apiKey modelName : str) : M Outcome :=
  try_catch
    (formattedResponse <- answerQuestion cfg usingProxy question apiKey modelName ;;
     ret (DisplayResponse question formattedResponse))%M
    (fun error => ret (ShowError error)).

End AppController.

(** ** UIController: the handler of the submit button *)

Module UIController.

Import AppController.

(** What the handler reads of the page: the values of the two inputs
    and of the model selector, and the [checked] state of the relay
    toggle ([None] when the page has no toggle). *)
Record Elements := {
  userQuestionInput : str;
  apiKeyInput : str;
  modelSelector : str;
  useProxyToggle : option bool
}.

(** What the click leads to: an [alert], or a run of [processQuestion]
    after [GeminiAPI.setUseProxy(useProxy)], with its outcome. *)
Inductive Handled :=
| Alert (message : str)
| Processed (useProxy : bool) (outcome : Outcome).

(** The listener of [submitBtn], lines 440 to 462.  [setUseProxy] sets
    the flag that [processQuestion] and the two model calls read, which
    is the parameter [usingProxy] of their models. *)
Definition submitBtn_click (cfg : Config) (elements : Elements) : M Handled :=
  let question := JS.trim (userQuestionInput elements) in
  let apiKey := JS.trim (apiKeyInput elements) in
  let selectedModel := modelSelector elements in
  let useProxy :=
    match useProxyToggle elements with
    | Some checked => checked
    | None => true
    end in
  if bool_decide (question = []) then ret (Alert "Please enter a question")
  else if negb useProxy && bool_decide (apiKey = [])
  then ret (Alert "Please enter your Gemini API key when not using the proxy")
  else
    (outcome <- processQuestion cfg useProxy question apiKey selectedModel ;;
     ret (Processed useProxy outcome))%M.

End UIController.

(** ** The earlier single-file version *)

(** The single-file version has no relay: both model calls go to the
    direct endpoint with the key of the user.  Its [svgToPng],
    [getImageBase64], [searchWikimediaImages], [getImageDetails] and
    [estimateBase64Size] are, statement for statement, those of app.js,
    and its admission loop, written out inside [processQuestion], is
    [processImages] with the constants of [legacy_config]; they are not
    repeated here. *)
Module Legacy.

Import AppController.

Definition dq : str := [ascii_of_N 34].

(** The text of the request for search terms, up to the question. *)
Definition SEARCH_TERMS : str :=
"Generate 3-5 specific search terms that could be used to find images related to this question on Wikimedia. 
                    Return only the search terms as a comma-separated list, with no other text or explanation:
                    
                    Question: ".

Definition systemInstruction : str :=
"You are an assistant that helps answer questions using visual aids. 
    Examine the provided images and use ONLY the ones that are directly relevant to answering the user's question.
    Prioritize images with English text and labels. If an image contains non-English text, either:
    1. Only use it if the visual content is clear without needing to understand the text, or
    2. Skip it in favor of images with English labels or no text dependency.
    
    In your response:
    1. When inserting an image, include it using triple square brackets like this: [[[filename.png]]]
    2. Only include images that directly help explain your answer
    3. Always naturally reference each image in your text before showing it (e.g., " ++ dq ++ "As shown in the image below," ++ dq ++ " or " ++ dq ++ "You can see in the following illustration that..." ++ dq ++ ")
    4. Describe specific elements within images when relevant
    5. Make your response feel like a well-written article that integrates visuals with explanatory text
    6. Provide a clear, informative response to the user's question if there is no good image, just provide a pure text answer".

Definition getSearchTerms (question apiKey : str) : M (list str) :=
  let apiUrl : str :=
    "https://generativelanguage.googleapis.com/v1beta/models/gemini-2.0-flash-lite:generateContent?key="
    ++ apiKey in
  let requestData := SearchTermsRequest (SEARCH_TERMS ++ question) in
  try_catch
    (response <- fetch (HttpPost apiUrl (DirectBody requestData)) ;;
     if negb (ok response)
     then throw (Error ("Gemini API error: " ++ JS.Z_to_str (status response)
                        ++ " " ++ text response))
     else
       data <- response_json response ;;
       lift (GeminiAPI.searchTerms_of data))%M
    (fun error => throw error).

Definition analysis_request (question : str) (imageData : list Image) :
    Result RequestData :=
  imageParts ← mapM GeminiAPI.image_part imageData;
  let imageMetadata :=
    JS.join (GeminiAPI.LF ++ GeminiAPI.LF) (map GeminiAPI.image_metadata imageData) in
  Ok (ImageAnalysisRequest systemInstruction imageParts
        ("Image metadata:" ++ GeminiAPI.LF ++ imageMetadata ++ GeminiAPI.LF
         ++ GeminiAPI.LF ++ "User question: " ++ question)).

Definition analyzeImagesWithGemini (question : str) (imageData : list Image)
    (apiKey : str) : M JsValue :=
  (requestData <- lift (analysis_request question imageData) ;;
   let apiUrl : str :=
     "https://generativelanguage.googleapis.com/v1beta/models/gemini-2.0-flash:generateContent?key="
     ++ apiKey in
   try_catch
     (response <- fetch (HttpPost apiUrl (DirectBody requestData)) ;;
      if negb (ok response)
      then throw (Error ("Gemini API error: " ++ JS.Z_to_str (status response)
                         ++ " " ++ text response))
      else
        data <- response_json response ;;
        lift (GeminiAPI.answer_text data))
     (fun error => throw error))%M.

(** The caption of a figure: the alternative text, the source line and
    the attribution line, without the entries that are [null]. *)
Definition figcaption_of (img : Image) : str :=
  let captionElements : list (option str) :=
    [ if negb (bool_decide (altText img = [])) then Some (altText img) else None;
      Some (if negb (bool_decide (license img = []))
               && negb (bool_decide (license img = ("Unknown license" : str)))
            then "<small>Source: Wikimedia Commons - " ++ license img ++ "</small>"
            else "<small>Source: Wikimedia Commons</small>" : str);
      if negb (bool_decide (attribution img = []))
         && negb (bool_decide (JS.trim (attribution img) = []))
      then Some ("<small>Attribution: " ++ attribution img ++ "</small>")
      else None ] in
  JS.join "<br>" (omap id captionElements).

(** The figure shows the payload itself; an image without one would
    read [undefined] there. *)
Definition imgTag_of (img : Image) : str :=
  let figcaption := figcaption_of img in
  "<figure style=" ++ dq ++ "margin: 20px 0;" ++ dq ++ ">
            <img src=" ++ dq
  ++ match base64 img with Some b => b | None => "undefined" end
  ++ dq ++ " alt=" ++ dq
  ++ (if bool_decide (altText img = []) then "Image from Wikimedia Commons"
      else altText img)
  ++ dq ++ " style=" ++ dq ++ "max-width:100%; border-radius:5px; box-shadow:0 2px 8px rgba(0,0,0,0.1);" ++ dq ++ ">
            <figcaption style=" ++ dq ++ "font-style:italic; font-size:0.9em; color:#555; margin-top:5px;" ++ dq ++ ">
                "
  ++ figcaption
  ++ "
            </figcaption>
        </figure>".

Definition substitute (processedImages : list Image)
    (formattedResponse : str) (entry : str * str) : str :=
  let placeholder := fst entry in
  let filename := snd entry in
  match find_image filename processedImages with
  | Some img => JS.replace formattedResponse placeholder (imgTag_of img)
  | None => formattedResponse
  end.

(** Lines 443 to 510 of [processQuestion]. *)
Definition formatted (P : Platform) (geminiResponse : str)
    (processedImages : list Image) : str :=
  marked_parse P
    (foldl (substitute processedImages) geminiResponse
           (imagePlaceholders geminiResponse)).

(** The [try] block of [processQuestion]. *)
Definition answerQuestion (question apiKey : str) : M str :=
  fun P =>
  ((if GeminiAPI.missing apiKey
    then throw (Error "API key is required")
    else ret tt) ;;;
   searchTerms <- getSearchTerms question apiKey ;;
   searchResults <- Promise_all_map WikimediaAPI.searchImages searchTerms ;;
   let allImageResults := concat searchResults in
   let allImageResults :=
     if (15 <? length allImageResults)%nat then take 15 allImageResults
     else allImageResults in
   if (length allImageResults =? 0)%nat
   then throw (Error NO_IMAGES)
   else
     details <- Promise_all_map
                  (fun img => WikimediaAPI.getImageDetails (Candidate.title img))
                  allImageResults ;;
     let imageDetails := omap id details in
     processedImages <- processImages legacy_config imageDetails ;;
     geminiResponse <- analyzeImagesWithGemini question processedImages apiKey ;;
     answer <- lift (as_string geminiResponse) ;;
     ret (formatted P answer processedImages))%M P.

Definition processQuestion (question apiKey : str) : M Outcome :=
  try_catch
    (formattedResponse <- answerQuestion question apiKey ;;
     ret (DisplayResponse question formattedResponse))%M
    (fun error => ret (ShowError error)).

(** The listener of the submit button, lines 536 to 552. *)
Inductive Handled :=
| Alert (message : str)
| Processed (outcome : Outcome).

Definition submitBtn_click (userQuestionInput apiKeyInput : str) : M Handled :=
  let question := JS.trim userQuestionInput in
  let apiKey := JS.trim apiKeyInput in
  if bool_decide (question = []) then ret (Alert "Please enter a question")
  else if bool_decide (apiKey = []) then ret (Alert "Please enter your Gemini API key")
  else
    (outcome <- processQuestion question apiKey ;;
     ret (Processed outcome))%M.

End Legacy.

(** ** The vocabulary of the statements about the admission pipeline *)

Module Admission.
Section Admission.

Import ImageProcessor AppController.

Context (cfg : Config) (P : Platform).

(** The size probe let the image through: a successful reply without a
    usable [Content-Length], or with one that parses to at most the
    ceiling. *)
Definition probe_passed (reply : NetResult) : Prop :=
  ∃ response, reply = Settled response ∧ ok response = true ∧
    (contentLength response = None
     ∨ contentLength response = Some []
     ∨ ∃ header sizeInBytes,
         contentLength response = Some header
         ∧ JS.parseInt10 header = Some sizeInBytes
         ∧ (sizeInBytes <= MAX_IMAGE_BYTES cfg)%Z).


(** The title under which an image is admitted. *)
Definition new_title (u : str) (img : Image) : str :=
  let fileName := JS.toLowerCase (JS.ws_runs_to_underscore (title img)) in
  if JS.endsWith u ".svg" then JS.replace fileName ".svg" ".png" else fileName.

(** The download of the payload: lines 785 to 791. *)
Definition fetch_payload (u : str) : M str :=
  if JS.endsWith u ".svg" then svgToPng u else getImageBase64 u.

Definition admitted_image (u : str) (img : Image) (b : str) : Image :=
  set_base64 (set_title img (new_title u img)) b.

(** One iteration of the loop, with its [try] and [catch]. *)
Definition iteration (img : Image) (processed : list Image) (total : Z) :
    M (list Image * Z) :=
  try_catch (loop_body cfg img processed total) (fun _ => ret (processed, total)).

(** What one iteration can do to the state of the loop and to the trace:
    nothing but further requests, or the admission of the image after a
    probe that passed and a download that fits the budget. *)
Inductive Step (img : Image) (processed : list Image) (total : Z) (tr : Trace) :
    list Image * Z → Trace → Prop :=
| Skipped tr' :
    tr `prefix_of` tr' →
    Step img processed total tr (processed, total) tr'
| Accepted (u b : str) tr' :
    url img = JStr u →
    JS.endsWith (JS.toLowerCase u) ".gif" = false →
    probe_passed (net P tr (HttpHead u)) →
    (tr ++ [HttpHead u]) `prefix_of` tr' →
    (total + estimateBase64Size b <= MAX_PAYLOAD_SIZE cfg)%Z →
    Step img processed total tr
      (processed ++ [admitted_image u img b], (total + estimateBase64Size b)%Z) tr'.

(** The sum of the estimates of a sequence of admitted images. *)
Definition payload_sum (images : list Image) : Z :=
  foldr (fun img acc =>
           (match base64 img with
            | Some b => estimateBase64Size b
            | None => 0
            end + acc)%Z) 0%Z images.

(** [p] is the entry under which the detail [d] was admitted, in a pass
    that started with the accumulator [total] and the trace [tr] and
    ended with the trace [tr']. *)
Definition AcceptedAs (total : Z) (tr tr' : Trace) (d p : Image) : Prop :=
  ∃ (u b : str) (tr0 : Trace),
    url d = JStr u
    ∧ p = admitted_image u d b
    ∧ JS.endsWith (JS.toLowerCase u) ".gif" = false
    ∧ probe_passed (net P tr0 (HttpHead u))
    ∧ tr `prefix_of` tr0
    ∧ (tr0 ++ [HttpHead u]) `prefix_of` tr'
    ∧ ((0 <= total)%Z → (estimateBase64Size b <= MAX_PAYLOAD_SIZE cfg)%Z).

End Admission.
End Admission.

(** ** The vocabulary of the statements about the model calls *)

Module Invoker.

Import GeminiAPI.

(** What the relay attempt yields: the decoded reply when the request
    settles with a success status and the body decodes, and [None], a
    failure of the attempt, in every other case. *)
Definition relay_result {A} (decode : JsValue -> Result A) (reply : NetResult) : option A :=
  match reply with
  | Rejected _ => None
  | Settled response =>
      if ok response then
        match json response with
        | Some data => match decode data with Ok v => Some v | Throw _ => None end
        | None => None
        end
      else None
  end.

(** What the direct attempt yields. *)
Definition direct_result {A} (decode : JsValue -> Result A) (reply : NetResult) : Result A :=
  match reply with
  | Rejected msg => Throw (Native msg)
  | Settled response =>
      if ok response then
        match json response with
        | Some data => decode data
        | None => Throw (Native "SyntaxError")
        end
      else Throw (Error ("Gemini API error: " ++ JS.Z_to_str (status response)
                         ++ " " ++ text response))
  end.

Definition CredentialRequired : Exn :=
  Error "API key is required when proxy is unavailable".

Definition relay_request (modelName : str) (requestData : RequestData) : Request :=
  HttpPost PROXY_URL (ProxyBody modelName requestData).

Definition direct_request (modelName : str) (requestData : RequestData)
    (apiKey : str) : Request :=
  HttpPost ("https://generativelanguage.googleapis.com/v1beta/models/"
            ++ modelName ++ ":generateContent?key=" ++ apiKey)
           (DirectBody requestData).

(** An image as the admission pipeline hands it on: a URL that is a
    string, and a payload. *)
Definition has_payload (img : Image) : Prop :=
  ∃ (u b : str), url img = JStr u ∧ base64 img = Some b.

(** The resilience contract of a call [invoke usingProxy apiKey] with the
    requests [relay] and [direct apiKey]: the relay first; after a failed
    relay, and when the relay is disabled, the direct path, which without
    a credential throws before any request. *)
Definition Resilient {A} (invoke : bool -> str -> M A)
    (decode : JsValue -> Result A) (relay : Request) (direct : str -> Request) : Prop :=
  ∀ (P : Platform) (tr : Trace) (apiKey : str),
    (∀ v, relay_result decode (net P tr relay) = Some v →
          invoke true apiKey P tr = (Ok v, tr ++ [relay]))
    ∧ (relay_result decode (net P tr relay) = None → apiKey ≠ [] →
       invoke true apiKey P tr
       = (direct_result decode (net P (tr ++ [relay]) (direct apiKey)),
          tr ++ [relay; direct apiKey]))
    ∧ (relay_result decode (net P tr relay) = None → apiKey = [] →
       invoke true apiKey P tr = (Throw CredentialRequired, tr ++ [relay]))
    ∧ (apiKey ≠ [] →
       invoke false apiKey P tr
       = (direct_result decode (net P tr (direct apiKey)), tr ++ [direct apiKey]))
    ∧ (apiKey = [] →
       invoke false apiKey P tr = (Throw CredentialRequired, tr)).

End Invoker.

(** ** Concrete platforms and inputs *)

Module Scenario.

Definition reply : Response :=
  {| ok := true; status := 200; statusText := "OK"; contentLength := None;
     json := None; text := []; dataUrl := None |}.

Definition reply_dataUrl (d : str) : Response :=
  {| ok := true; status := 200; statusText := "OK"; contentLength := None;
     json := None; text := []; dataUrl := Some d |}.

Definition reply_json (v : JsValue) : Response :=
  {| ok := true; status := 200; statusText := "OK"; contentLength := None;
     json := Some v; text := []; dataUrl := None |}.

Definition reply_status (code : Z) (reason : str) : Response :=
  {| ok := false; status := code; statusText := reason; contentLength := None;
     json := None; text := reason; dataUrl := None |}.

Definition platform_of (network : Trace -> Request -> NetResult) : Platform :=
  {| net := network; encodeURIComponent := ToString;
     marked_parse := fun s => s; innerHTML := fun s => s |}.

Definition detail (u t : str) : Image :=
  {| url := JStr u; altText := "An image"; title := t;
     license := "CC BY-SA 4.0"; attribution := []; base64 := None |}.

(** A budget of ten bytes and a host whose images are of six and of
    three bytes. *)
Definition tiny_budget : Config :=
  {| MAX_PAYLOAD_SIZE := 10; MAX_IMAGE_BYTES := 1024 * 1024; MAX_IMAGES := 15 |}.

Definition gallery : Platform :=
  platform_of (fun _ req =>
    match req with
    | HttpHead _ => Settled reply
    | HttpGet u =>
        Settled (reply_dataUrl
                   (if JS.endsWith u "small.png"
                    then "data:image/png;base64,AAAA"
                    else "data:image/png;base64,AAAAAAAA"))
    | _ => Rejected "offline"
    end).

Definition first_png : Image := detail "https://upload.example/first.png" "First.png".
Definition second_png : Image := detail "https://upload.example/second.png" "Second.png".
Definition small_png : Image := detail "https://upload.example/small.png" "Small.png".
Definition anim_gif : Image := detail "https://upload.example/Anim.GIF" "Anim.GIF".

(** A host without [Content-Length] whose image encodes to 1398104
    characters of base64. *)
Definition large_payload : str :=
  "data:image/jpeg;base64" ++ ","%char :: replicate (Z.to_nat 1398104) "A"%char.

Definition large_host : Platform :=
  platform_of (fun _ req =>
    match req with
    | HttpHead _ => Settled reply
    | HttpGet _ => Settled (reply_dataUrl large_payload)
    | _ => Rejected "offline"
    end).

Definition large_jpg : Image :=
  detail "https://upload.wikimedia.org/wikipedia/commons/1/12/Large_photo.jpg"
         "Large photo.jpg".

(** The envelope of a model reply with the text [t]. *)
Definition gemini_reply (t : str) : JsValue :=
  JObj [("candidates" : str,
         JArr [JObj [("content" : str,
                      JObj [("parts" : str,
                             JArr [JObj [("text" : str, JStr t)]])])]])].

(** The relay answers with a server error, the direct endpoint works. *)
Definition relay_down : Platform :=
  platform_of (fun _ req =>
    match req with
    | HttpPost u _ =>
        if bool_decide (u = GeminiAPI.PROXY_URL)
        then Settled (reply_status 500 "Internal Server Error")
        else Settled (reply_json (gemini_reply "A perceptron is a linear classifier."))
    | _ => Rejected "offline"
    end).

(** The repository has one image for the term, an animation; both model
    calls go through the relay. *)
Definition only_gifs : Platform :=
  platform_of (fun _ req =>
    match req with
    | HttpPost _ (ProxyBody _ (SearchTermsRequest _)) =>
        Settled (reply_json (gemini_reply "dancing cat"))
    | HttpPost _ (ProxyBody _ (ImageAnalysisRequest _ _ _)) =>
        Settled (reply_json (gemini_reply "Cats dance when they are happy."))
    | HttpGet u =>
        if JS.includes u "list=search" then
          Settled (reply_json
            (JObj [("query" : str,
                    JObj [("search" : str,
                           JArr [JObj [("title" : str, JStr "File:Dancing cat.gif");
                                       ("pageid" : str, JNum 7)]])])]))
        else
          Settled (reply_json
            (JObj [("query" : str,
                    JObj [("pages" : str,
                           JObj [("7" : str,
                                  JObj [("imageinfo" : str,
                                         JArr [JObj [("url" : str,
                                                      JStr "https://upload.example/Dancing_cat.gif");
                                                     ("extmetadata" : str, JObj [])]])])])])]))
    | _ => Rejected "offline"
    end).

Definition dancing_cat : Image :=
  {| url := JStr "https://upload.example/Dancing_cat.gif";
     altText := "Dancing cat.gif"; title := "Dancing cat.gif";
     license := "Unknown license"; attribution := []; base64 := None |}.

(** Two processed images and a platform for [formatResponse]. *)
Definition processed (t : str) : Image :=
  {| url := JStr ("https://upload.example/" ++ t); altText := "An image";
     title := t; license := "CC BY-SA 4.0"; attribution := "A. Author";
     base64 := Some ("data:image/png;base64,AAAA" : str) |}.

Definition dog_png : Image := processed "dog.png".
Definition cat_png : Image := processed "cat.png".

Definition offline : Platform := platform_of (fun _ _ => Rejected "offline").

(** The model ends its list of terms with a comma. *)
Definition trailing_comma : Platform :=
  platform_of (fun _ req =>
    match req with
    | HttpPost _ _ =>
        Settled (reply_json (gemini_reply "perceptron diagram, neural network node,"))
    | _ => Rejected "offline"
    end).

(** A description of exactly 200 characters. *)
Definition description_200 : str := replicate 200 "a"%char.

Definition metadata_200 : JsValue :=
  JObj [("ImageDescription" : str, JObj [("value" : str, JStr description_200)])].

(** The scenario of the specification: two terms, one candidate for
    each, both admitted, and an answer that refers to the first. *)
Definition search_reply (t : str) (pageid : Z) : JsValue :=
  JObj [("query" : str,
         JObj [("search" : str,
                JArr [JObj [("title" : str, JStr t); ("pageid" : str, JNum pageid)]])])].

Definition detail_reply (pageid u license : str) : JsValue :=
  JObj [("query" : str,
         JObj [("pages" : str,
                JObj [(pageid,
                       JObj [("imageinfo" : str,
                              JArr [JObj [("url" : str, JStr u);
                                          ("extmetadata" : str,
                                           JObj [("LicenseShortName" : str,
                                                  JObj [("value" : str, JStr license)])])]])])])])].

Definition perceptron_world : Platform :=
  platform_of (fun _ req =>
    match req with
    | HttpPost _ (ProxyBody _ (SearchTermsRequest _)) =>
        Settled (reply_json (gemini_reply "perceptron diagram, neural network node"))
    | HttpPost _ (ProxyBody _ (ImageAnalysisRequest _ _ _)) =>
        Settled (reply_json
          (gemini_reply "A perceptron weighs its inputs: [[[perceptron_diagram.png]]]"))
    | HttpGet u =>
        if JS.includes u "srsearch=perceptron" then
          Settled (reply_json (search_reply "File:Perceptron diagram.png" 11))
        else if JS.includes u "srsearch=neural" then
          Settled (reply_json (search_reply "File:Neural network node.svg" 12))
        else if JS.includes u "titles=File:Perceptron" then
          Settled (reply_json
            (detail_reply "11" "https://upload.example/Perceptron_diagram.png" "CC BY 4.0"))
        else if JS.includes u "titles=File:Neural" then
          Settled (reply_json
            (detail_reply "12" "https://upload.example/Neural_network_node.svg" "CC0"))
        else Settled (reply_dataUrl "data:image/png;base64,AAAA")
    | HttpHead _ => Settled reply
    | LoadImage _ => Settled (reply_dataUrl "data:image/png;base64,BBBB")
    | _ => Rejected "offline"
    end).

End Scenario.

(** ** The vocabulary of the statements about a whole run *)

Module Run.

Import AppController.

(** An exception raised by the platform, not by a [throw] of the program. *)
Definition native (e : Exn) : Prop := ∃ msg, e = Native msg.

(** How [processQuestion] ends once the answer of the vision model is
    there, or its failure. *)
Definition present (P : Platform) (question : str) (processedImages : list Image)
    (answered : Result JsValue * Trace) : Result Outcome * Trace :=
  match answered with
  | (Ok (JStr answer), tr) =>
      (Ok (DisplayResponse question (formatResponse P answer processedImages)), tr)
  | (Ok _, tr) => (Ok (ShowError (Native "TypeError")), tr)
  | (Throw e, tr) => (Ok (ShowError e), tr)
  end.

(** [allImageResults] after [flat()] and [slice(0, 15)]. *)
Definition capped (searchResults : list (list Candidate.t)) : list Candidate.t :=
  if (15 <? length (concat searchResults))%nat then take 15 (concat searchResults)
  else concat searchResults.

End Run.

(** ** The vocabulary of the statements about placeholder resolution *)

Module Placeholders.

Import AppController.

(** The ways in which the title of an image answers to a normalized
    file name. *)
Definition Matches (normalizedFilename : str) (img : Image) : Prop :=
  let imgTitle := JS.toLowerCase (title img) in
  imgTitle = normalizedFilename
  ∨ (∃ before after, imgTitle = before ++ normalizedFilename ++ after)
  ∨ (∃ before after, normalizedFilename = before ++ imgTitle ++ after)
  ∨ JS.strip_extension imgTitle = JS.strip_extension normalizedFilename.

(** [img] is the first entry of [processedImages] that matches. *)
Definition FirstMatch (normalizedFilename : str) (processedImages : list Image)
    (img : Image) : Prop :=
  ∃ earlier later,
    processedImages = earlier ++ img :: later
    ∧ Forall (fun other => ¬ Matches normalizedFilename other) earlier
    ∧ Matches normalizedFilename img.


(** The text of the token that encloses [filename]. *)
Definition token (filename : str) : str := "[[[" ++ filename ++ "]]]".

(** The token texts of a reply, one for each occurrence, in order. *)
Definition tokens (geminiResponse : str) : list str :=
  map JS.match0 (JS.exec_all geminiResponse).

End Placeholders.

(** ** The vocabulary of the statements about search terms *)

Module Terms.

(** No white space at either end. *)
Definition no_outer_space (s : str) : Prop :=
  match head s with Some c => JS.is_white c = false | None => True end
  ∧ match last s with Some c => JS.is_white c = false | None => True end.

Definition all_white (s : str) : Prop := Forall (fun c => JS.is_white c = true) s.

(** The body [data] was read from a successful response of the run. *)
Definition replied (P : Platform) (data : JsValue) : Prop :=
  ∃ tr req response,
    net P tr req = Settled response ∧ ok response = true ∧ json response = Some data.

End Terms.

(** ** The vocabulary of the statements about the requests of a run *)

Module Requests.

Import AppController.




(** The address of the metadata of [imageTitle]. *)
Definition details_url (P : Platform) (imageTitle : JsValue) : str :=
  "https://commons.wikimedia.org/w/api.php?action=query&titles="
  ++ encodeURIComponent P imageTitle
  ++ "&prop=imageinfo&iiprop=url|extmetadata&format=json&origin=*".

(** No white space and no letter in upper case. *)
Definition normalized (s : str) : Prop :=
  Forall (fun c => JS.is_white c = false ∧ JS.lower_char c = c) s.

End Requests.

(** ** The vocabulary of the statements about the layout of a reply *)

Module Layout.

(** The text that reads [gap ++ token] for each gap and its token, in
    order, and then [rest]. *)
Fixpoint weave (gaps tokens : list str) (rest : str) : str :=
  match gaps, tokens with
  | gap :: gaps', token :: tokens' => gap ++ token ++ weave gaps' tokens' rest
  | _, _ => rest
  end.

(** A [<] of [s] that is followed, before the end of its line, by a
    [>]: what the pattern [<.*?>] matches. *)
Definition has_tag (s : str) : Prop :=
  ∃ before body after,
    s = before ++ "<"%char :: body ++ ">"%char :: after
    ∧ Forall (fun c => JS.is_line_terminator c = false) body.

End Layout.

(** ** The vocabulary of the statements about failures *)

Module Failure.

Import AppController.

(** The failures of a model call: the credential is missing, the direct
    endpoint answered with an error status, or the platform raised an
    exception (a rejected request, a body that is no JSON, a reply of
    another shape). *)
Definition of_model_call (e : Exn) : Prop :=
  Run.native e
  ∨ e = Invoker.CredentialRequired
  ∨ ∃ status body,
      e = Error ("Gemini API error: " ++ JS.Z_to_str status ++ " " ++ body).

Definition VALIDATION : Exn :=
  Error "API key is required when not using the proxy".


End Failure.

(** ** A repository that names the artist inside a link *)

Module Credits.

Import Scenario.

Definition linked_artist : Platform :=
  platform_of (fun _ req =>
    match req with
    | HttpGet _ =>
        Settled (reply_json
          (JObj [("query" : str,
                  JObj [("pages" : str,
                         JObj [("21" : str,
                                JObj [("imageinfo" : str,
                                       JArr [JObj [("url" : str,
                                                    JStr "https://upload.example/Engine.png");
                                                   ("extmetadata" : str,
                                                    JObj [("LicenseShortName" : str,
                                                           JObj [("value" : str, JStr "CC BY 4.0")]);
                                                          ("Artist" : str,
                                                           JObj [("value" : str,
                                                                  JStr "<a href='//commons.wikimedia.org/wiki/User:Ada'>Ada Lovelace</a>")])])]])])])])]))
    | _ => Rejected "offline"
    end).

(** The entry that the lookup of [File:Engine.png] returns there. *)
Definition engine_png : Image :=
  {| url := JStr "https://upload.example/Engine.png"; altText := "Engine.png";
     title := "Engine.png"; license := "CC BY 4.0"; attribution := "Ada Lovelace";
     base64 := None |}.

End Credits.

(** * Theorems *)

Arguments list_ascii_of_string : simpl never.
Arguments JS.endsWith : simpl never.
Arguments JS.toLowerCase : simpl never.
Arguments JS.trim : simpl never.
Arguments JS.replace : simpl never.
Arguments JS.includes : simpl never.
Arguments JS.split : simpl never.
Arguments JS.parseInt10 : simpl never.
Arguments JS.ws_runs_to_underscore : simpl never.
Arguments JS.strip_extension : simpl never.
Arguments JS.exec_all : simpl never.
Arguments ImageProcessor.estimateBase64Size : simpl never.

(** ** The string primitives meet their descriptions *)

Section Strings.

Implicit Types (s p t : str) (c sep : ascii).

Lemma ascii_eqb_eq c d : (c =? d)%char = true ↔ c = d.
Proof. apply Ascii.eqb_eq. Qed.

Lemma startsWith_prefix s p : JS.startsWith s p = true ↔ p `prefix_of` s.
Proof.
  revert s. induction p as [|a p IH]; intros s; simpl.
  { split; [intros _; apply prefix_nil|done]. }
  destruct s as [|b s].
  { split; [done|]. intros Hpre. by apply prefix_nil_inv in Hpre. }
  rewrite andb_true_iff, ascii_eqb_eq, IH. split.
  - intros [<- Hpre]. by apply prefix_cons.
  - intros Hpre. split.
    + by apply prefix_cons_inv_1 in Hpre.
    + by apply prefix_cons_inv_2 in Hpre.
Qed.

Lemma endsWith_suffix s p : JS.endsWith s p = true ↔ p `suffix_of` s.
Proof.
  unfold JS.endsWith. by rewrite startsWith_prefix, <-suffix_prefix_reverse.
Qed.

Lemma indexOf_Some s p i :
  JS.indexOf s p = Some i →
  i ≤ length s
  ∧ JS.startsWith (drop i s) p = true
  ∧ ∀ j, j < i → JS.startsWith (drop j s) p = false.
Proof.
  revert i. induction s as [|c s IH]; intros i.
  - simpl. destruct (JS.startsWith [] p) eqn:Hp; [|done].
    intros [= <-]. split; [done|]. split; [done|]. lia.
  - unfold JS.indexOf; fold JS.indexOf.
    destruct (JS.startsWith (c :: s) p) eqn:Hp.
    + intros [= <-]. simpl. split; [lia|]. split; [done|]. lia.
    + destruct (JS.indexOf s p) as [k|] eqn:Hk; [|done].
      intros [= <-]. destruct (IH k eq_refl) as (Hlen & Hat & Hbefore).
      simpl. split; [lia|]. split; [done|].
      intros [|j] Hj; [done|]. simpl. apply Hbefore. lia.
Qed.

Lemma indexOf_None s p :
  JS.indexOf s p = None → ∀ j, JS.startsWith (drop j s) p = false.
Proof.
  induction s as [|c s IH].
  - simpl. destruct (JS.startsWith [] p) eqn:Hp; [done|].
    intros _ j. by rewrite drop_nil.
  - unfold JS.indexOf; fold JS.indexOf.
    destruct (JS.startsWith (c :: s) p) eqn:Hp; [done|].
    destruct (JS.indexOf s p) as [k|] eqn:Hk; [done|].
    intros _ [|j]; [done|]. simpl. by apply IH.
Qed.

(** [s.includes(p)] holds exactly when [p] occurs in [s]. *)
Lemma includes_spec s p :
  JS.includes s p = true ↔ ∃ before after, s = before ++ p ++ after.
Proof.
  unfold JS.includes. split.
  - destruct (JS.indexOf s p) as [i|] eqn:Hi; [|done]. intros _.
    apply indexOf_Some in Hi as (_ & Hat & _).
    apply startsWith_prefix in Hat as [after Hat].
    exists (take i s), after. by rewrite <-Hat, take_drop.
  - intros (before & after & ->).
    destruct (JS.indexOf _ p) as [i|] eqn:Hi; [done|].
    pose proof (indexOf_None _ _ Hi (length before)) as Hno.
    rewrite drop_app_length in Hno.
    assert (JS.startsWith (p ++ after) p = true) as Hyes
      by (apply startsWith_prefix; by exists after).
    congruence.
Qed.

(** The first occurrence: [replace] rewrites the text at [indexOf] and
    nowhere else. *)
Lemma replace_first s p r i :
  JS.indexOf s p = Some i →
  s = take i s ++ p ++ drop (i + length p) s
  ∧ JS.replace s p r
      = take i s
        ++ JS.GetSubstitution p (take i s) (drop (i + length p) s) r
        ++ drop (i + length p) s.
Proof.
  intros Hi. unfold JS.replace. rewrite Hi. split; [|done].
  apply indexOf_Some in Hi as (_ & Hat & _).
  apply startsWith_prefix in Hat as [after Hat].
  rewrite <-drop_drop, Hat, drop_app_length.
  by rewrite <-Hat, take_drop.
Qed.

Lemma replace_absent s p r : JS.indexOf s p = None → JS.replace s p r = s.
Proof. intros Hi. unfold JS.replace. by rewrite Hi. Qed.

(** [split] and [join] *)

Lemma split_cons_sep sep s : JS.split sep (sep :: s) = [] :: JS.split sep s.
Proof. unfold JS.split; fold JS.split. by rewrite Ascii.eqb_refl. Qed.

Lemma split_nonempty sep s : JS.split sep s ≠ [].
Proof.
  destruct s as [|c s]; [done|]. unfold JS.split; fold JS.split.
  destruct (c =? sep)%char; [done|]. by destruct (JS.split sep s).
Qed.

Lemma split_cons_other sep c s :
  c ≠ sep →
  ∃ piece pieces, JS.split sep s = piece :: pieces
                  ∧ JS.split sep (c :: s) = (c :: piece) :: pieces.
Proof.
  intros Hc. unfold JS.split at 2; fold JS.split.
  apply Ascii.eqb_neq in Hc as ->.
  destruct (JS.split sep s) as [|piece pieces] eqn:Hs.
  - by apply split_nonempty in Hs.
  - eauto.
Qed.

Lemma split_length sep s : 1 ≤ length (JS.split sep s).
Proof.
  pose proof (split_nonempty sep s). destruct (JS.split sep s); [done|simpl; lia].
Qed.

Lemma split_no_sep sep s : sep ∉ s → JS.split sep s = [s].
Proof.
  induction s as [|c s IH]; [done|]. intros Hnot.
  apply not_elem_of_cons in Hnot as [Hc Hs].
  destruct (split_cons_other sep c s) as (piece & pieces & Hsplit & ->); [done|].
  rewrite IH in Hsplit by done. by simplify_eq.
Qed.

Lemma split_app_sep sep s t :
  sep ∉ s → JS.split sep (s ++ sep :: t) = s :: JS.split sep t.
Proof.
  induction s as [|c s IH]; intros Hnot; simpl.
  { apply split_cons_sep. }
  apply not_elem_of_cons in Hnot as [Hc Hs].
  destruct (split_cons_other sep c (s ++ sep :: t))
    as (piece & pieces & Hsplit & ->); [done|].
  rewrite IH in Hsplit by done. by simplify_eq.
Qed.

Lemma split_pieces sep s : Forall (fun piece => sep ∉ piece) (JS.split sep s).
Proof.
  induction s as [|c s IH].
  { repeat constructor. apply not_elem_of_nil. }
  destruct (decide (c = sep)) as [->|Hc].
  - rewrite split_cons_sep. constructor; [apply not_elem_of_nil|done].
  - destruct (split_cons_other sep c s) as (piece & pieces & Hsplit & ->); [done|].
    rewrite Hsplit in IH. apply Forall_cons in IH as [Hpiece Hpieces].
    constructor; [|done]. by apply not_elem_of_cons.
Qed.

Lemma join_split sep s : JS.join [sep] (JS.split sep s) = s.
Proof.
  induction s as [|c s IH]; [done|].
  destruct (decide (c = sep)) as [->|Hc].
  - rewrite split_cons_sep.
    pose proof (split_nonempty sep s).
    destruct (JS.split sep s) as [|piece pieces] eqn:Hs; [done|].
    simpl in *. by rewrite IH.
  - destruct (split_cons_other sep c s) as (piece & pieces & Hsplit & ->); [done|].
    rewrite Hsplit in IH. destruct pieces; simpl in *; by rewrite IH.
Qed.

End Strings.

(** ** [trim] and [split] *)

Section Trim.

Import Terms.

Implicit Types (s t l r : str).

Lemma trimStart_spec s :
  ∃ l, s = l ++ JS.trimStart s ∧ all_white l
       ∧ match head (JS.trimStart s) with
         | Some c => JS.is_white c = false
         | None => True
         end.
Proof.
  induction s as [|c s (l & Hs & Hl & Hhead)]; simpl.
  { exists []. split; [done|]. split; [constructor|done]. }
  destruct (JS.is_white c) eqn:Hc.
  - exists (c :: l). split; [by rewrite Hs at 1|]. split; [by constructor|done].
  - exists []. split; [done|]. split; [constructor|done].
Qed.

Lemma trimStart_white l s : all_white l → JS.trimStart (l ++ s) = JS.trimStart s.
Proof. induction 1 as [|c l Hc _ IH]; simpl; [done|]. by rewrite Hc. Qed.

Lemma trimStart_all_white l : all_white l → JS.trimStart l = [].
Proof.
  intros Hl. rewrite <-(right_id_L [] (++) l). by rewrite trimStart_white.
Qed.

Lemma trimStart_head s c t :
  JS.is_white c = false → JS.trimStart (c :: t) = c :: t.
Proof. intros Hc. simpl. by rewrite Hc. Qed.

Lemma all_white_reverse l : all_white l → all_white (reverse l).
Proof. unfold all_white. by rewrite Forall_reverse. Qed.

Lemma trimEnd_spec s :
  ∃ r, s = JS.trimEnd s ++ r ∧ all_white r
       ∧ match last (JS.trimEnd s) with
         | Some c => JS.is_white c = false
         | None => True
         end.
Proof.
  unfold JS.trimEnd.
  destruct (trimStart_spec (reverse s)) as (l & Hs & Hl & Hhead).
  exists (reverse l). split.
  - apply (inj reverse). by rewrite reverse_app, !reverse_involutive.
  - split; [by apply all_white_reverse|]. by rewrite last_reverse.
Qed.

Lemma trimEnd_white s r : all_white r → JS.trimEnd (s ++ r) = JS.trimEnd s.
Proof.
  intros Hr. unfold JS.trimEnd. rewrite reverse_app.
  by rewrite trimStart_white by by apply all_white_reverse.
Qed.

Lemma trimEnd_all_white r : all_white r → JS.trimEnd r = [].
Proof.
  intros Hr. unfold JS.trimEnd.
  by rewrite trimStart_all_white by by apply all_white_reverse.
Qed.

Lemma trimEnd_nil : JS.trimEnd [] = [].
Proof. reflexivity. Qed.

(** [trim] takes white space off both ends and leaves none there. *)
Lemma trim_spec s :
  ∃ l r, s = l ++ JS.trim s ++ r ∧ all_white l ∧ all_white r
         ∧ no_outer_space (JS.trim s).
Proof.
  unfold JS.trim.
  destruct (trimStart_spec s) as (l & Hs & Hl & Hhead).
  destruct (trimEnd_spec (JS.trimStart s)) as (r & Ht & Hr & Hlast).
  exists l, r. split; [by rewrite <-Ht|]. split; [done|]. split; [done|].
  split; [|done].
  destruct (JS.trimEnd (JS.trimStart s)) as [|c t] eqn:Hend; [done|].
  rewrite Ht in Hhead. done.
Qed.

Lemma trim_white_l l s : all_white l → JS.trim (l ++ s) = JS.trim s.
Proof. intros Hl. unfold JS.trim. by rewrite trimStart_white. Qed.

Lemma trim_white_r s r : all_white r → JS.trim (s ++ r) = JS.trim s.
Proof.
  intros Hr. unfold JS.trim.
  destruct (trimStart_spec s) as (l & Hs & Hl & Hhead).
  destruct (JS.trimStart s) as [|c t] eqn:Hstart.
  - rewrite (right_id_L [] (++)) in Hs. subst l.
    rewrite trimStart_all_white; [done|].
    apply Forall_app. done.
  - rewrite Hs at 1. rewrite <-(assoc_L (++)), trimStart_white by done.
    change ((c :: t) ++ r) with (c :: (t ++ r)).
    rewrite trimStart_head by done.
    change (c :: (t ++ r)) with ((c :: t) ++ r). by apply trimEnd_white.
Qed.

Lemma trim_idempotent s : JS.trim (JS.trim s) = JS.trim s.
Proof.
  destruct (trim_spec s) as (l & r & Hs & Hl & Hr & _).
  rewrite Hs at 2. by rewrite trim_white_l, trim_white_r.
Qed.

Lemma white_not_comma c : JS.is_white c = true → c ≠ ","%char.
Proof. intros Hc ->. vm_compute in Hc. discriminate. Qed.

Lemma all_white_no_comma l : all_white l → ","%char ∉ l.
Proof.
  induction 1 as [|c l Hc _ IH]; [apply not_elem_of_nil|].
  apply not_elem_of_cons. split; [|done].
  intros Heq. by apply (white_not_comma c).
Qed.

Lemma split_app_l sep l s :
  sep ∉ l →
  ∃ piece pieces, JS.split sep s = piece :: pieces
                  ∧ JS.split sep (l ++ s) = (l ++ piece) :: pieces.
Proof.
  induction l as [|c l IH]; intros Hl.
  { pose proof (split_nonempty sep s).
    destruct (JS.split sep s) as [|piece pieces] eqn:Hs; [done|]. eauto. }
  apply not_elem_of_cons in Hl as [Hc Hl].
  destruct (IH Hl) as (piece & pieces & Hs & Hls).
  destruct (split_cons_other sep c (l ++ s)) as (piece' & pieces' & Hls' & Hcls);
    [done|].
  rewrite Hls in Hls'. injection Hls' as <- <-. exists piece, pieces.
  split; [done|]. exact Hcls.
Qed.

Lemma split_app_r sep s r :
  sep ∉ r →
  ∃ pieces piece, JS.split sep s = pieces ++ [piece]
                  ∧ JS.split sep (s ++ r) = pieces ++ [piece ++ r].
Proof.
  intros Hr. induction s as [|c s (pieces & piece & Hs & Hsr)].
  { exists [], []. split; [done|]. simpl. by apply split_no_sep. }
  destruct (decide (c = sep)) as [->|Hc].
  - exists ([] :: pieces), piece.
    change ((sep :: s) ++ r) with (sep :: (s ++ r)).
    by rewrite !split_cons_sep, Hs, Hsr.
  - destruct (split_cons_other sep c s Hc) as (p1 & ps1 & Hs1 & ->).
    change ((c :: s) ++ r) with (c :: (s ++ r)).
    destruct (split_cons_other sep c (s ++ r) Hc) as (p2 & ps2 & Hs2 & ->).
    rewrite Hs in Hs1. rewrite Hsr in Hs2.
    destruct pieces as [|p pieces]; simpl in Hs1, Hs2;
      injection Hs1 as <- <-; injection Hs2 as <- <-.
    + by exists [], (c :: piece).
    + by exists ((c :: p) :: pieces), piece.
Qed.

(** Trimming the reply before it is split changes no term. *)
Lemma trim_before_split (reply : str) :
  map JS.trim (JS.split "," (JS.trim reply)) = map JS.trim (JS.split "," reply).
Proof.
  destruct (trim_spec reply) as (l & r & Hreply & Hl & Hr & _).
  rewrite Hreply at 2.
  destruct (split_app_l ","%char l (JS.trim reply ++ r))
    as (piece & pieces & Hsplit & ->); [by apply all_white_no_comma|].
  destruct (split_app_r ","%char (JS.trim reply) r)
    as (pieces' & piece' & Hsplit' & Hsplit''); [by apply all_white_no_comma|].
  rewrite Hsplit'' in Hsplit. rewrite Hsplit'.
  destruct pieces' as [|p pieces']; simpl in Hsplit; injection Hsplit as <- <-; simpl.
  - by rewrite trim_white_l, trim_white_r.
  - rewrite trim_white_l by done. f_equal.
    rewrite !map_app. simpl. by rewrite trim_white_r.
Qed.

End Trim.

(** ** The admission pipeline *)

Section AdmissionPipeline.

Import ImageProcessor AppController Admission.

Context (cfg : Config) (P : Platform).

#[local] Abbreviation probe_passed := (Admission.probe_passed cfg).
#[local] Abbreviation iteration := (Admission.iteration cfg).
#[local] Abbreviation Step := (Admission.Step cfg P).
#[local] Abbreviation AcceptedAs := (Admission.AcceptedAs cfg P).

Lemma checkImageSize_run (u : str) (tr : Trace) :
  ∃ within, checkImageSize cfg u P tr = (Ok within, tr ++ [HttpHead u])
            ∧ (within = true ↔ probe_passed (net P tr (HttpHead u))).
Proof.
  unfold checkImageSize, try_catch, bind, fetch, probe_passed.
  destruct (net P tr (HttpHead u)) as [msg|response]; simpl.
  { eexists; split; [reflexivity|]. split; [done|]. intros (? & ? & _); done. }
  destruct (ok response) eqn:Hok; simpl.
  2:{ eexists; split; [reflexivity|]. split; [done|].
      intros (? & [= <-] & ? & _); congruence. }
  destruct (contentLength response) as [header|] eqn:Hcl; simpl.
  2:{ eexists; split; [reflexivity|]. split; [|done]. intros _. eauto 6. }
  case_bool_decide as Hempty; simpl.
  { subst. eexists; split; [reflexivity|]. split; [|done]. intros _. eauto 6. }
  destruct (JS.parseInt10 header) as [sizeInBytes|] eqn:Hparse; simpl.
  - eexists; split; [reflexivity|]. rewrite Z.leb_le. split.
    + intros Hle. eexists; split; [reflexivity|]. split; [done|].
      right; right. eauto.
    + intros (? & [= <-] & _ & [?|[?|(? & ? & ? & ? & ?)]]); simplify_eq; done.
  - eexists; split; [reflexivity|]. split; [done|].
    intros (? & [= <-] & _ & [?|[?|(? & ? & ? & ? & ?)]]); simplify_eq.
Qed.

Lemma svgToPng_trace (u : str) (tr : Trace) :
  snd (svgToPng u P tr) = tr ++ [LoadImage u].
Proof.
  unfold svgToPng, try_catch, bind, fetch.
  destruct (net P tr (LoadImage u)) as [msg|response]; simpl; [done|].
  by destruct (dataUrl response).
Qed.

Lemma getImageBase64_trace (u : str) (tr : Trace) :
  snd (getImageBase64 u P tr) = tr ++ [HttpGet u].
Proof.
  unfold getImageBase64, try_catch, bind, fetch.
  destruct (net P tr (HttpGet u)) as [msg|response]; simpl; [done|].
  destruct (ok response); simpl; [|done]. by destruct (dataUrl response).
Qed.

Lemma iteration_not_string (img : Image) processed total tr :
  (∀ u, url img ≠ JStr u) →
  iteration img processed total P tr = (Ok (processed, total), tr).
Proof.
  intros Hu. unfold iteration, try_catch, loop_body, bind, lift.
  destruct (url img); simpl; try done. by destruct (Hu s).
Qed.

Lemma iteration_gif (img : Image) (u : str) processed total tr :
  url img = JStr u →
  JS.endsWith (JS.toLowerCase u) ".gif" = true →
  iteration img processed total P tr = (Ok (processed, total), tr).
Proof.
  intros Hu Hgif. unfold iteration, try_catch, loop_body, bind, lift.
  rewrite Hu. simpl. by rewrite Hgif.
Qed.

Lemma iteration_probe_failed (img : Image) (u : str) processed total tr :
  url img = JStr u →
  JS.endsWith (JS.toLowerCase u) ".gif" = false →
  ¬ probe_passed (net P tr (HttpHead u)) →
  iteration img processed total P tr = (Ok (processed, total), tr ++ [HttpHead u]).
Proof.
  intros Hu Hgif Hprobe. unfold iteration, try_catch, loop_body, bind, lift.
  rewrite Hu. simpl. rewrite Hgif.
  destruct (checkImageSize_run u tr) as (within & -> & Hwithin).
  destruct within; simpl; [|done]. destruct Hprobe. by apply Hwithin.
Qed.

Lemma iteration_download_failed (img : Image) (u : str) processed total tr e tr' :
  url img = JStr u →
  JS.endsWith (JS.toLowerCase u) ".gif" = false →
  probe_passed (net P tr (HttpHead u)) →
  fetch_payload u P (tr ++ [HttpHead u]) = (Throw e, tr') →
  iteration img processed total P tr = (Ok (processed, total), tr').
Proof.
  intros Hu Hgif Hprobe Hfetch. unfold iteration, try_catch, loop_body, bind, lift.
  rewrite Hu. simpl. rewrite Hgif.
  destruct (checkImageSize_run u tr) as (within & -> & Hwithin).
  apply Hwithin in Hprobe as ->. simpl.
  unfold fetch_payload in Hfetch.
  destruct (JS.endsWith u ".svg"); rewrite Hfetch; done.
Qed.

(** Steps 6 and 7: the decision on the payload that was downloaded. *)
Lemma iteration_downloaded (img : Image) (u b : str) processed total tr tr' :
  url img = JStr u →
  JS.endsWith (JS.toLowerCase u) ".gif" = false →
  probe_passed (net P tr (HttpHead u)) →
  fetch_payload u P (tr ++ [HttpHead u]) = (Ok b, tr') →
  iteration img processed total P tr =
    (Ok (if (total + estimateBase64Size b >? MAX_PAYLOAD_SIZE cfg)%Z
         then (processed, total)
         else (processed ++ [admitted_image u img b],
               (total + estimateBase64Size b)%Z)), tr').
Proof.
  intros Hu Hgif Hprobe Hfetch. unfold iteration, try_catch, loop_body, bind, lift.
  rewrite Hu. simpl. rewrite Hgif.
  destruct (checkImageSize_run u tr) as (within & -> & Hwithin).
  apply Hwithin in Hprobe as ->. simpl.
  unfold fetch_payload in Hfetch. unfold admitted_image, new_title.
  destruct (JS.endsWith u ".svg"); rewrite Hfetch; simpl;
    by destruct (_ >? _)%Z.
Qed.

Lemma fetch_payload_trace (u : str) (tr : Trace) :
  ∃ req, snd (fetch_payload u P tr) = tr ++ [req].
Proof.
  unfold fetch_payload. destruct (JS.endsWith u ".svg").
  - eexists. apply svgToPng_trace.
  - eexists. apply getImageBase64_trace.
Qed.

(** Every iteration ends normally, in a state that [Step] allows. *)
Lemma iteration_step (img : Image) processed total tr :
  ∃ state tr', iteration img processed total P tr = (Ok state, tr')
    ∧ Step img processed total tr state tr'.
Proof.
  destruct (url img) as [| | | |u| |] eqn:Hu;
    try (eexists _, _; split;
         [apply iteration_not_string; intros ?; congruence|by constructor]).
  destruct (JS.endsWith (JS.toLowerCase u) ".gif") eqn:Hgif.
  { eexists _, _. split; [by eapply iteration_gif|by constructor]. }
  destruct (checkImageSize_run u tr) as (within & _ & Hwithin).
  destruct within.
  2:{ eexists _, _. split.
      - eapply iteration_probe_failed; [done..|]. intros ?%Hwithin. done.
      - constructor. by apply prefix_app_r. }
  assert (probe_passed (net P tr (HttpHead u))) as Hprobe by by apply Hwithin.
  destruct (fetch_payload_trace u (tr ++ [HttpHead u])) as [req Htr].
  destruct (fetch_payload u P (tr ++ [HttpHead u])) as [[b|e] tr'] eqn:Hfetch;
    simpl in Htr; subst tr'.
  - eexists _, _. split; [by eapply iteration_downloaded|].
    destruct (_ >? _)%Z eqn:Hcmp.
    + constructor. rewrite <-(assoc_L (++)); by apply prefix_app_r.
    + econstructor; [done..| |lia]. by apply prefix_app_r.
  - eexists _, _. split; [by eapply iteration_download_failed|].
    constructor. rewrite <-(assoc_L (++)); by apply prefix_app_r.
Qed.

Lemma Step_prefix img processed total tr state tr' :
  Step img processed total tr state tr' → tr `prefix_of` tr'.
Proof.
  destruct 1 as [|u b tr' _ _ _ Hpre _]; [done|].
  etrans; [|exact Hpre]. by apply prefix_app_r.
Qed.

Lemma payload_sum_app (l1 l2 : list Image) :
  payload_sum (l1 ++ l2) = (payload_sum l1 + payload_sum l2)%Z.
Proof. induction l1 as [|img l1 IH]; simpl; [done|]. rewrite IH. lia. Qed.

Lemma estimateBase64Size_nonneg (b : str) : (0 <= estimateBase64Size b)%Z.
Proof.
  unfold estimateBase64Size, ceil_quarter. apply Z.div_pos; lia.
Qed.

Lemma payload_sum_nonneg (l : list Image) : (0 <= payload_sum l)%Z.
Proof.
  induction l as [|img l IH]; simpl; [done|].
  destruct (base64 img) as [b|]; [pose proof (estimateBase64Size_nonneg b)|]; lia.
Qed.

Lemma AcceptedAs_weaken total1 total2 tr1 tr2 tr1' tr2' d p :
  AcceptedAs total1 tr1 tr1' d p →
  ((0 <= total2)%Z → (0 <= total1)%Z) →
  tr2 `prefix_of` tr1 → tr1' `prefix_of` tr2' →
  AcceptedAs total2 tr2 tr2' d p.
Proof.
  intros (u & b & tr0 & ? & ? & ? & ? & ? & ? & ?) Htot Hpre Hpost.
  exists u, b, tr0. repeat split; try done; [by etrans|by etrans|auto].
Qed.

(** The loop from any state: it ends normally; it appends to
    [processedImages]; the accumulator grows by the estimates of what was
    appended and stays within the budget if it started there; the
    appended entries are, in order, admitted details of the input. *)
Lemma admission_loop_run (imageDetails : list Image) :
  ∀ processed total tr,
  ∃ added total' tr',
    admission_loop cfg imageDetails processed total P tr
      = (Ok (processed ++ added, total'), tr')
    ∧ total' = (total + payload_sum added)%Z
    ∧ ((total <= MAX_PAYLOAD_SIZE cfg)%Z → (total' <= MAX_PAYLOAD_SIZE cfg)%Z)
    ∧ tr `prefix_of` tr'
    ∧ ∃ kept, kept `sublist_of` imageDetails
              ∧ Forall2 (AcceptedAs total tr tr') kept added.
Proof.
  induction imageDetails as [|img rest IH]; intros processed total tr.
  { exists [], total, tr. simpl. rewrite (right_id_L [] (++)).
    split; [done|]. split; [lia|]. split; [done|]. split; [done|].
    exists []. split; constructor. }
  destruct (iteration_step img processed total tr) as (state & tr1 & Hrun & Hstep).
  change (admission_loop cfg (img :: rest) processed total P tr)
    with (bind (iteration img processed total)
               (fun state => admission_loop cfg rest (fst state) (snd state)) P tr).
  unfold bind at 1. rewrite Hrun.
  pose proof (Step_prefix _ _ _ _ _ _ Hstep) as Hpre.
  inversion Hstep as [tr1' Htr|u b tr1' Hu Hgif Hprobe Htr Hfit]; subst; simpl.
  - destruct (IH processed total tr1)
      as (added & total' & tr' & -> & -> & Hinv & Hpre' & kept & Hsub & Hall).
    exists added, (total + payload_sum added)%Z, tr'.
    split; [done|]. split; [done|]. split; [done|]. split; [by etrans|].
    exists kept. split; [by constructor|].
    eapply Forall2_impl; [exact Hall|]. intros d p Had.
    eapply AcceptedAs_weaken; eauto.
  - set (p := admitted_image u img b).
    destruct (IH (processed ++ [p]) (total + estimateBase64Size b)%Z tr1)
      as (added & total' & tr' & -> & -> & Hinv & Hpre' & kept & Hsub & Hall).
    exists (p :: added), (total + estimateBase64Size b + payload_sum added)%Z, tr'.
    rewrite <-(assoc_L (++)). simpl.
    split; [done|]. split; [lia|]. split; [intros; apply Hinv; lia|].
    split; [by etrans|].
    exists (img :: kept). split; [by constructor|].
    constructor.
    + exists u, b, tr. repeat split; try done; [by etrans|].
      intros. pose proof (estimateBase64Size_nonneg b). lia.
    + eapply Forall2_impl; [exact Hall|]. intros d q Had.
      eapply AcceptedAs_weaken; eauto.
      intros. pose proof (estimateBase64Size_nonneg b). lia.
Qed.

(** The state after any number of iterations is the state from which
    the remaining iterations run. *)
Lemma admission_loop_app (done rest : list Image) :
  ∀ processed total tr,
  admission_loop cfg (done ++ rest) processed total P tr =
    match admission_loop cfg done processed total P tr with
    | (Ok state, tr') => admission_loop cfg rest (fst state) (snd state) P tr'
    | (Throw e, tr') => (Throw e, tr')
    end.
Proof.
  induction done as [|img done IH]; intros processed total tr; [done|].
  simpl. unfold bind.
  destruct (try_catch _ _ P tr) as [[state|e] tr1]; [apply IH|done].
Qed.

Lemma processImages_run (imageDetails : list Image) (tr : Trace) :
  ∃ admitted total tr',
    admission_loop cfg imageDetails [] 0%Z P tr = (Ok (admitted, total), tr')
    ∧ processImages cfg imageDetails P tr
        = (Ok (take (MAX_IMAGES cfg) admitted), tr')
    ∧ total = payload_sum admitted
    ∧ tr `prefix_of` tr'
    ∧ ∃ kept, kept `sublist_of` imageDetails
              ∧ Forall2 (AcceptedAs 0%Z tr tr') kept admitted.
Proof.
  destruct (admission_loop_run imageDetails [] 0%Z tr)
    as (admitted & total & tr' & Hrun & -> & _ & Hpre & Hkept).
  simpl in Hrun. exists admitted, (0 + payload_sum admitted)%Z, tr'.
  split; [done|]. split; [|split; [lia|done]].
  unfold processImages, bind. rewrite Hrun. simpl. unfold ret. f_equal. f_equal.
  destruct (_ <? _)%nat eqn:Hlen; [done|].
  apply Nat.ltb_ge in Hlen. by rewrite take_ge.
Qed.

Lemma AcceptedAs_elem (total : Z) (tr tr' : Trace) (kept admitted : list Image) p :
  Forall2 (AcceptedAs total tr tr') kept admitted → p ∈ admitted →
  ∃ d, d ∈ kept ∧ AcceptedAs total tr tr' d p.
Proof.
  induction 1 as [|d q kept admitted Hdq _ IH]; intros Hp.
  - by apply elem_of_nil in Hp.
  - apply elem_of_cons in Hp as [->|Hp].
    + exists d. split; [left|done].
    + destruct (IH Hp) as (d' & ? & ?). exists d'. split; [by right|done].
Qed.

(** C1: in the sequential pass of [processImages] the accumulator
    [totalPayloadSize] is, after any number of iterations and at the end,
    the sum of the estimates of the images admitted so far and at most
    [MAX_PAYLOAD_SIZE]; an image whose estimate would take the
    accumulator over the budget leaves [processedImages] and the
    accumulator as they are, and the loop goes on with the images that
    follow it, in their order. *)
Theorem C1_budget_never_exceeded (imageDetails : list Image) (tr : Trace) :
  (0 <= MAX_PAYLOAD_SIZE cfg)%Z →
  (∀ done rest, imageDetails = done ++ rest →
     ∃ processed total tr1,
       admission_loop cfg done [] 0%Z P tr = (Ok (processed, total), tr1)
       ∧ total = payload_sum processed
       ∧ (0 <= total <= MAX_PAYLOAD_SIZE cfg)%Z
       ∧ admission_loop cfg imageDetails [] 0%Z P tr
           = admission_loop cfg rest processed total P tr1)
  ∧ (∀ img rest processed total tr0 (u b : str) tr1,
       url img = JStr u →
       JS.endsWith (JS.toLowerCase u) ".gif" = false →
       probe_passed (net P tr0 (HttpHead u)) →
       fetch_payload u P (tr0 ++ [HttpHead u]) = (Ok b, tr1) →
       (total + estimateBase64Size b > MAX_PAYLOAD_SIZE cfg)%Z →
       admission_loop cfg (img :: rest) processed total P tr0
         = admission_loop cfg rest processed total P tr1).
Proof.
  intros Hmax. split.
  - intros done rest ->.
    destruct (admission_loop_run done [] 0%Z tr)
      as (processed & total & tr1 & Hrun & -> & Hinv & _ & _).
    simpl in Hrun. exists processed, (0 + payload_sum processed)%Z, tr1.
    split; [done|]. split; [lia|]. split.
    + pose proof (payload_sum_nonneg processed). specialize (Hinv Hmax). lia.
    + by rewrite admission_loop_app, Hrun.
  - intros img rest processed total tr0 u b tr1 Hu Hgif Hprobe Hfetch Hover.
    change (admission_loop cfg (img :: rest) processed total P tr0)
      with (bind (iteration img processed total)
                 (fun state => admission_loop cfg rest (fst state) (snd state)) P tr0).
    unfold bind at 1.
    rewrite (iteration_downloaded img u b processed total tr0 tr1) by done.
    destruct (_ >? _)%Z eqn:Hcmp; [done|]. lia.
Qed.

(** C2: the sequence returned by [processImages] has at most
    [MAX_IMAGES] entries; it is the prefix of that length of the sequence
    of the admitted images, which are entries of the input in the order
    of the input. *)
Theorem C2_count_and_order (imageDetails : list Image) (tr : Trace) :
  ∃ admitted total result tr',
    admission_loop cfg imageDetails [] 0%Z P tr = (Ok (admitted, total), tr')
    ∧ processImages cfg imageDetails P tr = (Ok result, tr')
    ∧ length result ≤ MAX_IMAGES cfg
    ∧ result = take (MAX_IMAGES cfg) admitted
    ∧ result `prefix_of` admitted
    ∧ ∃ kept, kept `sublist_of` imageDetails
              ∧ Forall2 (fun d p => ∃ u b, url d = JStr u ∧ p = admitted_image u d b)
                        kept admitted.
Proof.
  destruct (processImages_run imageDetails tr)
    as (admitted & total & tr' & Hloop & Hrun & _ & _ & kept & Hsub & Hall).
  exists admitted, total, (take (MAX_IMAGES cfg) admitted), tr'.
  split; [done|]. split; [done|]. split; [rewrite length_take; lia|].
  split; [done|]. split; [apply prefix_take|].
  exists kept. split; [done|].
  eapply Forall2_impl; [exact Hall|].
  intros d p (u & b & _ & ? & ? & _). eauto.
Qed.

(** Every entry of the result went through a probe that passed and
    carries its payload. *)
Lemma processImages_probed (imageDetails : list Image) (tr : Trace) :
  ∃ result tr',
    processImages cfg imageDetails P tr = (Ok result, tr')
    ∧ ∀ p, p ∈ result →
        ∃ (u b : str) (tr0 : Trace),
          tr `prefix_of` tr0 ∧ url p = JStr u ∧ base64 p = Some b
          ∧ probe_passed (net P tr0 (HttpHead u))
          ∧ (tr0 ++ [HttpHead u]) `prefix_of` tr'
          ∧ (estimateBase64Size b <= MAX_PAYLOAD_SIZE cfg)%Z.
Proof.
  destruct (processImages_run imageDetails tr)
    as (admitted & total & tr' & _ & Hrun & _ & _ & kept & _ & Hall).
  exists (take (MAX_IMAGES cfg) admitted), tr'. split; [done|].
  intros p Hp.
  assert (p ∈ admitted) as Hin
    by (eapply elem_of_sublist; [exact Hp|apply sublist_take]).
  destruct (AcceptedAs_elem _ _ _ _ _ _ Hall Hin)
    as (d & _ & u & b & tr0 & Hu & -> & _ & Hprobe & ? & ? & Hfit).
  exists u, b, tr0. repeat split; try done. by apply Hfit.
Qed.

(** C3, as amended: every image in the result of [processImages] went
    through a size probe that passed (a successful reply, and no usable
    [Content-Length] or one of at most [MAX_IMAGE_BYTES]), issued in
    this pass for its URL; its estimate is at most the total budget. *)
Theorem C3_probe_ceiling (imageDetails : list Image) (tr : Trace) :
  ∃ result tr',
    processImages cfg imageDetails P tr = (Ok result, tr')
    ∧ ∀ p, p ∈ result →
        ∃ (u b : str) (tr0 : Trace),
          url p = JStr u ∧ base64 p = Some b
          ∧ probe_passed (net P tr0 (HttpHead u))
          ∧ tr `prefix_of` tr0 ∧ (tr0 ++ [HttpHead u]) `prefix_of` tr'
          ∧ (estimateBase64Size b <= MAX_PAYLOAD_SIZE cfg)%Z.
Proof.
  destruct (processImages_probed imageDetails tr) as (result & tr' & Hrun & Hall).
  exists result, tr'. split; [done|]. intros p Hp.
  destruct (Hall p Hp) as (u & b & tr0 & ? & ? & ? & ? & ? & ?).
  by exists u, b, tr0.
Qed.

(** C4: an image whose URL ends, whatever the case of its letters, in
    [.gif] is passed over without a request, and no entry of the result
    of [processImages] has such a URL. *)
Theorem C4_no_gif_admitted (imageDetails : list Image) (tr : Trace) :
  (∀ img (u : str) rest processed total tr0,
     url img = JStr u →
     JS.endsWith (JS.toLowerCase u) ".gif" = true →
     admission_loop cfg (img :: rest) processed total P tr0
       = admission_loop cfg rest processed total P tr0)
  ∧ ∃ result tr',
      processImages cfg imageDetails P tr = (Ok result, tr')
      ∧ ∀ p, p ∈ result →
          ∃ u : str, url p = JStr u
                     ∧ JS.endsWith (JS.toLowerCase u) ".gif" = false.
Proof.
  split.
  - intros img u rest processed total tr0 Hu Hgif.
    change (admission_loop cfg (img :: rest) processed total P tr0)
      with (bind (iteration img processed total)
                 (fun state => admission_loop cfg rest (fst state) (snd state)) P tr0).
    unfold bind at 1. by rewrite (iteration_gif img u).
  - destruct (processImages_run imageDetails tr)
      as (admitted & total & tr' & _ & Hrun & _ & _ & kept & _ & Hall).
    exists (take (MAX_IMAGES cfg) admitted), tr'. split; [done|].
    intros p Hp.
    assert (p ∈ admitted) as Hin
      by (eapply elem_of_sublist; [exact Hp|apply sublist_take]).
    destruct (AcceptedAs_elem _ _ _ _ _ _ Hall Hin)
      as (d & _ & u & b & tr0 & Hu & -> & Hgif & _).
    exists u. split; done.
Qed.

End AdmissionPipeline.

(** ** The admission pipeline on concrete inputs *)

Section AdmissionExamples.

Import ImageProcessor AppController Admission Scenario.

(** Greedy in order: with a budget of ten bytes the first image (six
    bytes) is admitted, the second (six bytes) is passed over and the
    third (three bytes) still fits. *)
Example greedy_in_order :
  fst (processImages tiny_budget [first_png; second_png; small_png] gallery [])
  = Ok [admitted_image "https://upload.example/first.png" first_png
          "data:image/png;base64,AAAAAAAA";
        admitted_image "https://upload.example/small.png" small_png
          "data:image/png;base64,AAAA"].
Proof. vm_compute. reflexivity. Qed.

Lemma gallery_probe (tr : Trace) (u : str) :
  probe_passed tiny_budget (net gallery tr (HttpHead u)).
Proof. exists reply. split; [done|]. split; [done|]. by left. Qed.

(** With a budget of ten bytes: after the first two images the
    accumulator is within the budget, and the second image, which does
    not fit, is passed over. *)
Lemma C1_budget_never_exceeded_witness :
  (0 <= MAX_PAYLOAD_SIZE tiny_budget)%Z
  ∧ (∃ processed total tr1,
       admission_loop tiny_budget [first_png; second_png] [] 0%Z gallery []
         = (Ok (processed, total), tr1)
       ∧ total = payload_sum processed
       ∧ (0 <= total <= MAX_PAYLOAD_SIZE tiny_budget)%Z
       ∧ admission_loop tiny_budget [first_png; second_png; small_png] [] 0%Z gallery []
           = admission_loop tiny_budget [small_png] processed total gallery tr1)
  ∧ admission_loop tiny_budget [second_png; small_png] [] 6%Z gallery []
      = admission_loop tiny_budget [small_png] [] 6%Z gallery
          [HttpHead "https://upload.example/second.png";
           HttpGet "https://upload.example/second.png"].
Proof.
  assert (0 <= MAX_PAYLOAD_SIZE tiny_budget)%Z as Hmax by (vm_compute; discriminate).
  split; [exact Hmax|].
  destruct (C1_budget_never_exceeded tiny_budget gallery
              [first_png; second_png; small_png] [] Hmax) as [Hprefix Hskip].
  split.
  - apply (Hprefix [first_png; second_png] [small_png]). reflexivity.
  - apply (Hskip second_png [small_png] [] 6%Z []
             "https://upload.example/second.png"
             "data:image/png;base64,AAAAAAAA").
    + reflexivity.
    + vm_compute. reflexivity.
    + apply gallery_probe.
    + vm_compute. reflexivity.
    + vm_compute. reflexivity.
Defined.

(** An animation at the head of the input is passed over without a
    request. *)
Lemma C4_no_gif_admitted_witness :
  admission_loop app_config [anim_gif; first_png] [] 0%Z gallery []
  = admission_loop app_config [first_png] [] 0%Z gallery [].
Proof.
  apply (proj1 (C4_no_gif_admitted app_config gallery [] [])
           anim_gif "https://upload.example/Anim.GIF").
  - reflexivity.
  - vm_compute. reflexivity.
Defined.

(** The estimate of a data URL whose payload has no comma. *)
Lemma estimate_dataUrl (n : nat) :
  0 < n →
  estimateBase64Size ("data:image/jpeg;base64" ++ ","%char :: replicate n "A"%char)
  = ceil_quarter (Z.of_nat n * 3).
Proof.
  intros Hn. unfold estimateBase64Size.
  assert (","%char ∉ ("data:image/jpeg;base64" : str)) as Hprefix.
  { intros Hin%list_elem_of_In. vm_compute in Hin. intuition discriminate. }
  assert (","%char ∉ replicate n "A"%char) as Hpayload.
  { intros [Heq _]%elem_of_replicate. discriminate. }
  rewrite (split_app_sep _ _ _ Hprefix), (split_no_sep _ _ Hpayload).
  case_bool_decide as Hempty.
  { apply (f_equal length) in Hempty. rewrite length_replicate in Hempty.
    simpl in Hempty. lia. }
  by rewrite length_replicate.
Qed.

Lemma estimate_large_payload : estimateBase64Size large_payload = 1048578%Z.
Proof.
  unfold large_payload. rewrite estimate_dataUrl by lia.
  rewrite Z2Nat.id by lia. vm_compute. reflexivity.
Qed.

#[local] Opaque large_payload.

(** C3, as stated, fails: the host sends no [Content-Length], the probe
    lets the image through, and its estimate of 1048578 bytes is above
    the ceiling of 1048576 bytes. *)
Lemma C3_counterexample :
  ∃ result tr' p b,
    processImages app_config [large_jpg] large_host [] = (Ok result, tr')
    ∧ p ∈ result
    ∧ base64 p = Some b
    ∧ (MAX_IMAGE_BYTES app_config < estimateBase64Size b)%Z.
Proof.
  set (u := "https://upload.wikimedia.org/wikipedia/commons/1/12/Large_photo.jpg" : str).
  assert (iteration app_config large_jpg [] 0%Z large_host []
          = (Ok ([admitted_image u large_jpg large_payload], 1048578%Z),
             [HttpHead u; HttpGet u])) as Hiter.
  { rewrite (iteration_downloaded app_config large_host large_jpg u large_payload
               [] 0%Z [] [HttpHead u; HttpGet u]).
    - rewrite estimate_large_payload.
      assert ((0 + 1048578 >? MAX_PAYLOAD_SIZE app_config)%Z = false) as ->
        by (vm_compute; reflexivity).
      reflexivity.
    - reflexivity.
    - vm_compute. reflexivity.
    - exists reply. split; [done|]. split; [done|]. by left.
    - unfold fetch_payload.
      assert (JS.endsWith u ".svg" = false) as -> by (vm_compute; reflexivity).
      reflexivity. }
  exists [admitted_image u large_jpg large_payload], [HttpHead u; HttpGet u],
         (admitted_image u large_jpg large_payload), large_payload.
  split.
  - unfold processImages, bind.
    change (admission_loop app_config [large_jpg] [] 0%Z large_host [])
      with (bind (iteration app_config large_jpg [] 0%Z)
                 (fun state => ret (fst state, snd state)) large_host []).
    unfold bind. rewrite Hiter. reflexivity.
  - split; [by left|]. split; [reflexivity|].
    rewrite estimate_large_payload. vm_compute. reflexivity.
Qed.

End AdmissionExamples.

(** ** The model calls *)

Section ModelInvoker.

Import GeminiAPI Invoker.

Lemma relay_fails_on_rejection {A} (decode : JsValue → Result A) (msg : str) :
  relay_result decode (Rejected msg) = None.
Proof. reflexivity. Qed.

Lemma relay_fails_on_status {A} (decode : JsValue → Result A) (response : Response) :
  ok response = false → relay_result decode (Settled response) = None.
Proof. intros Hok. simpl. by rewrite Hok. Qed.

Lemma missing_true (apiKey : str) : missing apiKey = true ↔ apiKey = [].
Proof. unfold missing. by rewrite bool_decide_eq_true. Qed.

Lemma missing_false (apiKey : str) : missing apiKey = false ↔ apiKey ≠ [].
Proof. unfold missing. by rewrite bool_decide_eq_false. Qed.

(** Case analysis on what the network answers, in the order in which
    the call reads it. *)
Ltac run_call :=
  repeat (cbv beta iota zeta delta [negb];
          match goal with
          | H : ?x = _ |- context [match ?x with _ => _ end] => rewrite H
          | H : ?x = _ |- context [if ?x then _ else _] => rewrite H
          | |- context [match net ?P ?tr ?req with _ => _ end] =>
              destruct (net P tr req) as [?|?] eqn:?
          | |- context [if ok ?r then _ else _] => destruct (ok r) eqn:?
          | |- context [match json ?r with _ => _ end] => destruct (json r) eqn:?
          | |- context [match ?d ?v with Ok _ => _ | Throw _ => _ end] =>
              destruct (d v) eqn:?
          end).

Lemma direct_url_lite (apiKey : str) :
  "https://generativelanguage.googleapis.com/v1beta/models/gemini-2.0-flash-lite:generateContent?key="
  ++ apiKey
  = "https://generativelanguage.googleapis.com/v1beta/models/"
    ++ "gemini-2.0-flash-lite" ++ ":generateContent?key=" ++ apiKey.
Proof. reflexivity. Qed.

Lemma getSearchTerms_resilient (question : str) :
  Resilient (fun usingProxy apiKey => getSearchTerms usingProxy question apiKey)
    searchTerms_of
    (relay_request "gemini-2.0-flash-lite"
       (SearchTermsRequest (JS.replace PROMPTS.SEARCH_TERMS "{question}" question)))
    (direct_request "gemini-2.0-flash-lite"
       (SearchTermsRequest (JS.replace PROMPTS.SEARCH_TERMS "{question}" question))).
Proof.
  intros P tr apiKey.
  unfold getSearchTerms. rewrite direct_url_lite.
  cbv beta iota zeta delta [relay_request direct_request relay_result direct_result
    CredentialRequired bind try_catch fetch response_json lift throw ret].
  destruct (missing apiKey) eqn:Hkey;
    [apply missing_true in Hkey|apply missing_false in Hkey];
    (split; [|split; [|split; [|split]]]);
    try (intros _ ?; done); try (intros ?; done);
    run_call; intros; simplify_eq;
    rewrite <-?(assoc_L (++)); reflexivity.
Qed.

Lemma analyzeImages_resilient (question : str) (imageData : list Image)
    (modelName : str) (requestData : RequestData) :
  analysis_request question imageData = Ok requestData →
  Resilient (fun usingProxy apiKey =>
               analyzeImages usingProxy question imageData apiKey modelName)
    answer_text
    (relay_request modelName requestData)
    (direct_request modelName requestData).
Proof.
  intros Hrequest P tr apiKey.
  unfold analyzeImages.
  cbv beta iota zeta delta [relay_request direct_request relay_result direct_result
    CredentialRequired bind try_catch fetch response_json lift throw ret].
  rewrite Hrequest.
  destruct (missing apiKey) eqn:Hkey;
    [apply missing_true in Hkey|apply missing_false in Hkey];
    (split; [|split; [|split; [|split]]]);
    try (intros _ ?; done); try (intros ?; done);
    run_call; intros; simplify_eq;
    rewrite <-?(assoc_L (++)); reflexivity.
Qed.

Lemma image_part_of_payload (img : Image) :
  has_payload img → ∃ part, image_part img = Ok part.
Proof.
  intros (u & b & Hu & Hb). unfold image_part. rewrite Hu, Hb. by eexists.
Qed.

Lemma image_parts_of_payloads (imageData : list Image) :
  Forall has_payload imageData →
  ∃ imageParts, mapM image_part imageData = Ok imageParts.
Proof.
  induction 1 as [|img rest [part Hpart]%image_part_of_payload _ [imageParts IH]];
    simpl.
  { by eexists. }
  rewrite Hpart. simpl. rewrite IH. by eexists.
Qed.

Lemma analysis_request_of_payloads (question : str) (imageData : list Image) :
  Forall has_payload imageData →
  ∃ requestData, analysis_request question imageData = Ok requestData.
Proof.
  intros [imageParts Hparts]%image_parts_of_payloads.
  unfold analysis_request. rewrite Hparts. simpl. by eexists.
Qed.

(** What [processImages] returns can be sent to the model. *)
Lemma processImages_payloads (cfg : Config) (P : Platform)
    (imageDetails : list Image) (tr : Trace) :
  ∃ processedImages tr',
    AppController.processImages cfg imageDetails P tr = (Ok processedImages, tr')
    ∧ Forall has_payload processedImages.
Proof.
  destruct (processImages_probed cfg P imageDetails tr)
    as (processedImages & tr' & Hrun & Hall).
  exists processedImages, tr'. split; [done|].
  apply Forall_forall. intros img Himg.
  destruct (Hall img Himg) as (u & b & tr0 & _ & Hu & Hb & _). by exists u, b.
Qed.

(** C5: both model calls keep the resilience contract; the call of the
    vision model does so for every sequence of images with payloads, as
    [processImages] returns them.  With the relay enabled the relay
    request is the first request; when it fails (the request is
    rejected, the status is not a success, or the body cannot be read)
    the direct path follows; the direct path without a credential throws
    the credential error and issues no request; with the relay disabled
    the only request is the direct one. *)
Theorem C5_relay_then_direct (question : str) (imageData : list Image)
    (modelName : str) :
  Forall has_payload imageData →
  (∃ requestData,
     analysis_request question imageData = Ok requestData
     ∧ Resilient (fun usingProxy apiKey =>
                    analyzeImages usingProxy question imageData apiKey modelName)
         answer_text
         (relay_request modelName requestData)
         (direct_request modelName requestData))
  ∧ Resilient (fun usingProxy apiKey => getSearchTerms usingProxy question apiKey)
      searchTerms_of
      (relay_request "gemini-2.0-flash-lite"
         (SearchTermsRequest (JS.replace PROMPTS.SEARCH_TERMS "{question}" question)))
      (direct_request "gemini-2.0-flash-lite"
         (SearchTermsRequest (JS.replace PROMPTS.SEARCH_TERMS "{question}" question)))
  ∧ (∀ (A : Type) (decode : JsValue → Result A) (msg : str),
       relay_result decode (Rejected msg) = None)
  ∧ (∀ (A : Type) (decode : JsValue → Result A) (response : Response),
       ok response = false → relay_result decode (Settled response) = None).
Proof.
  intros [requestData Hrequest]%(analysis_request_of_payloads question).
  split; [exists requestData; split; [done|by apply analyzeImages_resilient]|].
  split; [apply getSearchTerms_resilient|].
  split; [intros; apply relay_fails_on_rejection|].
  intros; by apply relay_fails_on_status.
Qed.

(** The relay answers 500 and the direct call, with the key of the
    caller, succeeds. *)
Lemma C5_relay_then_direct_witness :
  ∃ requestData,
    analysis_request "What is a perceptron?" [Scenario.dog_png] = Ok requestData
    ∧ analyzeImages true "What is a perceptron?" [Scenario.dog_png] "KEY"
        "gemini-2.0-flash" Scenario.relay_down []
      = (Ok (JStr "A perceptron is a linear classifier."),
         [relay_request "gemini-2.0-flash" requestData;
          direct_request "gemini-2.0-flash" requestData "KEY"]).
Proof.
  assert (Forall has_payload [Scenario.dog_png]) as Hpayloads.
  { repeat constructor. by eexists _, _. }
  destruct (C5_relay_then_direct "What is a perceptron?" [Scenario.dog_png]
              "gemini-2.0-flash" Hpayloads)
    as ((requestData & Hrequest & Hanalyze) & _ & _ & Hstatus).
  exists requestData. split; [exact Hrequest|].
  destruct (Hanalyze Scenario.relay_down [] "KEY") as (_ & Hfallback & _).
  rewrite Hfallback.
  - reflexivity.
  - apply Hstatus. reflexivity.
  - discriminate.
Defined.

End ModelInvoker.

(** ** A whole run *)

Section WholeRun.

Import GeminiAPI WikimediaAPI AppController Invoker Run.

Lemma get_throws v key e : get v key = Throw e → native e.
Proof.
  unfold get, TypeError.
  destruct v; try done; try (intros [= <-]; by eexists).
  - destruct (array_index key); [done|]. by case_bool_decide.
  - destruct (array_index key); [done|]. by case_bool_decide.
Qed.

Lemma path_throws keys : ∀ v e, path v keys = Throw e → native e.
Proof.
  induction keys as [|key keys IH]; intros v e; simpl; [done|].
  destruct (get v key) as [v'|e'] eqn:Hget; simpl.
  - apply IH.
  - intros [= <-]. by eapply get_throws.
Qed.

Lemma as_string_throws v e : as_string v = Throw e → native e.
Proof. unfold as_string, TypeError. destruct v; try done; intros [= <-]; by eexists. Qed.

Lemma answer_text_throws data e : answer_text data = Throw e → native e.
Proof. apply path_throws. Qed.

Lemma searchTerms_of_throws data e : searchTerms_of data = Throw e → native e.
Proof.
  unfold searchTerms_of.
  destruct (answer_text data) as [v|e'] eqn:Htext; simpl.
  - destruct (as_string v) as [t|e'] eqn:Hstring; simpl; [done|].
    intros [= <-]. by eapply as_string_throws.
  - intros [= <-]. by eapply answer_text_throws.
Qed.

Lemma image_part_throws img e : image_part img = Throw e → native e.
Proof.
  unfold image_part.
  destruct (as_string (url img)) as [u|e1] eqn:Hu; simpl.
  2:{ intros [= <-]. by eapply as_string_throws. }
  destruct (base64 img); simpl; [done|].
  unfold TypeError. intros [= <-]. by eexists.
Qed.

Lemma mapM_throws {A B} (f : A → Result B) (items : list A) :
  (∀ x e, f x = Throw e → native e) →
  ∀ e, mapM f items = Throw e → native e.
Proof.
  intros Hf. induction items as [|x items IH]; intros e; simpl; [done|].
  destruct (f x) as [y|e1] eqn:Hx; simpl.
  - destruct (mapM f items) as [ys|e2]; simpl; [done|].
    intros [= <-]. by apply IH.
  - intros [= <-]. by eapply Hf.
Qed.

Lemma analysis_request_throws question imageData e :
  analysis_request question imageData = Throw e → native e.
Proof.
  unfold analysis_request.
  destruct (mapM image_part imageData) as [parts|e'] eqn:Hparts; simpl; [done|].
  intros [= <-]. eapply mapM_throws; [apply image_part_throws|done].
Qed.

Lemma no_images_not_native : ¬ native (Error NO_IMAGES).
Proof. by intros [msg ?]. Qed.

Lemma direct_result_throws {A} (decode : JsValue → Result A) reply e :
  (∀ data e', decode data = Throw e' → native e') →
  direct_result decode reply = Throw e → e ≠ Error NO_IMAGES.
Proof.
  intros Hdecode. unfold direct_result.
  destruct reply as [msg|response]; [by intros [= <-]|].
  destruct (ok response).
  - destruct (json response) as [data|]; [|by intros [= <-]].
    intros He%Hdecode ->. by apply no_images_not_native.
  - intros [= <-] [= Hmsg]; apply (f_equal head) in Hmsg;
      vm_compute in Hmsg; discriminate.
Qed.

(** A resilient call never fails with the error of the empty search. *)
Lemma resilient_throws {A} (invoke : bool → str → M A)
    (decode : JsValue → Result A) relay direct usingProxy apiKey P tr e tr' :
  Resilient invoke decode relay direct →
  (∀ data e', decode data = Throw e' → native e') →
  invoke usingProxy apiKey P tr = (Throw e, tr') → e ≠ Error NO_IMAGES.
Proof.
  intros Hres Hdecode.
  destruct (Hres P tr apiKey) as (Hrelay & Hfallback & Hnokey & Hdirect & Hnokey').
  destruct usingProxy.
  - destruct (relay_result decode (net P tr relay)) as [v|] eqn:Hr.
    { by rewrite (Hrelay v eq_refl). }
    destruct (decide (apiKey = [])) as [Hkey|Hkey].
    + rewrite Hnokey by done. intros [= <- _] [= Hmsg];
        vm_compute in Hmsg; discriminate.
    + rewrite Hfallback by done. intros [= He _]. by eapply direct_result_throws.
  - destruct (decide (apiKey = [])) as [Hkey|Hkey].
    + rewrite Hnokey' by done. intros [= <- _] [= Hmsg];
        vm_compute in Hmsg; discriminate.
    + rewrite Hdirect by done. intros [= He _]. by eapply direct_result_throws.
Qed.

Lemma getSearchTerms_throws usingProxy question apiKey P tr e tr' :
  getSearchTerms usingProxy question apiKey P tr = (Throw e, tr') →
  e ≠ Error NO_IMAGES.
Proof.
  apply (resilient_throws (fun usingProxy apiKey =>
           getSearchTerms usingProxy question apiKey) searchTerms_of _ _
           usingProxy apiKey P tr e tr' (getSearchTerms_resilient question)).
  apply searchTerms_of_throws.
Qed.

Lemma analyzeImages_throws usingProxy question imageData apiKey modelName P tr e tr' :
  analyzeImages usingProxy question imageData apiKey modelName P tr = (Throw e, tr') →
  e ≠ Error NO_IMAGES.
Proof.
  destruct (analysis_request question imageData) as [requestData|e'] eqn:Hrequest.
  - apply (resilient_throws (fun usingProxy apiKey =>
             analyzeImages usingProxy question imageData apiKey modelName)
             answer_text _ _ usingProxy apiKey P tr e tr'
             (analyzeImages_resilient question imageData modelName requestData Hrequest)).
    apply answer_text_throws.
  - unfold analyzeImages, bind, lift. rewrite Hrequest.
    intros [= <- _] ->. eapply no_images_not_native.
    by eapply analysis_request_throws.
Qed.

Lemma searchImages_returns searchTerm P tr :
  ∃ candidates tr', searchImages searchTerm P tr = (Ok candidates, tr').
Proof.
  unfold searchImages, try_catch.
  match goal with |- context [match ?m P tr with _ => _ end] =>
    destruct (m P tr) as [[candidates|e] tr'] end; by eexists _, _.
Qed.

Lemma getImageDetails_returns imageTitle P tr :
  ∃ details tr', getImageDetails imageTitle P tr = (Ok details, tr').
Proof.
  unfold getImageDetails, try_catch.
  match goal with |- context [match ?m P tr with _ => _ end] =>
    destruct (m P tr) as [[details|e] tr'] end; by eexists _, _.
Qed.

Lemma Promise_all_map_returns {A B} (f : A → M B) (items : list A) :
  (∀ x P tr, ∃ y tr', f x P tr = (Ok y, tr')) →
  ∀ P tr, ∃ ys tr', Promise_all_map f items P tr = (Ok ys, tr').
Proof.
  intros Hf. induction items as [|x items IH]; intros P tr; simpl.
  { by eexists _, _. }
  unfold bind. destruct (Hf x P tr) as (y & tr1 & ->).
  destruct (IH P tr1) as (ys & tr2 & ->). by eexists _, _.
Qed.

(** [answerQuestion], stage by stage. *)
Lemma answerQuestion_stages cfg usingProxy question apiKey modelName P tr :
  answerQuestion cfg usingProxy question apiKey modelName P tr =
  if negb usingProxy && missing apiKey
  then (Throw (Error "API key is required when not using the proxy"), tr)
  else
    match getSearchTerms usingProxy question apiKey P tr with
    | (Throw e, tr1) => (Throw e, tr1)
    | (Ok searchTerms, tr1) =>
        match Promise_all_map searchImages searchTerms P tr1 with
        | (Throw e, tr2) => (Throw e, tr2)
        | (Ok searchResults, tr2) =>
            if (length (capped searchResults) =? 0)%nat
            then (Throw (Error NO_IMAGES), tr2)
            else
              match Promise_all_map
                      (fun img => getImageDetails (Candidate.title img))
                      (capped searchResults) P tr2 with
              | (Throw e, tr3) => (Throw e, tr3)
              | (Ok details, tr3) =>
                  match processImages cfg (omap id details) P tr3 with
                  | (Throw e, tr4) => (Throw e, tr4)
                  | (Ok processedImages, tr4) =>
                      match analyzeImages usingProxy question processedImages
                              apiKey modelName P tr4 with
                      | (Throw e, tr5) => (Throw e, tr5)
                      | (Ok geminiResponse, tr5) =>
                          match as_string geminiResponse with
                          | Ok answer =>
                              (Ok (formatResponse P answer processedImages), tr5)
                          | Throw e => (Throw e, tr5)
                          end
                      end
                  end
              end
        end
    end.
Proof.
  unfold answerQuestion, bind, capped.
  destruct (negb usingProxy && missing apiKey); [done|]. simpl.
  destruct (getSearchTerms _ _ _ P tr) as [[searchTerms|e] tr1]; [|done].
  destruct (Promise_all_map _ _ P tr1) as [[searchResults|e] tr2]; [|done].
  destruct (length _ =? 0)%nat; [done|].
  destruct (Promise_all_map _ _ P tr2) as [[details|e] tr3]; [|done].
  destruct (processImages _ _ P tr3) as [[processedImages|e] tr4]; [|done].
  destruct (analyzeImages _ _ _ _ _ P tr4) as [[geminiResponse|e] tr5]; [|done].
  unfold lift. by destruct (as_string geminiResponse).
Qed.

Lemma capped_empty searchResults :
  (length (capped searchResults) =? 0)%nat = true ↔ concat searchResults = [].
Proof.
  unfold capped. rewrite Nat.eqb_eq.
  destruct (concat searchResults) as [|c rest]; [done|].
  destruct (_ <? _)%nat; simpl; split; done.
Qed.

Lemma processQuestion_outcome cfg usingProxy question apiKey modelName P tr :
  processQuestion cfg usingProxy question apiKey modelName P tr =
  match answerQuestion cfg usingProxy question apiKey modelName P tr with
  | (Ok formattedResponse, tr') => (Ok (DisplayResponse question formattedResponse), tr')
  | (Throw e, tr') => (Ok (ShowError e), tr')
  end.
Proof.
  unfold processQuestion, try_catch, bind.
  by destruct (answerQuestion _ _ _ _ _ P tr) as [[formattedResponse|e] tr'].
Qed.

Lemma credential_check usingProxy apiKey :
  negb usingProxy && missing apiKey = false ↔ usingProxy = true ∨ apiKey ≠ [].
Proof.
  destruct usingProxy; simpl.
  - split; [by left|done].
  - rewrite missing_false. split; [by right|]. by intros [|].
Qed.

Lemma processImages_returns cfg imageDetails P tr :
  ∃ processedImages tr', processImages cfg imageDetails P tr = (Ok processedImages, tr').
Proof.
  destruct (processImages_run cfg P imageDetails tr)
    as (admitted & total & tr' & _ & -> & _).
  by eexists _, _.
Qed.

(** C6, as amended: the run ends with the error "No images found ..."
    exactly when the terms were obtained and the searches for them,
    taken together, found no candidate.  When the searches found a
    candidate, the vision model is called with whatever the admission
    pipeline let through, be it no image at all, and the run ends with
    the answer of that call or with its failure. *)
Theorem C6_no_images_only_after_search (cfg : Config) (usingProxy : bool)
    (question apiKey modelName : str) (P : Platform) (tr : Trace) :
  (∀ tr',
     processQuestion cfg usingProxy question apiKey modelName P tr
       = (Ok (ShowError (Error NO_IMAGES)), tr')
     ↔ (usingProxy = true ∨ apiKey ≠ [])
       ∧ ∃ searchTerms tr1 searchResults,
           getSearchTerms usingProxy question apiKey P tr = (Ok searchTerms, tr1)
           ∧ Promise_all_map searchImages searchTerms P tr1 = (Ok searchResults, tr')
           ∧ concat searchResults = [])
  ∧ (∀ searchTerms tr1 searchResults tr2 details tr3 processedImages tr4,
       (usingProxy = true ∨ apiKey ≠ []) →
       getSearchTerms usingProxy question apiKey P tr = (Ok searchTerms, tr1) →
       Promise_all_map searchImages searchTerms P tr1 = (Ok searchResults, tr2) →
       concat searchResults ≠ [] →
       Promise_all_map (fun img => getImageDetails (Candidate.title img))
         (capped searchResults) P tr2 = (Ok details, tr3) →
       processImages cfg (omap id details) P tr3 = (Ok processedImages, tr4) →
       processQuestion cfg usingProxy question apiKey modelName P tr
       = present P question processedImages
           (analyzeImages usingProxy question processedImages apiKey modelName P tr4)).
Proof.
  split.
  - intros tr'. rewrite processQuestion_outcome, answerQuestion_stages. split.
    + destruct (negb usingProxy && missing apiKey) eqn:Hcheck.
      { intros [= Hmsg _]; vm_compute in Hmsg; discriminate. }
      apply credential_check in Hcheck. intros Hrun. split; [done|].
      destruct (getSearchTerms _ _ _ P tr) as [[searchTerms|e] tr1] eqn:Hterms.
      2:{ injection Hrun as -> _. by apply getSearchTerms_throws in Hterms. }
      destruct (Promise_all_map_returns searchImages searchTerms
                  searchImages_returns P tr1) as (searchResults & tr2 & Hsearch).
      rewrite Hsearch in Hrun.
      destruct (length (capped searchResults) =? 0)%nat eqn:Hempty.
      { injection Hrun as <-. apply capped_empty in Hempty. by eexists _, _, _. }
      exfalso.
      destruct (Promise_all_map_returns
                  (fun img => getImageDetails (Candidate.title img))
                  (capped searchResults)
                  (fun img => getImageDetails_returns (Candidate.title img)) P tr2)
        as (details & tr3 & Hdetails).
      rewrite Hdetails in Hrun.
      destruct (processImages_returns cfg (omap id details) P tr3)
        as (processedImages & tr4 & Hprocessed).
      rewrite Hprocessed in Hrun.
      destruct (analyzeImages _ _ _ _ _ P tr4) as [[geminiResponse|e] tr5] eqn:Hanswer.
      * destruct (as_string geminiResponse) as [answer|e] eqn:Hstring; [done|].
        injection Hrun as -> _. apply as_string_throws in Hstring.
        by apply no_images_not_native in Hstring.
      * injection Hrun as -> _. by apply analyzeImages_throws in Hanswer.
    + intros (Hcheck%credential_check & searchTerms & tr1 & searchResults
              & Hterms & Hsearch & Hempty%capped_empty).
      by rewrite Hcheck, Hterms, Hsearch, Hempty.
  - intros searchTerms tr1 searchResults tr2 details tr3 processedImages tr4
      Hcheck%credential_check Hterms Hsearch Hfound Hdetails Hprocessed.
    rewrite processQuestion_outcome, answerQuestion_stages.
    rewrite Hcheck, Hterms, Hsearch.
    destruct (length (capped searchResults) =? 0)%nat eqn:Hempty.
    { by apply capped_empty in Hempty. }
    rewrite Hdetails, Hprocessed. unfold present.
    destruct (analyzeImages _ _ _ _ _ P tr4) as [[geminiResponse|e] tr5]; [|done].
    unfold as_string, TypeError. by destruct geminiResponse.
Qed.

End WholeRun.

(** ** A run in which admission rejects every candidate *)

Section RunExamples.

Import GeminiAPI WikimediaAPI AppController Invoker Run Scenario.

(** C6, as stated, fails: the search finds one candidate, an animation;
    the admission pipeline rejects it; the vision model is called with
    no image and its answer is displayed. *)
Lemma C6_counterexample :
  ∃ searchTerms tr1 searchResults tr2 details tr3 tr4 tr5,
    getSearchTerms true "Why do cats dance?" [] only_gifs [] = (Ok searchTerms, tr1)
    ∧ Promise_all_map searchImages searchTerms only_gifs tr1 = (Ok searchResults, tr2)
    ∧ length (concat searchResults) = 1
    ∧ Promise_all_map (fun img => getImageDetails (Candidate.title img))
        (capped searchResults) only_gifs tr2 = (Ok details, tr3)
    ∧ omap id details = [dancing_cat]
    ∧ processImages app_config [dancing_cat] only_gifs tr3 = (Ok [], tr4)
    ∧ processQuestion app_config true "Why do cats dance?" [] "gemini-2.0-flash"
        only_gifs []
      = (Ok (DisplayResponse "Why do cats dance?" "Cats dance when they are happy."),
         tr5)
    ∧ processQuestion app_config true "Why do cats dance?" [] "gemini-2.0-flash"
        only_gifs []
      ≠ (Ok (ShowError (Error NO_IMAGES)), tr5).
Proof.
  eexists _, _, _, _, _, _, _, _.
  split; [lazy; reflexivity|]. split; [lazy; reflexivity|].
  split; [reflexivity|]. split; [lazy; reflexivity|].
  split; [reflexivity|]. split; [lazy; reflexivity|].
  assert (processQuestion app_config true "Why do cats dance?" [] "gemini-2.0-flash"
            only_gifs []
          = (Ok (DisplayResponse "Why do cats dance?" "Cats dance when they are happy."),
             snd (processQuestion app_config true "Why do cats dance?" []
                    "gemini-2.0-flash" only_gifs []))) as Hrun
    by (vm_compute; reflexivity).
  split; [exact Hrun|]. rewrite Hrun. discriminate.
Qed.

(** In that run the outcome is that of the call of the vision model
    with no image. *)
Lemma C6_no_images_only_after_search_witness :
  ∃ tr4,
    processQuestion app_config true "Why do cats dance?" [] "gemini-2.0-flash"
      only_gifs []
    = present only_gifs "Why do cats dance?" []
        (analyzeImages true "Why do cats dance?" [] [] "gemini-2.0-flash"
           only_gifs tr4).
Proof.
  eexists.
  eapply (proj2 (C6_no_images_only_after_search app_config true
                   "Why do cats dance?" [] "gemini-2.0-flash" only_gifs [])).
  - left. reflexivity.
  - lazy. reflexivity.
  - lazy. reflexivity.
  - lazy. discriminate.
  - lazy. reflexivity.
  - lazy. reflexivity.
Defined.

(** The end-to-end scenario of the specification: both candidates are
    admitted, the vector image under the name of its raster, and the
    answer shows one image. *)
Example end_to_end :
  ∃ formattedResponse tr',
    processQuestion app_config true "What is a perceptron?" [] "gemini-2.0-flash"
      perceptron_world []
    = (Ok (DisplayResponse "What is a perceptron?" formattedResponse), tr')
    ∧ length tr' = 10
    ∧ formattedResponse
      = "A perceptron weighs its inputs: "
        ++ imgTag_of perceptron_world
             {| url := JStr "https://upload.example/Perceptron_diagram.png";
                altText := "Perceptron diagram.png";
                title := "perceptron_diagram.png";
                license := "CC BY 4.0"; attribution := [];
                base64 := Some ("data:image/png;base64,AAAA" : str) |}
    ∧ JS.includes formattedResponse "[[[" = false.
Proof.
  eexists _, _. split; [vm_compute; reflexivity|].
  split; [reflexivity|]. split; vm_compute; reflexivity.
Qed.

End RunExamples.

(** ** Placeholder resolution *)

Section PlaceholderResolver.

Import AppController Placeholders.

Lemma title_matches_spec (normalizedFilename : str) (img : Image) :
  title_matches normalizedFilename img = true ↔ Matches normalizedFilename img.
Proof.
  unfold title_matches, Matches. cbv zeta.
  rewrite !orb_true_iff, !bool_decide_eq_true, !includes_spec. tauto.
Qed.

Lemma find_first {A} (f : A → bool) (l : list A) (x : A) :
  List.find f l = Some x ↔
  ∃ earlier later, l = earlier ++ x :: later
                   ∧ Forall (fun y => f y = false) earlier ∧ f x = true.
Proof.
  induction l as [|y l IH]; simpl.
  { split; [done|]. intros (earlier & later & Heq & _). by destruct earlier. }
  destruct (f y) eqn:Hy.
  - split.
    + intros [= ->]. by exists [], l.
    + intros (earlier & later & Heq & Hearlier & Hx).
      destruct earlier as [|z earlier]; simplify_eq/=; [done|].
      apply Forall_cons in Hearlier as [? _]. congruence.
  - rewrite IH. split.
    + intros (earlier & later & -> & Hearlier & Hx).
      exists (y :: earlier), later. split; [done|]. split; [by constructor|done].
    + intros (earlier & later & Heq & Hearlier & Hx).
      destruct earlier as [|z earlier]; simplify_eq/=; [congruence|].
      apply Forall_cons in Hearlier as [_ Hearlier]. by exists earlier, later.
Qed.

Lemma find_none_iff {A} (f : A → bool) (l : list A) :
  List.find f l = None ↔ Forall (fun y => f y = false) l.
Proof.
  induction l as [|y l IH]; simpl; [split; [constructor|done]|].
  destruct (f y) eqn:Hy.
  - split; [done|]. intros [? _]%Forall_cons. congruence.
  - rewrite IH. split; [by constructor|]. by intros [_ ?]%Forall_cons.
Qed.

Lemma not_matches (normalizedFilename : str) (l : list Image) :
  Forall (fun img => title_matches normalizedFilename img = false) l
  ↔ Forall (fun img => ¬ Matches normalizedFilename img) l.
Proof.
  apply Forall_proper; [|done]. intros img.
  by rewrite <-title_matches_spec, not_true_iff_false.
Qed.

Lemma find_image_first (filename : str) (processedImages : list Image) (img : Image) :
  find_image filename processedImages = Some img
  ↔ FirstMatch (JS.trim (JS.toLowerCase filename)) processedImages img.
Proof.
  unfold find_image, FirstMatch. cbv zeta. rewrite find_first.
  by setoid_rewrite not_matches; setoid_rewrite title_matches_spec.
Qed.

Lemma find_image_none (filename : str) (processedImages : list Image) :
  find_image filename processedImages = None
  ↔ Forall (fun img => ¬ Matches (JS.trim (JS.toLowerCase filename)) img)
           processedImages.
Proof. unfold find_image. cbv zeta. by rewrite find_none_iff, not_matches. Qed.


(** [strip_extension] removes a last dot with the word characters after
    it, and nothing else. *)
Lemma strip_extension_with (base ext : str) :
  ext ≠ [] → forallb JS.is_word ext = true →
  JS.strip_extension (base ++ "."%char :: ext) = base.
Proof.
  intros Hext Hword. induction base as [|c base IH].
  - unfold JS.strip_extension. simpl. rewrite Hword.
    by rewrite bool_decide_eq_false_2.
  - change ((c :: base) ++ "."%char :: ext) with (c :: (base ++ "."%char :: ext)).
    unfold JS.strip_extension; fold JS.strip_extension. rewrite IH.
    rewrite forallb_app. simpl. by rewrite !andb_false_r.
Qed.

Lemma strip_extension_without (s : str) :
  (∀ base ext, s = base ++ "."%char :: ext →
               ext = [] ∨ forallb JS.is_word ext = false) →
  JS.strip_extension s = s.
Proof.
  induction s as [|c s IH]; intros Hnone; [done|].
  unfold JS.strip_extension; fold JS.strip_extension.
  destruct (JS.is_char 46 c) eqn:Hc; simpl.
  - assert (c = "."%char) as ->.
    { unfold JS.is_char, JS.code in Hc. apply N.eqb_eq in Hc.
      rewrite <-(ascii_N_embedding c), Hc. reflexivity. }
    destruct (Hnone [] s eq_refl) as [->|Hword].
    + done.
    + rewrite Hword, andb_false_r. f_equal. apply IH.
      intros base ext ->. apply (Hnone ("."%char :: base) ext). done.
  - f_equal. apply IH. intros base ext ->. apply (Hnone (c :: base) ext). done.
Qed.

(** [close_len]: the closing brackets follow the run. *)
Lemma close_len_Some (s : str) (k : nat) :
  JS.close_len s = Some k →
  ∃ rest, s = take k s ++ "]]]" ++ rest
          ∧ Forall (fun c => JS.is_line_terminator c = false) (take k s).
Proof.
  revert k. induction s as [|c s IH]; intros k.
  - unfold JS.close_len. by destruct (JS.startsWith [] "]]]") eqn:Hs.
  - unfold JS.close_len; fold JS.close_len.
    destruct (JS.startsWith (c :: s) "]]]") eqn:Hclose.
    + intros [= <-]. apply startsWith_prefix in Hclose as [rest Hrest].
      exists rest. split; [done|constructor].
    + destruct (JS.is_line_terminator c) eqn:Hc; [done|].
      destruct (JS.close_len s) as [k'|] eqn:Hk; [|done].
      intros [= <-]. destruct (IH k' eq_refl) as (rest & Hrest & Hrun).
      exists rest. rewrite firstn_cons.
      split; [simpl; f_equal; exact Hrest|by constructor].
Qed.

(** Every result of the [exec] loop is a token of the text, and its
    first group is what the brackets enclose. *)
Lemma exec_from_token (s : str) :
  ∀ skip m, m ∈ JS.exec_from skip s →
    JS.match0 m = token (JS.match1 m)
    ∧ ∃ before after, s = before ++ JS.match0 m ++ after.
Proof.
  induction s as [|c s IH]; intros skip m.
  { simpl. by intros ?%elem_of_nil. }
  assert (∀ skip', m ∈ JS.exec_from skip' s →
            JS.match0 m = token (JS.match1 m)
            ∧ ∃ before after, c :: s = before ++ JS.match0 m ++ after) as Hlater.
  { intros skip' Hm. destruct (IH skip' m Hm) as (Htoken & before & after & Hs).
    split; [done|]. exists (c :: before), after. by rewrite Hs. }
  unfold JS.exec_from; fold JS.exec_from.
  destruct skip as [|skip]; [|apply Hlater].
  destruct (JS.startsWith (c :: s) "[[[") eqn:Hopen; [|apply Hlater].
  destruct (JS.close_len (drop 3 (c :: s))) as [k|] eqn:Hk; [|apply Hlater].
  intros [->|Hm]%elem_of_cons; [|by eapply Hlater].
  cbn [JS.match0 JS.match1]. split; [done|].
  apply startsWith_prefix in Hopen as [body Hbody].
  apply close_len_Some in Hk as (rest & Hrest & _).
  exists [], rest. rewrite Hbody in Hrest |- *.
  change (drop 3 ("[[[" ++ body)) with body in *.
  rewrite app_nil_l, <-!(assoc_L (++)). f_equal. exact Hrest.
Qed.

Lemma token_inj (f1 f2 : str) : token f1 = token f2 → f1 = f2.
Proof.
  unfold token. intros Heq%(inj (app _)).
  by apply (inj (fun f => f ++ _)) in Heq.
Qed.

(** A text without three opening brackets has no token. *)
Lemma no_brackets_no_tokens (s : str) :
  JS.includes s "[[[" = false → JS.exec_all s = [].
Proof.
  unfold JS.exec_all, JS.includes.
  destruct (JS.indexOf s "[[[") as [i|] eqn:Hi; [done|]. intros _.
  pose proof (indexOf_None _ _ Hi) as Hnone. clear Hi.
  induction s as [|c s IH]; [done|].
  unfold JS.exec_from; fold JS.exec_from.
  pose proof (Hnone 0) as Hhere. change (drop 0 (c :: s)) with (c :: s) in Hhere.
  rewrite Hhere. apply IH. intros j. apply (Hnone (S j)).
Qed.

(** The map of placeholders *)

Lemma assign_keys (obj : list (str * str)) (placeholder filename : str) :
  (assign obj placeholder filename).*1
  = if bool_decide (placeholder ∈ obj.*1) then obj.*1 else obj.*1 ++ [placeholder].
Proof.
  induction obj as [|[k v] obj IH]; [done|].
  cbn [assign fmap list_fmap fst].
  destruct (decide (k = placeholder)) as [->|Hk].
  - rewrite (bool_decide_eq_true_2 (placeholder = placeholder)) by done.
    rewrite bool_decide_eq_true_2; [done|by left].
  - rewrite (bool_decide_eq_false_2 (k = placeholder)) by done.
    cbn [fmap list_fmap fst]. rewrite IH.
    destruct (decide (placeholder ∈ obj.*1)) as [Hin|Hin].
    + rewrite (bool_decide_eq_true_2 (placeholder ∈ obj.*1)) by done.
      rewrite bool_decide_eq_true_2; [done|by right].
    + rewrite (bool_decide_eq_false_2 (placeholder ∈ obj.*1)) by done.
      rewrite bool_decide_eq_false_2; [done|].
      intros [?|?]%elem_of_cons; congruence.
Qed.

Lemma assign_entries (obj : list (str * str)) (placeholder filename : str) entry :
  entry ∈ assign obj placeholder filename →
  entry = (placeholder, filename) ∨ entry ∈ obj.
Proof.
  induction obj as [|[k v] obj IH]; simpl.
  { intros ->%list_elem_of_singleton. by left. }
  case_bool_decide as Hk.
  - subst k. intros [->|Hin]%elem_of_cons; [by left|]. right. by right.
  - intros [->|Hin]%elem_of_cons; [right; by left|].
    destruct (IH Hin) as [->|?]; [by left|]. right. by right.
Qed.

(** The map after the [exec] loop: its keys are the distinct token
    texts, each once, in the order of the text; the value of a key is
    the file name that the token encloses. *)
Lemma imagePlaceholders_spec (geminiResponse : str) :
  NoDup (imagePlaceholders geminiResponse).*1
  ∧ (∀ t, t ∈ (imagePlaceholders geminiResponse).*1 ↔ t ∈ tokens geminiResponse)
  ∧ (imagePlaceholders geminiResponse).*1 `sublist_of` tokens geminiResponse
  ∧ (∀ entry, entry ∈ imagePlaceholders geminiResponse →
       ∃ m, m ∈ JS.exec_all geminiResponse
            ∧ entry = (JS.match0 m, JS.match1 m)).
Proof.
  unfold imagePlaceholders, tokens.
  induction (JS.exec_all geminiResponse) as [|m ms IH] using rev_ind.
  { simpl. split; [constructor|]. split; [done|]. split; [done|].
    by intros entry ?%elem_of_nil. }
  destruct IH as (Hnodup & Hkeys & Hsub & Hentries).
  rewrite foldl_app, fmap_app. simpl. rewrite assign_keys.
  set (obj := foldl _ [] ms) in *.
  split; [|split; [|split]].
  - case_bool_decide as Hin; [done|].
    apply NoDup_app. split; [done|]. split; [|apply NoDup_singleton].
    intros t Ht ->%list_elem_of_singleton. done.
  - intros t. rewrite elem_of_app, list_elem_of_singleton, <-Hkeys.
    case_bool_decide as Hin; [|by rewrite elem_of_app, list_elem_of_singleton].
    split; [by left|]. by intros [?| ->].
  - case_bool_decide as Hin.
    + by apply sublist_inserts_r.
    + by apply sublist_app.
  - intros entry [->|Hin]%assign_entries.
    + exists m. split; [|done]. apply elem_of_app. right. by left.
    + destruct (Hentries entry Hin) as (m' & Hm' & ->).
      exists m'. split; [|done]. apply elem_of_app. by left.
Qed.




(** The examples of the specification. *)
Example resolve_Dog_PNG :
  find_image "Dog.PNG" [Scenario.dog_png; Scenario.cat_png] = Some Scenario.dog_png.
Proof. vm_compute. reflexivity. Qed.

Example resolve_by_stripped_extension :
  JS.strip_extension "dog.png" = JS.strip_extension "dog.jpeg"
  ∧ find_image "Dog.JPEG" [Scenario.cat_png; Scenario.dog_png] = Some Scenario.dog_png.
Proof. split; vm_compute; reflexivity. Qed.

Example resolve_by_containment :
  JS.includes "golden_retriever_dog.png" "golden_retriever" = true
  ∧ find_image "golden_retriever"
      [Scenario.cat_png; Scenario.processed "golden_retriever_dog.png"]
    = Some (Scenario.processed "golden_retriever_dog.png").
Proof. split; vm_compute; reflexivity. Qed.

(** C8: the map of placeholders has one entry for each distinct token
    text of the reply, however often the text occurs; the value of the
    entry is the file name that the token encloses, the same for every
    occurrence, so that an assignment for a later occurrence changes
    nothing and equal tokens have the same image; the substitution for an
    entry rewrites the first occurrence of its token in the current text;
    a reply without a token comes out unchanged. *)
Theorem C8_one_entry_per_token (P : Platform) (processedImages : list Image)
    (geminiResponse : str) :
  NoDup (imagePlaceholders geminiResponse).*1
  ∧ (imagePlaceholders geminiResponse).*1 ≡ₚ remove_dups (tokens geminiResponse)
  ∧ (imagePlaceholders geminiResponse).*1 `sublist_of` tokens geminiResponse
  ∧ (∀ placeholder filename,
       (placeholder, filename) ∈ imagePlaceholders geminiResponse →
       placeholder = token filename)
  ∧ (∀ m, m ∈ JS.exec_all geminiResponse →
       (JS.match0 m, JS.match1 m) ∈ imagePlaceholders geminiResponse)
  ∧ (∀ formattedResponse placeholder filename img i,
       find_image filename processedImages = Some img →
       JS.indexOf formattedResponse placeholder = Some i →
       formattedResponse
       = take i formattedResponse ++ placeholder
         ++ drop (i + length placeholder) formattedResponse
       ∧ (∀ j, j < i → JS.startsWith (drop j formattedResponse) placeholder = false)
       ∧ substitute P processedImages formattedResponse (placeholder, filename)
         = take i formattedResponse
           ++ JS.GetSubstitution placeholder (take i formattedResponse)
                (drop (i + length placeholder) formattedResponse) (imgTag_of P img)
           ++ drop (i + length placeholder) formattedResponse)
  ∧ (JS.exec_all geminiResponse = [] →
       substituted P geminiResponse processedImages = geminiResponse).
Proof.
  destruct (imagePlaceholders_spec geminiResponse)
    as (Hnodup & Hkeys & Hsub & Hentries).
  split; [done|]. split.
  { apply NoDup_Permutation; [done|apply NoDup_remove_dups|].
    intros t. by rewrite Hkeys, elem_of_remove_dups. }
  split; [done|].
  assert (∀ placeholder filename,
            (placeholder, filename) ∈ imagePlaceholders geminiResponse →
            placeholder = token filename) as Htoken.
  { intros placeholder filename (m & Hm & [= -> ->])%Hentries.
    by apply (exec_from_token geminiResponse 0 m). }
  split; [done|]. split.
  { intros m Hm.
    assert (JS.match0 m ∈ (imagePlaceholders geminiResponse).*1) as Hkey.
    { apply Hkeys. unfold tokens. by apply list_elem_of_fmap_2. }
    apply list_elem_of_fmap in Hkey as ([placeholder filename] & Heq & Hin).
    simpl in Heq. subst placeholder.
    pose proof (Htoken _ _ Hin) as Hfile.
    rewrite (proj1 (exec_from_token geminiResponse 0 m Hm)) in Hfile.
    apply token_inj in Hfile as <-. done. }
  split.
  { intros formattedResponse placeholder filename img i Hfind Hi.
    destruct (replace_first formattedResponse placeholder (imgTag_of P img) i Hi)
      as [Hsplit Hreplace].
    split; [done|]. split.
    - by apply indexOf_Some in Hi as (_ & _ & Hbefore).
    - unfold substitute. simpl. by rewrite Hfind. }
  intros Hnone. unfold substituted, imagePlaceholders. by rewrite Hnone.
Qed.

(** A token that occurs twice has one entry, and the substitution
    rewrites its first occurrence; a reply without a token is
    unchanged. *)
Lemma C8_one_entry_per_token_witness :
  imagePlaceholders "A [[[dog.png]]] B [[[dog.png]]]" = [("[[[dog.png]]]" : str, "dog.png" : str)]
  ∧ substitute Scenario.offline [Scenario.dog_png]
      "A [[[dog.png]]] B [[[dog.png]]]" ("[[[dog.png]]]" : str, "dog.png" : str)
    = "A " ++ imgTag_of Scenario.offline Scenario.dog_png ++ " B [[[dog.png]]]"
  ∧ substituted Scenario.offline "No image fits this question."
      [Scenario.dog_png]
    = "No image fits this question.".
Proof.
  destruct (C8_one_entry_per_token Scenario.offline [Scenario.dog_png]
              "A [[[dog.png]]] B [[[dog.png]]]")
    as (_ & _ & _ & _ & _ & Hfirst & _).
  destruct (C8_one_entry_per_token Scenario.offline [Scenario.dog_png]
              "No image fits this question.")
    as (_ & _ & _ & _ & _ & _ & Hnone).
  split; [vm_compute; reflexivity|]. split.
  - destruct (Hfirst "A [[[dog.png]]] B [[[dog.png]]]" "[[[dog.png]]]" "dog.png"
                Scenario.dog_png 2) as (_ & _ & ->).
    + vm_compute. reflexivity.
    + vm_compute. reflexivity.
    + vm_compute. reflexivity.
  - apply Hnone. vm_compute. reflexivity.
Defined.

End PlaceholderResolver.

(** ** The search terms *)

Section SearchTerms.

Import GeminiAPI Invoker Terms.

Lemma relay_result_Some {A} (decode : JsValue → Result A) (reply : NetResult) (v : A) :
  relay_result decode reply = Some v →
  ∃ response data, reply = Settled response ∧ ok response = true
                   ∧ json response = Some data ∧ decode data = Ok v.
Proof.
  unfold relay_result. destruct reply as [msg|response]; [done|].
  destruct (ok response) eqn:Hok; [|done].
  destruct (json response) as [data|] eqn:Hjson; [|done].
  destruct (decode data) as [v'|e] eqn:Hdecode; [|done].
  intros [= <-]. by exists response, data.
Qed.

Lemma direct_result_Ok {A} (decode : JsValue → Result A) (reply : NetResult) (v : A) :
  direct_result decode reply = Ok v →
  ∃ response data, reply = Settled response ∧ ok response = true
                   ∧ json response = Some data ∧ decode data = Ok v.
Proof.
  unfold direct_result. destruct reply as [msg|response]; [done|].
  destruct (ok response) eqn:Hok; [|done].
  destruct (json response) as [data|] eqn:Hjson; [|done].
  intros Hdecode. by exists response, data.
Qed.

(** A value returned by a resilient call was decoded from the body of a
    successful response. *)
Lemma resilient_returns {A} (invoke : bool → str → M A)
    (decode : JsValue → Result A) relay direct usingProxy apiKey P tr v tr' :
  Resilient invoke decode relay direct →
  invoke usingProxy apiKey P tr = (Ok v, tr') →
  ∃ data, replied P data ∧ decode data = Ok v.
Proof.
  intros Hres.
  destruct (Hres P tr apiKey) as (Hrelay & Hfallback & Hnokey & Hdirect & Hnokey').
  destruct usingProxy.
  - destruct (relay_result decode (net P tr relay)) as [v'|] eqn:Hr.
    { rewrite (Hrelay v' eq_refl). intros [= <- _].
      apply relay_result_Some in Hr as (response & data & ? & ? & ? & ?).
      exists data. split; [by exists tr, relay, response|done]. }
    destruct (decide (apiKey = [])) as [Hkey|Hkey].
    + by rewrite Hnokey.
    + rewrite Hfallback by done. intros [= Hv _].
      apply direct_result_Ok in Hv as (response & data & ? & ? & ? & ?).
      exists data. split; [by eexists _, _, response|done].
  - destruct (decide (apiKey = [])) as [Hkey|Hkey].
    + by rewrite Hnokey'.
    + rewrite Hdirect by done. intros [= Hv _].
      apply direct_result_Ok in Hv as (response & data & ? & ? & ? & ?).
      exists data. split; [by eexists _, _, response|done].
Qed.

Lemma searchTerms_of_Ok (data : JsValue) (searchTerms : list str) :
  searchTerms_of data = Ok searchTerms →
  ∃ reply, answer_text data = Ok (JStr reply)
           ∧ searchTerms = map JS.trim (JS.split "," (JS.trim reply)).
Proof.
  unfold searchTerms_of.
  destruct (answer_text data) as [v|e]; simpl; [|done].
  destruct v; simpl; try done. intros [= <-]. by eexists.
Qed.

Lemma trim_keeps_out (c : ascii) (s : str) : c ∉ s → c ∉ JS.trim s.
Proof.
  destruct (trim_spec s) as (l & r & Hs & _). intros Hc Hin. apply Hc.
  rewrite Hs, !elem_of_app. auto.
Qed.

(** The terms of a reply. *)
Lemma terms_of_reply (reply : str) :
  1 ≤ length (map JS.trim (JS.split "," reply))
  ∧ Forall (fun term => (","%char ∉ term) ∧ no_outer_space term)
           (map JS.trim (JS.split "," reply)).
Proof.
  split.
  - rewrite length_map. apply split_length.
  - apply Forall_fmap. eapply Forall_impl; [apply (split_pieces ","%char)|].
    intros piece Hpiece. simpl. split; [by apply trim_keeps_out|].
    by destruct (trim_spec piece) as (_ & _ & _ & _ & _ & ?).
Qed.

(** C9, as amended: the terms returned by [getSearchTerms] are the
    pieces between the commas of the text of the model reply, each
    trimmed, in their order; there is at least one term; no term has a
    comma or white space at its ends; a term may be empty. *)
Theorem C9_terms_of_reply (usingProxy : bool) (question apiKey : str)
    (P : Platform) (tr tr' : Trace) (searchTerms : list str) :
  getSearchTerms usingProxy question apiKey P tr = (Ok searchTerms, tr') →
  ∃ (data : JsValue) (reply : str),
    replied P data
    ∧ answer_text data = Ok (JStr reply)
    ∧ searchTerms = map JS.trim (JS.split "," reply)
    ∧ 1 ≤ length searchTerms
    ∧ Forall (fun term => (","%char ∉ term) ∧ no_outer_space term) searchTerms.
Proof.
  intros Hrun.
  destruct (resilient_returns
              (fun usingProxy apiKey => getSearchTerms usingProxy question apiKey)
              searchTerms_of _ _ usingProxy apiKey P tr searchTerms tr'
              (getSearchTerms_resilient question) Hrun)
    as (data & Hreplied & Hterms).
  apply searchTerms_of_Ok in Hterms as (reply & Htext & ->).
  rewrite trim_before_split. exists data, reply.
  split; [done|]. split; [done|]. split; [done|]. apply terms_of_reply.
Qed.

(** A reply that ends with a comma: three terms, the last one empty. *)
Lemma C9_terms_of_reply_witness :
  ∃ (data : JsValue) (reply : str),
    replied Scenario.trailing_comma data
    ∧ answer_text data = Ok (JStr reply)
    ∧ ["perceptron diagram" : str; "neural network node" : str; [] : str]
      = map JS.trim (JS.split "," reply)
    ∧ 1 ≤ length ["perceptron diagram" : str; "neural network node" : str; [] : str]
    ∧ Forall (fun term => (","%char ∉ term) ∧ no_outer_space term)
        ["perceptron diagram" : str; "neural network node" : str; [] : str].
Proof.
  apply (C9_terms_of_reply true "What is a perceptron?" [] Scenario.trailing_comma []
           (snd (getSearchTerms true "What is a perceptron?" []
                   Scenario.trailing_comma []))).
  vm_compute. reflexivity.
Defined.

(** C9, as stated, fails: the reply ends with a comma and the last term
    is the empty string. *)
Lemma C9_counterexample :
  ∃ searchTerms tr',
    getSearchTerms true "What is a perceptron?" [] Scenario.trailing_comma []
      = (Ok searchTerms, tr')
    ∧ ¬ Forall (fun term : str => term ≠ []) searchTerms.
Proof.
  exists ["perceptron diagram" : str; "neural network node" : str; [] : str].
  eexists. split; [vm_compute; reflexivity|].
  intros Hall. apply Forall_cons in Hall as [_ Hall].
  apply Forall_cons in Hall as [_ Hall].
  apply Forall_cons in Hall as [Hlast _]. done.
Qed.

End SearchTerms.

(** ** The alternative text *)

Section AltText.

Import WikimediaAPI.

(** What [clean_altText] does, by the length of the trimmed text. *)
Lemma clean_altText_cases (s : str) :
  (length (JS.trim s) < 200 → clean_altText s = JS.trim s)
  ∧ (length (JS.trim s) = 200 → clean_altText s = JS.trim s ++ "...")
  ∧ (200 < length (JS.trim s) → clean_altText s = take 200 (JS.trim s) ++ "...").
Proof.
  unfold clean_altText, JS.substring0. cbv zeta.
  split; [|split]; intros Hlen.
  - rewrite take_ge by lia.
    destruct (length (JS.trim s) =? 200)%nat eqn:Heq; [|done].
    apply Nat.eqb_eq in Heq. lia.
  - rewrite take_ge by lia. by rewrite Hlen.
  - rewrite length_take, Nat.min_l by lia. done.
Qed.

(** C10 on a description of 200 characters: the chain selects the
    description, nothing of it is cut, and the ellipsis is appended all
    the same. *)
Theorem C10_ellipsis_without_truncation :
  length Scenario.description_200 = 200
  ∧ altText_source Scenario.metadata_200 (JStr "File:A.png")
    = Ok (JStr Scenario.description_200)
  ∧ JS.substring0 200 (JS.trim Scenario.description_200) = Scenario.description_200
  ∧ altText_of Scenario.metadata_200 (JStr "File:A.png")
    = Ok (Scenario.description_200 ++ "...").
Proof. repeat split; vm_compute; reflexivity. Qed.

End AltText.

(** ** Further properties of the image processor *)

Section ImageProcessorMore.

Import ImageProcessor AppController Admission.

Lemma split_piece_length sep (s : str) :
  Forall (fun piece => length piece ≤ length s) (JS.split sep s).
Proof.
  induction s as [|c s IH]; [by repeat constructor|].
  destruct (decide (c = sep)) as [->|Hc].
  - rewrite split_cons_sep. constructor; [simpl; lia|].
    eapply Forall_impl; [exact IH|]. simpl. lia.
  - destruct (split_cons_other sep c s) as (piece & pieces & Hsplit & ->); [done|].
    rewrite Hsplit in IH. apply Forall_cons in IH as [Hpiece Hpieces].
    constructor; [simpl; lia|].
    eapply Forall_impl; [exact Hpieces|]. simpl. lia.
Qed.

Lemma ceil_quarter_bounds (n : Z) :
  (0 <= n)%Z →
  (n <= 4 * ceil_quarter n < n + 4)%Z.
Proof.
  intros Hn. unfold ceil_quarter.
  pose proof (Z.div_mod (n + 3) 4 ltac:(lia)).
  pose proof (Z.mod_pos_bound (n + 3) 4 ltac:(lia)). lia.
Qed.

(** X1: the estimate is the number of bytes that the base64 text after the
    comma of a data URL encodes, rounded up: three quarters of its
    length.  Without a comma, or with nothing after it, the whole string
    is measured.  The estimate is never negative and never above the
    length of the string. *)
Theorem estimate_three_quarters :
  (∀ s : str, (0 <= estimateBase64Size s <= Z.of_nat (length s))%Z)
  ∧ (∀ prefix payload : str,
       ","%char ∉ prefix → ","%char ∉ payload → payload ≠ [] →
       (3 * Z.of_nat (length payload)
          <= 4 * estimateBase64Size (prefix ++ ","%char :: payload)
          < 3 * Z.of_nat (length payload) + 4)%Z)
  ∧ (∀ s : str,
       ","%char ∉ s →
       (3 * Z.of_nat (length s) <= 4 * estimateBase64Size s
          < 3 * Z.of_nat (length s) + 4)%Z)
  ∧ (∀ prefix : str,
       ","%char ∉ prefix →
       estimateBase64Size (prefix ++ [","%char])
       = ceil_quarter (Z.of_nat (length prefix + 1) * 3)).
Proof.
  split; [|split; [|split]].
  - intros s. split; [apply estimateBase64Size_nonneg|].
    unfold estimateBase64Size.
    assert (∀ t : str, length t ≤ length s →
              (ceil_quarter (Z.of_nat (length t) * 3) <= Z.of_nat (length s))%Z) as Hle.
    { intros t Ht. pose proof (ceil_quarter_bounds (Z.of_nat (length t) * 3)). lia. }
    pose proof (split_piece_length ","%char s) as Hpieces.
    destruct (JS.split ","%char s) as [|first [|second rest]]; [by apply Hle..|].
    apply Forall_cons in Hpieces as [_ Hpieces].
    apply Forall_cons in Hpieces as [Hsecond _].
    case_bool_decide; by apply Hle.
  - intros prefix payload Hprefix Hpayload Hne. unfold estimateBase64Size.
    rewrite (split_app_sep _ _ _ Hprefix), (split_no_sep _ _ Hpayload).
    cbv beta iota zeta. rewrite bool_decide_eq_false_2 by done.
    pose proof (ceil_quarter_bounds (Z.of_nat (length payload) * 3)). lia.
  - intros s Hs. unfold estimateBase64Size. rewrite (split_no_sep _ _ Hs).
    cbv beta iota zeta. pose proof (ceil_quarter_bounds (Z.of_nat (length s) * 3)). lia.
  - intros prefix Hprefix. unfold estimateBase64Size.
    rewrite (split_app_sep _ _ _ Hprefix).
    change (JS.split ","%char []) with [[] : str].
    cbv beta iota zeta. rewrite bool_decide_eq_true_2 by done.
    by rewrite length_app.
Qed.

Lemma estimate_three_quarters_witness :
  (3 * 8 <= 4 * estimateBase64Size "data:image/png;base64,AAAAAAAA" < 3 * 8 + 4)%Z
  ∧ (3 * 4 <= 4 * estimateBase64Size "AAAA" < 3 * 4 + 4)%Z
  ∧ estimateBase64Size "data:," = 5%Z.
Proof.
  destruct estimate_three_quarters as (_ & Hurl & Hplain & Hempty).
  split; [|split].
  - apply (Hurl "data:image/png;base64" "AAAAAAAA").
    + intros Hin%list_elem_of_In. vm_compute in Hin. intuition discriminate.
    + intros Hin%list_elem_of_In. vm_compute in Hin. intuition discriminate.
    + discriminate.
  - apply (Hplain "AAAA").
    intros Hin%list_elem_of_In. vm_compute in Hin. intuition discriminate.
  - apply (Hempty "data:").
    intros Hin%list_elem_of_In. vm_compute in Hin. intuition discriminate.
Defined.

End ImageProcessorMore.

(** ** Further properties of the admission pipeline *)

Section AdmissionMore.

Import ImageProcessor AppController Admission Requests Placeholders.

Context (cfg : Config) (P : Platform).

(** X2: a size probe never raises and costs one [HEAD] request; it lets the
    image through exactly when the reply was successful and carried no
    usable [Content-Length], or one of at most the ceiling.  A rejected
    request, a status that is not ok, and a header that is no number all
    make it answer [false]. *)
Theorem probe_never_raises (u : str) (tr : Trace) :
  ∃ within,
    checkImageSize cfg u P tr = (Ok within, tr ++ [HttpHead u])
    ∧ (within = true ↔ Admission.probe_passed cfg (net P tr (HttpHead u)))
    ∧ ((∃ msg, net P tr (HttpHead u) = Rejected msg) → within = false)
    ∧ ((∃ r, net P tr (HttpHead u) = Settled r ∧ ok r = false) → within = false)
    ∧ ((∃ r header, net P tr (HttpHead u) = Settled r
                    ∧ contentLength r = Some header ∧ header ≠ []
                    ∧ JS.parseInt10 header = None) → within = false).
Proof.
  destruct (checkImageSize_run cfg P u tr) as (within & Hrun & Hwithin).
  exists within. split; [done|]. split; [done|].
  assert (∀ b : bool, ¬ b = true → b = false) as Hfalse by (by intros []).
  split; [|split].
  - intros [msg Hnet]. apply Hfalse. rewrite Hwithin, Hnet.
    intros (r & ? & _). done.
  - intros (r & Hnet & Hok). apply Hfalse. rewrite Hwithin, Hnet.
    intros (r' & [= <-] & ? & _). congruence.
  - intros (r & header & Hnet & Hcl & Hne & Hparse). apply Hfalse.
    rewrite Hwithin, Hnet.
    intros (r' & [= <-] & _ & [?|[?|(h & n & ? & ? & _)]]); congruence.
Qed.






(** *** The titles of the admitted images *)

Lemma lower_char_normalized (c : ascii) :
  JS.is_white c = false →
  JS.is_white (JS.lower_char c) = false
  ∧ JS.lower_char (JS.lower_char c) = JS.lower_char c.
Proof. by destruct c as [[] [] [] [] [] [] [] []]; vm_compute. Qed.

Lemma ws_runs_from_no_white (in_run : bool) (s : str) :
  Forall (fun c => JS.is_white c = false) (JS.ws_runs_from in_run s).
Proof.
  revert in_run. induction s as [|c s IH]; intros in_run; simpl; [constructor|].
  destruct (JS.is_white c) eqn:Hc.
  - destruct in_run; [apply IH|]. constructor; [done|apply IH].
  - constructor; [done|apply IH].
Qed.

Lemma fileName_normalized (t : str) :
  normalized (JS.toLowerCase (JS.ws_runs_to_underscore t)).
Proof.
  unfold normalized, JS.toLowerCase, JS.ws_runs_to_underscore.
  apply Forall_fmap. eapply Forall_impl; [apply ws_runs_from_no_white|].
  intros c Hc. by apply lower_char_normalized.
Qed.

Lemma replace_png_normalized (fileName : str) :
  normalized fileName → normalized (JS.replace fileName ".svg" ".png").
Proof.
  intros Hnorm. unfold JS.replace.
  destruct (JS.indexOf fileName ".svg") as [pos|]; [|done].
  cbv zeta. change (JS.GetSubstitution _ _ _ _) with (".png" : str).
  unfold normalized in *. rewrite !Forall_app.
  split; [by apply Forall_take|]. split; [|by apply Forall_drop].
  repeat constructor.
Qed.

Lemma new_title_normalized (u : str) (img : Image) :
  normalized (new_title u img).
Proof.
  unfold new_title. destruct (JS.endsWith u ".svg").
  - apply replace_png_normalized, fileName_normalized.
  - apply fileName_normalized.
Qed.

Lemma normalized_toLowerCase (s : str) : normalized s → JS.toLowerCase s = s.
Proof.
  unfold JS.toLowerCase. induction 1 as [|c s [_ Hc] _ IH]; simpl; [done|].
  by rewrite Hc, IH.
Qed.

Lemma trimStart_no_white (s : str) :
  Forall (fun c => JS.is_white c = false) s → JS.trimStart s = s.
Proof. destruct 1 as [|c s Hc _]; [done|]. by apply trimStart_head. Qed.

Lemma trim_no_white (s : str) :
  Forall (fun c => JS.is_white c = false) s → JS.trim s = s.
Proof.
  intros Hs. unfold JS.trim, JS.trimEnd.
  rewrite (trimStart_no_white s Hs).
  rewrite trimStart_no_white by by apply Forall_reverse.
  apply reverse_involutive.
Qed.

Lemma normalized_trim (s : str) : normalized s → JS.trim s = s.
Proof.
  intros Hnorm. apply trim_no_white.
  eapply Forall_impl; [exact Hnorm|]. by intros c [? _].
Qed.

Lemma admitted_titles_normalized (imageDetails : list Image) (tr : Trace) :
  ∃ result tr',
    processImages cfg imageDetails P tr = (Ok result, tr')
    ∧ Forall (fun p => normalized (title p)) result.
Proof.
  destruct (processImages_run cfg P imageDetails tr)
    as (admitted & total & tr' & _ & Hrun & _ & _ & kept & _ & Hall).
  exists (take (MAX_IMAGES cfg) admitted), tr'. split; [done|].
  apply Forall_take. clear Hrun.
  induction Hall as [|d p kept admitted Hdp _ IH]; constructor; [|done].
  destruct Hdp as (u & b & tr0 & _ & -> & _). apply new_title_normalized.
Qed.

(** X4: the title under which [processImages] returns an image, which is
    the file name that the vision model is told, has no white space and
    no letter in upper case: lowering its case and trimming it leave it
    as it is. *)
Theorem admitted_titles_are_normalized (imageDetails : list Image) (tr : Trace) :
  ∃ result tr',
    processImages cfg imageDetails P tr = (Ok result, tr')
    ∧ ∀ p, p ∈ result →
        Forall (fun c => JS.is_white c = false) (title p)
        ∧ JS.toLowerCase (title p) = title p
        ∧ JS.trim (title p) = title p.
Proof.
  destruct (admitted_titles_normalized imageDetails tr) as (result & tr' & Hrun & Hall).
  exists result, tr'. split; [done|]. intros p Hp.
  rewrite Forall_forall in Hall. specialize (Hall p Hp).
  split; [|split].
  - eapply Forall_impl; [exact Hall|]. by intros c [? _].
  - by apply normalized_toLowerCase.
  - by apply normalized_trim.
Qed.

(** X5: a placeholder that repeats the file name of an admitted image as it
    was told to the model always finds an image: the first entry of the
    result whose title answers to that name, which is the image itself
    unless an earlier one answers to it too. *)
Theorem told_filename_resolves (imageDetails : list Image) (tr : Trace) :
  ∃ result tr',
    processImages cfg imageDetails P tr = (Ok result, tr')
    ∧ ∀ earlier p later, result = earlier ++ p :: later →
        (∃ q, find_image (title p) result = Some q
              ∧ Matches (title p) q)
        ∧ (Forall (fun other => ¬ Matches (title p) other) earlier →
           find_image (title p) result = Some p).
Proof.
  destruct (admitted_titles_normalized imageDetails tr) as (result & tr' & Hrun & Hall).
  exists result, tr'. split; [done|]. intros earlier p later ->.
  apply Forall_app in Hall as [_ [Hp _]%Forall_cons].
  assert (JS.trim (JS.toLowerCase (title p)) = title p) as Hname.
  { by rewrite (normalized_toLowerCase _ Hp), (normalized_trim _ Hp). }
  assert (Matches (title p) p) as Hself.
  { left. by apply normalized_toLowerCase. }
  split.
  - destruct (find_image (title p) (earlier ++ p :: later)) as [q|] eqn:Hfind.
    + exists q. split; [done|].
      apply find_image_first in Hfind as (? & ? & _ & _ & Hq).
      by rewrite Hname in Hq.
    + apply find_image_none in Hfind. rewrite Hname in Hfind.
      apply Forall_app in Hfind as [_ [Hnot _]%Forall_cons]. done.
  - intros Hearlier. apply find_image_first. rewrite Hname.
    by exists earlier, later.
Qed.

End AdmissionMore.

(** ** Further properties of the calls to the media repository *)

Section WikimediaMore.

Import WikimediaAPI Requests.

Lemma bind_Ok {A B} (m : Result A) (k : A → Result B) (b : B) :
  (x ← m; k x) = Ok b → ∃ a, m = Ok a ∧ k a = Ok b.
Proof. destruct m as [a|e]; simpl; [eauto|done]. Qed.











Lemma getImageDetails_run (imageTitle : JsValue) (P : Platform) (tr : Trace) :
  ∃ details,
    getImageDetails imageTitle P tr
      = (Ok details, tr ++ [HttpGet (details_url P imageTitle)]).
Proof.
  unfold getImageDetails, details_url.
  cbv beta iota zeta delta [bind try_catch fetch response_json lift throw ret].
  destruct (net P tr _) as [msg|r]; [by eexists|].
  destruct (ok r); cbv beta iota zeta delta [negb]; [|by eexists].
  destruct (json r) as [data|]; cbv beta iota zeta; [|by eexists].
  destruct (details_of data imageTitle); by eexists.
Qed.


(** X9: the license of an image whose metadata names none is the text
    [Unknown license], and its attribution without an artist is empty;
    the caption of such an image, and of one with an empty license, is
    the line [Source: Wikimedia Commons] alone, without a license and
    without an attribution line. *)
Theorem unknown_license_caption (P : Platform) :
  (∀ metadata,
     get metadata "LicenseShortName" = Ok JUndefined →
     get metadata "License" = Ok JUndefined →
     license_of metadata = Ok ("Unknown license" : str))
  ∧ (∀ metadata,
       get metadata "Artist" = Ok JUndefined → attribution_of metadata = Ok [])
  ∧ (∀ img,
       license img = "Unknown license" ∨ license img = [] →
       JS.trim (attribution img) = [] →
       AppController.figcaption_of P img
       = innerHTML P "<small>Source: Wikimedia Commons</small>").
Proof.
  split; [|split].
  - intros metadata Hshort Hlong. unfold license_of, field_value.
    rewrite Hshort. simpl. by rewrite Hlong.
  - intros metadata Hartist. unfold attribution_of, field_value.
    by rewrite Hartist.
  - intros img Hlicense Hattr. unfold AppController.figcaption_of.
    rewrite Hattr. rewrite (bool_decide_eq_true_2 ([] = [])) by done.
    rewrite andb_false_r. cbv zeta.
    destruct Hlicense as [-> | ->]; vm_compute; reflexivity.
Qed.

End WikimediaMore.

(** ** Further properties of the composition of the answer *)

Section FormatMore.

Import AppController Placeholders.

(** *** The alternative text of a figure *)






(** *** The replacement of a placeholder *)

Lemma GetSubstitution_literal (matched before after template : str) :
  Forall (fun c => JS.is_char 36 c = false) template →
  JS.GetSubstitution matched before after template = template.
Proof.
  induction 1 as [|c template Hc _ IH]; simpl; [done|]. by rewrite Hc, IH.
Qed.

Lemma substitute_verbatim (P : Platform) (processedImages : list Image)
    (formattedResponse placeholder filename : str) (img : Image) (i : nat) :
  find_image filename processedImages = Some img →
  JS.indexOf formattedResponse placeholder = Some i →
  Forall (fun c => JS.is_char 36 c = false) (imgTag_of P img) →
  substitute P processedImages formattedResponse (placeholder, filename)
  = take i formattedResponse ++ imgTag_of P img
    ++ drop (i + length placeholder) formattedResponse.
Proof.
  intros Hfind Hi Htag. unfold substitute. cbn [fst snd]. rewrite Hfind.
  destruct (replace_first _ _ (imgTag_of P img) _ Hi) as [_ ->].
  by rewrite GetSubstitution_literal.
Qed.

(** X11: the step for a placeholder that has an image replaces the first
    occurrence of the placeholder in the current text, and only that
    one, by the figure of the image; the figure is inserted as it is
    when it holds no dollar sign.  When the placeholder no longer occurs
    in the current text, the step leaves the text as it is. *)
Theorem figure_replaces_first_occurrence (P : Platform)
    (processedImages : list Image) (formattedResponse placeholder filename : str)
    (img : Image) :
  find_image filename processedImages = Some img →
  (∀ i, JS.indexOf formattedResponse placeholder = Some i →
        Forall (fun c => JS.is_char 36 c = false) (imgTag_of P img) →
        formattedResponse
        = take i formattedResponse ++ placeholder
          ++ drop (i + length placeholder) formattedResponse
        ∧ substitute P processedImages formattedResponse (placeholder, filename)
          = take i formattedResponse ++ imgTag_of P img
            ++ drop (i + length placeholder) formattedResponse
        ∧ ∀ j, j < i → ¬ placeholder `prefix_of` drop j formattedResponse)
  ∧ (JS.indexOf formattedResponse placeholder = None →
     substitute P processedImages formattedResponse (placeholder, filename)
     = formattedResponse).
Proof.
  intros Hfind. split.
  - intros i Hi Htag. split; [by apply (replace_first _ _ [] _ Hi)|].
    split; [by apply substitute_verbatim|].
    intros j Hj Hpre%startsWith_prefix.
    apply indexOf_Some in Hi as (_ & _ & Hfirst). by rewrite Hfirst in Hpre.
  - intros Hnone. unfold substitute. cbn [fst snd]. rewrite Hfind.
    by apply replace_absent.
Qed.

(** *** A reply with one placeholder *)

Lemma startsWith_other (c a : ascii) (s p : str) :
  c ≠ a → JS.startsWith (c :: s) (a :: p) = false.
Proof.
  intros Hc. cbn [JS.startsWith].
  assert (Ascii.eqb a c = false) as ->; [|done]. apply Ascii.eqb_neq. congruence.
Qed.

Lemma exec_from_no_bracket (before rest : str) :
  "["%char ∉ before → JS.exec_from 0 (before ++ rest) = JS.exec_from 0 rest.
Proof.
  induction before as [|c before IH]; intros Hnot; [done|].
  apply not_elem_of_cons in Hnot as [Hc Hbefore].
  change ((c :: before) ++ rest) with (c :: (before ++ rest)).
  unfold JS.exec_from; fold JS.exec_from.
  assert (JS.startsWith (c :: before ++ rest) "[[[" = false) as ->.
  { by apply (startsWith_other c "["%char _ "[["). }
  by apply IH.
Qed.

Lemma exec_from_skip (passed rest : str) :
  JS.exec_from (length passed) (passed ++ rest) = JS.exec_from 0 rest.
Proof.
  induction passed as [|c passed IH]; simpl; [|done].
  by destruct rest.
Qed.

Lemma exec_from_none (s : str) : "["%char ∉ s → JS.exec_from 0 s = [].
Proof.
  intros Hs. rewrite <-(right_id_L [] (++) s).
  by rewrite exec_from_no_bracket.
Qed.

Lemma close_len_run (f rest : str) :
  "]"%char ∉ f → Forall (fun c => JS.is_line_terminator c = false) f →
  JS.close_len (f ++ "]]]" ++ rest) = Some (length f).
Proof.
  induction f as [|c f IH]; intros Hnot Hline.
  { simpl. by destruct rest. }
  apply not_elem_of_cons in Hnot as [Hc Hnot].
  apply Forall_cons in Hline as [Hlt Hline].
  change ((c :: f) ++ "]]]" ++ rest) with (c :: (f ++ "]]]" ++ rest)).
  unfold JS.close_len; fold JS.close_len.
  assert (JS.startsWith (c :: f ++ "]]]" ++ rest) "]]]" = false) as ->.
  { by apply (startsWith_other c "]"%char _ "]]"). }
  rewrite Hlt, IH by done. done.
Qed.

Lemma exec_all_single (before f after : str) :
  "["%char ∉ before → "["%char ∉ after → "]"%char ∉ f →
  Forall (fun c => JS.is_line_terminator c = false) f →
  JS.exec_all (before ++ token f ++ after)
  = [{| JS.match0 := token f; JS.match1 := f |}].
Proof.
  intros Hbefore Hafter Hf Hline. unfold JS.exec_all.
  rewrite exec_from_no_bracket by done. unfold token.
  change (("[[[" ++ f ++ "]]]") ++ after)
    with ("["%char :: ("[[" ++ f ++ "]]]") ++ after).
  unfold JS.exec_from; fold JS.exec_from.
  change (JS.startsWith ("["%char :: ("[[" ++ f ++ "]]]") ++ after) "[[[") with true.
  cbv iota.
  change (drop 3 ("["%char :: ("[[" ++ f ++ "]]]") ++ after))
    with ((f ++ "]]]") ++ after).
  rewrite <-(assoc_L (++) f). rewrite close_len_run by done.
  rewrite take_app_length. f_equal.
  replace (length f + 5) with (length ("[[" ++ f ++ "]]]" : str)).
  2:{ rewrite !length_app. simpl. lia. }
  rewrite exec_from_skip. by apply exec_from_none.
Qed.

Lemma indexOf_here (s p : str) :
  JS.startsWith s p = true → JS.indexOf s p = Some 0.
Proof. intros Hstart. destruct s; cbn [JS.indexOf]; by rewrite Hstart. Qed.

Lemma indexOf_after_no_bracket (before f after : str) :
  "["%char ∉ before →
  JS.indexOf (before ++ token f ++ after) (token f) = Some (length before).
Proof.
  induction before as [|c before IH]; intros Hnot.
  - apply indexOf_here, startsWith_prefix. by exists after.
  - apply not_elem_of_cons in Hnot as [Hc Hnot].
    change ((c :: before) ++ token f ++ after)
      with (c :: (before ++ token f ++ after)).
    unfold JS.indexOf; fold JS.indexOf.
    assert (JS.startsWith (c :: before ++ token f ++ after) (token f) = false) as ->.
    { by apply (startsWith_other c "["%char _ ("[[" ++ f ++ "]]]")). }
    by rewrite IH.
Qed.

(** X12: a reply with one placeholder, well formed and apart from any other
    bracket, that names a file for which an image is found: the answer
    is the text around the placeholder, untouched, with the figure of
    that image where the placeholder stood, converted from markdown. *)
Theorem single_placeholder_rendered (P : Platform) (processedImages : list Image)
    (before filename after : str) (img : Image) :
  "["%char ∉ before → "["%char ∉ after → "]"%char ∉ filename →
  Forall (fun c => JS.is_line_terminator c = false) filename →
  find_image filename processedImages = Some img →
  Forall (fun c => JS.is_char 36 c = false) (imgTag_of P img) →
  formatResponse P (before ++ token filename ++ after) processedImages
  = marked_parse P (before ++ imgTag_of P img ++ after).
Proof.
  intros Hbefore Hafter Hname Hline Hfind Htag.
  unfold formatResponse, substituted, imagePlaceholders.
  rewrite exec_all_single by done. cbn [foldl assign JS.match0 JS.match1].
  rewrite (substitute_verbatim _ _ _ _ _ img (length before)); try done.
  2:{ by apply indexOf_after_no_bracket. }
  by rewrite take_app_length, <-drop_drop, !drop_app_length.
Qed.

Lemma single_placeholder_rendered_witness :
  formatResponse Scenario.offline "See the dog: [[[Dog.PNG]]]. It barks."
    [Scenario.dog_png; Scenario.cat_png]
  = "See the dog: " ++ imgTag_of Scenario.offline Scenario.dog_png ++ ". It barks.".
Proof.
  apply (single_placeholder_rendered Scenario.offline
           [Scenario.dog_png; Scenario.cat_png]
           "See the dog: " "Dog.PNG" ". It barks." Scenario.dog_png).
  - intros Hin%list_elem_of_In. vm_compute in Hin. intuition discriminate.
  - intros Hin%list_elem_of_In. vm_compute in Hin. intuition discriminate.
  - intros Hin%list_elem_of_In. vm_compute in Hin. intuition discriminate.
  - repeat constructor.
  - vm_compute. reflexivity.
  - apply Forall_forall. intros c Hin%list_elem_of_In.
    vm_compute in Hin. repeat (destruct Hin as [<-|Hin]; [reflexivity|]).
    destruct Hin.
Defined.

Lemma figure_replaces_first_occurrence_witness :
  substitute Scenario.offline [Scenario.dog_png; Scenario.cat_png]
    "One [[[dog.png]]] and again [[[dog.png]]]."
    ("[[[dog.png]]]" : str, "dog.png" : str)
  = "One " ++ imgTag_of Scenario.offline Scenario.dog_png
    ++ " and again [[[dog.png]]].".
Proof.
  destruct (figure_replaces_first_occurrence Scenario.offline
              [Scenario.dog_png; Scenario.cat_png]
              "One [[[dog.png]]] and again [[[dog.png]]]."
              "[[[dog.png]]]" "dog.png" Scenario.dog_png) as [Hfirst _].
  { vm_compute. reflexivity. }
  destruct (Hfirst 4) as (_ & -> & _).
  - vm_compute. reflexivity.
  - apply Forall_forall. intros c Hin%list_elem_of_In.
    vm_compute in Hin. repeat (destruct Hin as [<-|Hin]; [reflexivity|]).
    destruct Hin.
  - reflexivity.
Defined.

End FormatMore.

(** ** The placeholders of a reply and the tags of a metadata text *)

Section LayoutMore.

Import AppController Placeholders Layout.

Lemma close_len_min (s : str) (k : nat) :
  JS.close_len s = Some k →
  ∀ j, j < k → JS.startsWith (drop j s) "]]]" = false.
Proof.
  revert k. induction s as [|c s IH]; intros k.
  - unfold JS.close_len. destruct (JS.startsWith [] "]]]"); [|done].
    intros [= <-] j Hj. lia.
  - unfold JS.close_len; fold JS.close_len.
    destruct (JS.startsWith (c :: s) "]]]") eqn:Hclose.
    + intros [= <-] j Hj. lia.
    + destruct (JS.is_line_terminator c); [done|].
      destruct (JS.close_len s) as [k'|] eqn:Hk; [|done].
      intros [= <-] [|j] Hj; [done|]. apply (IH k' eq_refl). lia.
Qed.

Lemma close_len_bound (s : str) (k : nat) :
  JS.close_len s = Some k → k + 3 ≤ length s.
Proof.
  intros (rest & Hrest & _)%close_len_Some.
  apply (f_equal length) in Hrest. rewrite !length_app, length_take in Hrest.
  simpl in Hrest. lia.
Qed.

Lemma exec_from_weave (s : str) :
  ∀ skip, ∃ gaps rest,
    length gaps = length (JS.exec_from skip s)
    ∧ drop skip s = weave gaps (map JS.match0 (JS.exec_from skip s)) rest.
Proof.
  induction s as [|c s IH]; intros skip.
  { exists [], []. by destruct skip. }
  assert (∃ gaps rest,
            length gaps = length (JS.exec_from 0 s)
            ∧ c :: s = weave gaps (map JS.match0 (JS.exec_from 0 s)) rest) as Hlater.
  { destruct (IH 0) as (gaps & rest & Hlen & Hs). rewrite drop_0 in Hs.
    destruct (JS.exec_from 0 s) as [|m ms].
    - exists [], (c :: s). by destruct gaps.
    - destruct gaps as [|gap gaps]; [done|].
      exists ((c :: gap) :: gaps), rest. split; [done|].
      simpl in *. by rewrite <-Hs. }
  unfold JS.exec_from; fold JS.exec_from.
  destruct skip as [|skip]; [|apply IH]. rewrite drop_0.
  destruct (JS.startsWith (c :: s) "[[[") eqn:Hopen; [|apply Hlater].
  destruct (JS.close_len (drop 3 (c :: s))) as [k|] eqn:Hk; [|apply Hlater].
  destruct (IH (k + 5)) as (gaps & rest & Hlen & Hs).
  exists ([] :: gaps), rest. split; [simpl; by rewrite Hlen|].
  cbn [map weave JS.match0]. rewrite <-Hs, app_nil_l.
  apply startsWith_prefix in Hopen as [body Hbody].
  pose proof (close_len_bound _ _ Hk) as Hbound.
  apply close_len_Some in Hk as (after & Hafter & _).
  rewrite Hbody in Hafter, Hbound |- *.
  change (drop 3 ("[[[" ++ body)) with body in *.
  assert (length (take k body) = k) as Htake.
  { rewrite length_take. lia. }
  rewrite Hafter at 1.
  assert (drop (k + 5) s = after) as ->; [|by rewrite <-!(assoc_L (++))].
  assert (s = "[[" ++ body) as -> by (by injection Hbody).
  rewrite Hafter.
  replace (k + 5) with (length ("[[" ++ take k body ++ "]]]" : str)).
  2:{ rewrite !length_app, Htake. simpl. lia. }
  rewrite !(assoc_L (++)). by rewrite drop_app_length.
Qed.

Lemma exec_from_filenames (s : str) :
  ∀ skip, Forall (fun m => Forall (fun c => JS.is_line_terminator c = false)
                                  (JS.match1 m)
                           ∧ JS.includes (JS.match1 m) "]]]" = false
                           ∧ last (JS.match1 m) ≠ Some "]"%char)
                 (JS.exec_from skip s).
Proof.
  induction s as [|c s IH]; intros skip; [by destruct skip; constructor|].
  unfold JS.exec_from; fold JS.exec_from.
  destruct skip as [|skip]; [|apply IH].
  destruct (JS.startsWith (c :: s) "[[[") eqn:Hopen; [|apply IH].
  destruct (JS.close_len (drop 3 (c :: s))) as [k|] eqn:Hk; [|apply IH].
  constructor; [|apply IH]. cbn [JS.match1].
  pose proof (close_len_min _ _ Hk) as Hmin.
  pose proof (close_len_bound _ _ Hk) as Hbound.
  apply close_len_Some in Hk as (after & Hafter & Hline).
  set (body := drop 3 (c :: s)) in *. set (f := take k body) in *.
  assert (length f = k) as Hlen.
  { unfold f. rewrite length_take. lia. }
  split; [done|]. split.
  - destruct (JS.includes f "]]]") eqn:Hinc; [|done].
    apply includes_spec in Hinc as (b & a & Hf).
    assert (length b < k) as Hj.
    { rewrite <-Hlen, Hf, !length_app. simpl. lia. }
    specialize (Hmin _ Hj). rewrite Hafter, Hf in Hmin.
    rewrite <-!(assoc_L (++)), drop_app_length in Hmin.
    assert (JS.startsWith ("]]]" ++ a ++ "]]]" ++ after) "]]]" = true) as Hstart
      by (apply startsWith_prefix; by eexists).
    congruence.
  - intros Hlast. apply last_Some in Hlast as [f' Hf].
    assert (length f' < k) as Hj.
    { rewrite <-Hlen, Hf, length_app. simpl. lia. }
    specialize (Hmin _ Hj). rewrite Hafter, Hf in Hmin.
    rewrite <-!(assoc_L (++)), drop_app_length in Hmin.
    assert (JS.startsWith (["]"%char] ++ "]]]" ++ after) "]]]" = true) as Hstart
      by (apply startsWith_prefix; by exists ("]"%char :: after)).
    congruence.
Qed.

(** X13: the placeholders found in a reply are pieces of the reply that
    follow one another without overlapping: the reply reads a gap, the
    first placeholder, a gap, the second placeholder, and so on.  The
    file name of each is what its brackets enclose; it holds no line
    break and no three closing brackets, and does not end with a closing
    bracket, the enclosed text being as short as can be. *)
Theorem placeholders_are_disjoint_pieces (geminiResponse : str) :
  (∃ gaps rest,
     length gaps = length (tokens geminiResponse)
     ∧ geminiResponse = weave gaps (tokens geminiResponse) rest)
  ∧ Forall (fun m =>
              JS.match0 m = token (JS.match1 m)
              ∧ Forall (fun c => JS.is_line_terminator c = false) (JS.match1 m)
              ∧ JS.includes (JS.match1 m) "]]]" = false
              ∧ last (JS.match1 m) ≠ Some "]"%char)
           (JS.exec_all geminiResponse).
Proof.
  split.
  - destruct (exec_from_weave geminiResponse 0) as (gaps & rest & Hlen & Hs).
    exists gaps, rest. unfold tokens, JS.exec_all.
    rewrite length_map. split; [done|]. by rewrite drop_0 in Hs.
  - apply Forall_forall. intros m Hm. split.
    + by apply (exec_from_token geminiResponse 0 m).
    + pose proof (exec_from_filenames geminiResponse 0) as Hall.
      rewrite Forall_forall in Hall. by apply Hall.
Qed.

(** *** Tags *)

Lemma strip_tags_from_drop (s : str) :
  ∀ skip, JS.strip_tags_from skip s = JS.strip_tags_from 0 (drop skip s).
Proof.
  induction s as [|c s IH]; intros [|skip]; try done. simpl. apply IH.
Qed.

Lemma tag_len_bound (s : str) (k : nat) : JS.tag_len s = Some k → k ≤ length s.
Proof.
  revert k. induction s as [|c s IH]; intros k; simpl; [done|].
  destruct (JS.is_char 62 c); [intros [= <-]; lia|].
  destruct (JS.is_line_terminator c); [done|].
  destruct (JS.tag_len s) as [k'|]; [|done].
  intros [= <-]. specialize (IH k' eq_refl). lia.
Qed.

Lemma lt_not_line_terminator (c : ascii) :
  JS.is_char 60 c = true → JS.is_line_terminator c = false.
Proof. by destruct c as [[] [] [] [] [] [] [] []]; vm_compute. Qed.

Lemma tag_len_None_strip (s : str) :
  JS.tag_len s = None → JS.tag_len (JS.strip_tags_from 0 s) = None.
Proof.
  induction s as [|c s IH]; [done|].
  cbn [JS.tag_len JS.strip_tags_from].
  destruct (JS.is_char 62 c) eqn:Hgt; [done|].
  destruct (JS.is_line_terminator c) eqn:Hline.
  - intros _. destruct (JS.is_char 60 c) eqn:Hlt.
    { apply lt_not_line_terminator in Hlt. congruence. }
    cbn [JS.tag_len]. by rewrite Hgt, Hline.
  - destruct (JS.tag_len s) as [k|] eqn:Hk; [done|]. intros _.
    destruct (JS.is_char 60 c); cbn [JS.tag_len]; rewrite Hgt, Hline, IH; done.
Qed.

Lemma strip_tags_from_length (s : str) :
  ∀ skip, length (JS.strip_tags_from skip s) ≤ length s.
Proof.
  induction s as [|c s IH]; intros skip; [by destruct skip|].
  cbn [JS.strip_tags_from]. destruct skip as [|skip].
  - destruct (JS.is_char 60 c); [destruct (JS.tag_len s) as [k|]|].
    + specialize (IH k). simpl. lia.
    + specialize (IH 0). simpl. lia.
    + specialize (IH 0). simpl. lia.
  - specialize (IH skip). simpl. lia.
Qed.

Lemma strip_tags_idempotent_upto (n : nat) :
  ∀ s : str, length s ≤ n →
    JS.strip_tags_from 0 (JS.strip_tags_from 0 s) = JS.strip_tags_from 0 s.
Proof.
  induction n as [|n IH]; intros [|c s] Hlen; try done; [simpl in Hlen; lia|].
  simpl in Hlen. cbn [JS.strip_tags_from].
  destruct (JS.is_char 60 c) eqn:Hlt.
  - destruct (JS.tag_len s) as [k|] eqn:Hk.
    + rewrite (strip_tags_from_drop s k). apply IH. rewrite length_drop. lia.
    + cbn [JS.strip_tags_from]. rewrite Hlt, (tag_len_None_strip _ Hk).
      f_equal. apply IH. lia.
  - cbn [JS.strip_tags_from]. rewrite Hlt. f_equal. apply IH. lia.
Qed.

Lemma tag_len_found (body after : str) :
  Forall (fun c => JS.is_line_terminator c = false) body →
  JS.tag_len (body ++ ">"%char :: after) ≠ None.
Proof.
  induction 1 as [|c body Hc _ IH]; [done|].
  cbn [app JS.tag_len]. destruct (JS.is_char 62 c); [done|]. rewrite Hc.
  by destruct (JS.tag_len (body ++ ">"%char :: after)).
Qed.

Lemma fixed_point_no_tag (s : str) :
  JS.strip_tags_from 0 s = s → ¬ has_tag s.
Proof.
  intros Hfix (before & body & after & Hs & Hline). subst s.
  induction before as [|c before IH].
  - cbn [app JS.strip_tags_from] in Hfix.
    change (JS.is_char 60 "<"%char) with true in Hfix. cbv iota in Hfix.
    destruct (JS.tag_len (body ++ ">"%char :: after)) as [k|] eqn:Hk.
    + pose proof (strip_tags_from_length (body ++ ">"%char :: after) k) as Hlen.
      rewrite Hfix in Hlen. simpl in Hlen. lia.
    + by apply tag_len_found in Hk.
  - cbn [app JS.strip_tags_from] in Hfix.
    destruct (JS.is_char 60 c).
    + destruct (JS.tag_len _) as [k|] eqn:Hk.
      * pose proof (strip_tags_from_length
                      (before ++ "<"%char :: body ++ ">"%char :: after) k) as Hlen.
        rewrite Hfix in Hlen. simpl in Hlen. lia.
      * injection Hfix as Hfix. by apply IH.
    + injection Hfix as Hfix. by apply IH.
Qed.

Lemma strip_tags_from_sublist (s : str) :
  ∀ skip, JS.strip_tags_from skip s `sublist_of` s.
Proof.
  induction s as [|c s IH]; intros skip; [by destruct skip|].
  cbn [JS.strip_tags_from]. destruct skip as [|skip].
  - destruct (JS.is_char 60 c); [destruct (JS.tag_len s)|];
      (by apply sublist_cons) || (by apply sublist_skip).
  - by apply sublist_cons.
Qed.

Lemma stripped_has_no_tag (s : str) : ¬ has_tag (JS.strip_tags s).
Proof.
  apply fixed_point_no_tag. by apply (strip_tags_idempotent_upto (length s)).
Qed.

(** X14: stripping the tags of a text only deletes: what is left is the text
    with some pieces taken out.  No tag is left, a tag being a [<] with
    a [>] after it on the same line; so stripping again changes nothing. *)
Theorem strip_tags_leaves_no_tag (s : str) :
  JS.strip_tags s `sublist_of` s
  ∧ ¬ has_tag (JS.strip_tags s)
  ∧ JS.strip_tags (JS.strip_tags s) = JS.strip_tags s.
Proof.
  unfold JS.strip_tags.
  assert (JS.strip_tags_from 0 (JS.strip_tags_from 0 s) = JS.strip_tags_from 0 s)
    as Hfix by by apply (strip_tags_idempotent_upto (length s)).
  split; [apply strip_tags_from_sublist|]. split; [|done].
  by apply fixed_point_no_tag.
Qed.

End LayoutMore.

(** ** Further properties of the model calls *)

Section CallsMore.

Import ImageProcessor GeminiAPI AppController Invoker Run.





(** X16: an image without a payload, or whose URL is no string, stops the
    call of the vision model before any request: the call throws a
    [TypeError] of the platform and the trace is as it was. *)
Theorem unsendable_image_stops_call (usingProxy : bool) (question : str)
    (imageData : list Image) (apiKey modelName : str) (P : Platform) (tr : Trace) :
  Exists (fun img => ¬ has_payload img) imageData →
  analyzeImages usingProxy question imageData apiKey modelName P tr
  = (Throw (Native "TypeError"), tr).
Proof.
  intros Hbad. unfold analyzeImages, bind, lift.
  assert (analysis_request question imageData = Throw (Native "TypeError")) as ->;
    [|done].
  unfold analysis_request.
  assert (mapM image_part imageData = Throw (Native "TypeError")) as ->; [|done].
  induction Hbad as [img rest Hbad|img rest _ IH].
  - cbn [mapM]. unfold image_part.
    destruct (url img) as [| | | |u| |] eqn:Hu; try done.
    destruct (base64 img) as [b|] eqn:Hb; [|done].
    destruct Hbad. by exists u, b.
  - cbn [mapM]. destruct (image_part img) as [part|e] eqn:Hpart.
    + cbn [mbind Result_bind]. by rewrite IH.
    + unfold image_part in Hpart.
      destruct (url img) as [| | | |u| |]; try (by injection Hpart as <-).
      destruct (base64 img) as [b|]; [done|]. by injection Hpart as <-.
Qed.

Lemma unsendable_image_stops_call_witness :
  analyzeImages true "What is a perceptron?" [Scenario.dog_png; Scenario.first_png]
    "KEY" "gemini-2.0-flash" Scenario.relay_down []
  = (Throw (Native "TypeError"), []).
Proof.
  apply unsendable_image_stops_call.
  right. left. intros (u & b & _ & Hb). discriminate Hb.
Defined.




End CallsMore.

(** ** Further properties of a whole run *)

Section RunMore.

Import ImageProcessor GeminiAPI WikimediaAPI AppController Invoker Run Requests Failure.

Lemma direct_result_failure {A} (decode : JsValue → Result A) reply e :
  (∀ data e', decode data = Throw e' → native e') →
  direct_result decode reply = Throw e → of_model_call e.
Proof.
  intros Hdecode. unfold direct_result.
  destruct reply as [msg|response]; [intros [= <-]; left; by eexists|].
  destruct (ok response).
  - destruct (json response) as [data|]; [|intros [= <-]; left; by eexists].
    intros He%Hdecode. by left.
  - intros [= <-]. right; right. by eexists _, _.
Qed.

Lemma resilient_failure {A} (invoke : bool → str → M A)
    (decode : JsValue → Result A) relay direct usingProxy apiKey P tr e tr' :
  Resilient invoke decode relay direct →
  (∀ data e', decode data = Throw e' → native e') →
  invoke usingProxy apiKey P tr = (Throw e, tr') → of_model_call e.
Proof.
  intros Hres Hdecode.
  destruct (Hres P tr apiKey) as (Hrelay & Hfallback & Hnokey & Hdirect & Hnokey').
  destruct usingProxy.
  - destruct (relay_result decode (net P tr relay)) as [v|] eqn:Hr.
    { by rewrite (Hrelay v eq_refl). }
    destruct (decide (apiKey = [])) as [Hkey|Hkey].
    + rewrite Hnokey by done. intros [= <- _]. right. by left.
    + rewrite Hfallback by done. intros [= He _].
      by eapply direct_result_failure.
  - destruct (decide (apiKey = [])) as [Hkey|Hkey].
    + rewrite Hnokey' by done. intros [= <- _]. right. by left.
    + rewrite Hdirect by done. intros [= He _].
      by eapply direct_result_failure.
Qed.

Lemma getSearchTerms_failure usingProxy question apiKey P tr e tr' :
  getSearchTerms usingProxy question apiKey P tr = (Throw e, tr') →
  of_model_call e.
Proof.
  apply (resilient_failure (fun usingProxy apiKey =>
           getSearchTerms usingProxy question apiKey) searchTerms_of _ _
           usingProxy apiKey P tr e tr' (getSearchTerms_resilient question)).
  apply searchTerms_of_throws.
Qed.

Lemma analyzeImages_failure usingProxy question imageData apiKey modelName P tr e tr' :
  analyzeImages usingProxy question imageData apiKey modelName P tr = (Throw e, tr') →
  of_model_call e.
Proof.
  destruct (analysis_request question imageData) as [requestData|e'] eqn:Hrequest.
  - apply (resilient_failure (fun usingProxy apiKey =>
             analyzeImages usingProxy question imageData apiKey modelName)
             answer_text _ _ usingProxy apiKey P tr e tr'
             (analyzeImages_resilient question imageData modelName requestData Hrequest)).
    apply answer_text_throws.
  - unfold analyzeImages, bind, lift. rewrite Hrequest.
    intros [= <- _]. left. by eapply analysis_request_throws.
Qed.

(** X17: a model call that fails does so in one of three ways: the
    credential is missing, the direct endpoint answered with an error
    status, or the platform raised an exception.  An error of the relay
    ([Proxy error: ...]) is never what the caller gets. *)
Theorem relay_errors_never_surface (usingProxy : bool) (question apiKey : str)
    (P : Platform) (tr tr' : Trace) (e : Exn) :
  (getSearchTerms usingProxy question apiKey P tr = (Throw e, tr')
   ∨ ∃ imageData modelName,
       analyzeImages usingProxy question imageData apiKey modelName P tr
       = (Throw e, tr')) →
  of_model_call e ∧ ∀ status, e ≠ Error ("Proxy error: " ++ JS.Z_to_str status).
Proof.
  intros Hfail.
  assert (of_model_call e) as He.
  { destruct Hfail as [Hterms|(imageData & modelName & Hanswer)].
    - by eapply getSearchTerms_failure.
    - by eapply analyzeImages_failure. }
  split; [done|]. intros status ->.
  destruct He as [[msg ?]|[He|(status' & body & He)]]; [done|..];
    apply (f_equal message) in He; apply (f_equal head) in He;
    vm_compute in He; discriminate.
Qed.

(** The relay answers 503 and the caller has no key: the failure is the
    missing credential, not the status of the relay. *)
Lemma relay_errors_never_surface_witness :
  of_model_call CredentialRequired
  ∧ ∀ status, CredentialRequired ≠ Error ("Proxy error: " ++ JS.Z_to_str status).
Proof.
  apply (relay_errors_never_surface true "What is a perceptron?" []
           Scenario.relay_down []
           [relay_request "gemini-2.0-flash-lite"
              (SearchTermsRequest
                 (JS.replace PROMPTS.SEARCH_TERMS "{question}"
                    "What is a perceptron?"))]).
  left. vm_compute. reflexivity.
Defined.

(** *** The requests of a run *)

Lemma one_lookup_per_candidate (candidates : list Candidate.t) (P : Platform)
    (tr : Trace) :
  ∃ details,
    Promise_all_map (fun img => getImageDetails (Candidate.title img)) candidates P tr
      = (Ok details,
         tr ++ map (fun img => HttpGet (details_url P (Candidate.title img)))
                   candidates)
    ∧ length details = length candidates.
Proof.
  revert tr. induction candidates as [|img rest IH]; intros tr; simpl.
  { exists []. by rewrite (right_id_L [] (++)). }
  unfold bind at 1.
  destruct (getImageDetails_run (Candidate.title img) P tr) as (d & ->).
  unfold bind at 1.
  destruct (IH (tr ++ [HttpGet (details_url P (Candidate.title img))]))
    as (details & -> & Hlen).
  exists (d :: details). rewrite <-(assoc_L (++)). simpl.
  split; [done|]. by rewrite Hlen.
Qed.

Lemma capped_length searchResults : length (capped searchResults) ≤ 15.
Proof.
  unfold capped. destruct (_ <? _)%nat eqn:Hlen.
  - rewrite length_take. lia.
  - by apply Nat.ltb_ge in Hlen.
Qed.

Lemma omap_id_length {A} (l : list (option A)) : length (omap id l) ≤ length l.
Proof. induction l as [|[x|] l IH]; cbn in *; lia. Qed.

Lemma run_request_total (cfg : Config) (usingProxy : bool)
    (question apiKey modelName : str) (P : Platform) (tr : Trace) :
  ∃ outcome tr',
    processQuestion cfg usingProxy question apiKey modelName P tr = (Ok outcome, tr').
Proof.
  rewrite processQuestion_outcome.
  destruct (answerQuestion _ _ _ _ _ P tr) as [[formattedResponse|e] tr'];
    by eexists _, _.
Qed.

(** X18: without the relay and without a key a run ends at once, with the
    validation error and without a single request. *)
Theorem no_credential_no_request (cfg : Config) (usingProxy : bool)
    (question apiKey modelName : str) (P : Platform) (tr : Trace) :
  usingProxy = false → apiKey = [] →
  processQuestion cfg usingProxy question apiKey modelName P tr
  = (Ok (ShowError VALIDATION), tr).
Proof.
  intros -> ->. by rewrite processQuestion_outcome, answerQuestion_stages.
Qed.

Lemma no_credential_no_request_witness :
  processQuestion app_config false "What is a perceptron?" [] "gemini-2.0-flash"
    Scenario.perceptron_world []
  = (Ok (ShowError VALIDATION), []).
Proof. apply no_credential_no_request; reflexivity. Defined.


Lemma run_failure_cases (cfg : Config) (usingProxy : bool)
    (question apiKey modelName : str) (P : Platform) (tr tr' : Trace) (e : Exn) :
  processQuestion cfg usingProxy question apiKey modelName P tr
    = (Ok (ShowError e), tr') →
  (negb usingProxy && missing apiKey = true ∧ e = VALIDATION)
  ∨ (negb usingProxy && missing apiKey = false
     ∧ (e = Error NO_IMAGES ∨ of_model_call e)).
Proof.
  rewrite processQuestion_outcome, answerQuestion_stages.
  destruct (negb usingProxy && missing apiKey).
  { intros [= <- _]. by left. }
  intros Hrun. right. split; [done|]. revert Hrun.
  destruct (getSearchTerms _ _ _ P tr) as [[searchTerms|e1] tr1] eqn:Hterms.
  2:{ intros [= <- _]. right. by eapply getSearchTerms_failure. }
  destruct (Promise_all_map_returns searchImages searchTerms
              searchImages_returns P tr1) as (searchResults & tr2 & ->).
  destruct (length (capped searchResults) =? 0)%nat.
  { intros [= <- _]. by left. }
  destruct (Promise_all_map_returns
              (fun img => getImageDetails (Candidate.title img))
              (capped searchResults)
              (fun img => getImageDetails_returns (Candidate.title img)) P tr2)
    as (details & tr3 & ->).
  destruct (processImages_returns cfg (omap id details) P tr3)
    as (processedImages & tr4 & ->).
  destruct (analyzeImages _ _ _ _ _ P tr4) as [[geminiResponse|e5] tr5] eqn:Hanswer.
  - destruct (as_string geminiResponse) as [answer|e6] eqn:Hstring; [done|].
    intros [= <- _]. right; left. by eapply as_string_throws.
  - intros [= <- _]. right. by eapply analyzeImages_failure.
Qed.

Lemma validation_is_no_call_failure : ¬ of_model_call VALIDATION.
Proof.
  intros [[msg ?]|[He|(status & body & He)]]; [done|..].
  - apply (f_equal message) in He. apply (f_equal length) in He.
    vm_compute in He. discriminate.
  - apply (f_equal message) in He. apply (f_equal head) in He.
    vm_compute in He. discriminate.
Qed.



(** X21: [processImages] returns every image it admitted when its input has
    at most [MAX_IMAGES] entries.  In a run of app.js that is always so:
    the candidates are cut to 15 before their metadata is looked up, so
    the cut to 15 admitted images at the end of [processImages] never
    removes one. *)
Theorem truncation_is_idle_in_a_run :
  (∀ cfg P imageDetails tr,
     length imageDetails ≤ MAX_IMAGES cfg →
     ∃ admitted total tr',
       admission_loop cfg imageDetails [] 0%Z P tr = (Ok (admitted, total), tr')
       ∧ processImages cfg imageDetails P tr = (Ok admitted, tr'))
  ∧ (∀ P searchResults tr,
       ∃ details tr1 admitted total tr2,
         Promise_all_map (fun img => getImageDetails (Candidate.title img))
           (capped searchResults) P tr = (Ok details, tr1)
         ∧ length (omap id details) ≤ MAX_IMAGES app_config
         ∧ admission_loop app_config (omap id details) [] 0%Z P tr1
           = (Ok (admitted, total), tr2)
         ∧ processImages app_config (omap id details) P tr1 = (Ok admitted, tr2)).
Proof.
  assert (∀ cfg P imageDetails tr,
     length imageDetails ≤ MAX_IMAGES cfg →
     ∃ admitted total tr',
       admission_loop cfg imageDetails [] 0%Z P tr = (Ok (admitted, total), tr')
       ∧ processImages cfg imageDetails P tr = (Ok admitted, tr')) as Hidle.
  { intros cfg P imageDetails tr Hlen.
    destruct (processImages_run cfg P imageDetails tr)
      as (admitted & total & tr' & Hloop & Hrun & _ & _ & kept & Hsub & Hall).
    exists admitted, total, tr'. split; [done|].
    rewrite Hrun, take_ge; [done|].
    apply Forall2_length in Hall. apply sublist_length in Hsub. lia. }
  split; [exact Hidle|].
  intros P searchResults tr.
  destruct (one_lookup_per_candidate (capped searchResults) P tr)
    as (details & Hdetails & Hlen).
  assert (length (omap id details) ≤ MAX_IMAGES app_config) as Hfew.
  { pose proof (omap_id_length details). pose proof (capped_length searchResults).
    simpl. lia. }
  destruct (Hidle app_config P (omap id details)
              (tr ++ map (fun img => HttpGet (details_url P (Candidate.title img)))
                         (capped searchResults)) Hfew)
    as (admitted & total & tr2 & Hloop & Hrun).
  by eexists details, _, admitted, total, tr2.
Qed.

(** *** From the click to the run *)

(** X22: the handler of the submit button trims the question and the key.
    It answers a blank question with an alert, and a blank key with
    another when the relay is not ticked; neither issues a request.  In
    every other case it runs [processQuestion] on the trimmed inputs,
    with the relay as ticked (or enabled, on a page without the toggle);
    that run never ends with the validation error of [processQuestion],
    whose check the handler has made already. *)
Theorem click_validates_before_run (cfg : Config)
    (elements : UIController.Elements) (P : Platform) (tr : Trace) :
  let question := JS.trim (UIController.userQuestionInput elements) in
  let apiKey := JS.trim (UIController.apiKeyInput elements) in
  let useProxy := default true (UIController.useProxyToggle elements) in
  (question = [] →
   UIController.submitBtn_click cfg elements P tr
   = (Ok (UIController.Alert "Please enter a question"), tr))
  ∧ (question ≠ [] → useProxy = false → apiKey = [] →
     UIController.submitBtn_click cfg elements P tr
     = (Ok (UIController.Alert
              "Please enter your Gemini API key when not using the proxy"), tr))
  ∧ (question ≠ [] → useProxy = true ∨ apiKey ≠ [] →
     ∃ outcome tr',
       processQuestion cfg useProxy question apiKey
         (UIController.modelSelector elements) P tr = (Ok outcome, tr')
       ∧ UIController.submitBtn_click cfg elements P tr
         = (Ok (UIController.Processed useProxy outcome), tr')
       ∧ outcome ≠ ShowError VALIDATION).
Proof.
  intros question apiKey useProxy.
  assert (useProxy = match UIController.useProxyToggle elements with
                     | Some checked => checked
                     | None => true
                     end) as HuseProxy
    by by destruct (UIController.useProxyToggle elements).
  unfold UIController.submitBtn_click. cbv zeta. rewrite <-HuseProxy.
  fold question apiKey.
  split; [|split].
  - intros ->. by rewrite bool_decide_eq_true_2.
  - intros Hq -> ->. rewrite bool_decide_eq_false_2 by done.
    by rewrite bool_decide_eq_true_2.
  - intros Hq Hcheck%credential_check. rewrite bool_decide_eq_false_2 by done.
    fold (missing apiKey). rewrite Hcheck. unfold bind.
    destruct (run_request_total cfg useProxy question apiKey
                (UIController.modelSelector elements) P tr) as (outcome & tr' & Hrun).
    rewrite Hrun. exists outcome, tr'. split; [done|]. split; [done|].
    intros ->. apply run_failure_cases in Hrun as [[Hcheck' _]|[_ [He|He]]].
    + congruence.
    + apply (f_equal message) in He. apply (f_equal head) in He.
      vm_compute in He. discriminate.
    + by apply validation_is_no_call_failure.
Qed.

(** A question of blanks is answered by the alert; a question and a key
    of blanks, with the relay unticked, by the other alert; and with
    the relay ticked the run starts, on the trimmed question. *)
Lemma click_validates_before_run_witness :
  UIController.submitBtn_click app_config
    {| UIController.userQuestionInput := "   ";
       UIController.apiKeyInput := "KEY";
       UIController.modelSelector := "gemini-2.0-flash";
       UIController.useProxyToggle := Some true |} Scenario.perceptron_world []
  = (Ok (UIController.Alert "Please enter a question"), [])
  ∧ UIController.submitBtn_click app_config
      {| UIController.userQuestionInput := "What is a perceptron?";
         UIController.apiKeyInput := "  ";
         UIController.modelSelector := "gemini-2.0-flash";
         UIController.useProxyToggle := Some false |} Scenario.perceptron_world []
    = (Ok (UIController.Alert
             "Please enter your Gemini API key when not using the proxy"), [])
  ∧ ∃ outcome tr',
      processQuestion app_config true "What is a perceptron?" []
        "gemini-2.0-flash" Scenario.perceptron_world [] = (Ok outcome, tr')
      ∧ UIController.submitBtn_click app_config
          {| UIController.userQuestionInput := " What is a perceptron? ";
             UIController.apiKeyInput := [];
             UIController.modelSelector := "gemini-2.0-flash";
             UIController.useProxyToggle := None |} Scenario.perceptron_world []
        = (Ok (UIController.Processed true outcome), tr')
      ∧ outcome ≠ ShowError VALIDATION.
Proof.
  split; [|split].
  - apply (click_validates_before_run app_config
             {| UIController.userQuestionInput := "   ";
                UIController.apiKeyInput := "KEY";
                UIController.modelSelector := "gemini-2.0-flash";
                UIController.useProxyToggle := Some true |}).
    vm_compute. reflexivity.
  - apply (click_validates_before_run app_config
             {| UIController.userQuestionInput := "What is a perceptron?";
                UIController.apiKeyInput := "  ";
                UIController.modelSelector := "gemini-2.0-flash";
                UIController.useProxyToggle := Some false |}).
    + vm_compute. discriminate.
    + reflexivity.
    + vm_compute. reflexivity.
  - apply (click_validates_before_run app_config
             {| UIController.userQuestionInput := " What is a perceptron? ";
                UIController.apiKeyInput := [];
                UIController.modelSelector := "gemini-2.0-flash";
                UIController.useProxyToggle := None |}).
    + vm_compute. discriminate.
    + left. reflexivity.
Defined.

End RunMore.

(** ** The earlier single-file version *)

Section LegacyMore.

Import GeminiAPI WikimediaAPI AppController Invoker Run Failure.

(** Case analysis on what the network answers to the one request of a
    call. *)
Ltac run_direct :=
  repeat (cbv beta iota zeta delta [negb];
          match goal with
          | |- context [match net ?P ?tr ?req with _ => _ end] =>
              destruct (net P tr req) as [?|?] eqn:?
          | |- context [if ok ?r then _ else _] => destruct (ok r) eqn:?
          | |- context [match json ?r with _ => _ end] => destruct (json r) eqn:?
          | |- context [match ?d ?v with Ok _ => _ | Throw _ => _ end] =>
              destruct (d v) eqn:?
          end).

Lemma legacy_getSearchTerms_run (question apiKey : str) (P : Platform) (tr : Trace) :
  Legacy.getSearchTerms question apiKey P tr
  = (direct_result searchTerms_of
       (net P tr (direct_request "gemini-2.0-flash-lite"
                    (SearchTermsRequest (Legacy.SEARCH_TERMS ++ question)) apiKey)),
     tr ++ [direct_request "gemini-2.0-flash-lite"
              (SearchTermsRequest (Legacy.SEARCH_TERMS ++ question)) apiKey]).
Proof.
  unfold Legacy.getSearchTerms. rewrite direct_url_lite.
  cbv beta iota zeta delta [direct_request direct_result
    bind try_catch fetch response_json lift throw ret].
  run_direct; reflexivity.
Qed.

Lemma legacy_analyze_run (question : str) (imageData : list Image) (apiKey : str)
    (requestData : RequestData) (P : Platform) (tr : Trace) :
  Legacy.analysis_request question imageData = Ok requestData →
  Legacy.analyzeImagesWithGemini question imageData apiKey P tr
  = (direct_result answer_text
       (net P tr (direct_request "gemini-2.0-flash" requestData apiKey)),
     tr ++ [direct_request "gemini-2.0-flash" requestData apiKey]).
Proof.
  intros Hrequest. unfold Legacy.analyzeImagesWithGemini.
  cbv beta iota zeta delta [direct_request direct_result
    bind try_catch fetch response_json lift throw ret].
  rewrite Hrequest.
  change ("https://generativelanguage.googleapis.com/v1beta/models/"
          ++ "gemini-2.0-flash" ++ ":generateContent?key=" ++ apiKey)
    with ("https://generativelanguage.googleapis.com/v1beta/models/gemini-2.0-flash:generateContent?key="
          ++ apiKey).
  run_direct; reflexivity.
Qed.

(** X23: each model call of the single-file version is one [POST] to the
    direct endpoint, with the key in the address, whatever the key is,
    an empty one included; its result is the decoded reply, and every
    failure is handed on to the caller.  The relay is never asked. *)
Theorem legacy_calls_are_direct (question apiKey : str) (P : Platform) (tr : Trace) :
  (∃ req,
     req = direct_request "gemini-2.0-flash-lite"
             (SearchTermsRequest (Legacy.SEARCH_TERMS ++ question)) apiKey
     ∧ Legacy.getSearchTerms question apiKey P tr
       = (direct_result searchTerms_of (net P tr req), tr ++ [req])
     ∧ ∀ modelName requestData, req ≠ relay_request modelName requestData)
  ∧ (∀ imageData,
       Forall has_payload imageData →
       ∃ requestData req,
         Legacy.analysis_request question imageData = Ok requestData
         ∧ req = direct_request "gemini-2.0-flash" requestData apiKey
         ∧ Legacy.analyzeImagesWithGemini question imageData apiKey P tr
           = (direct_result answer_text (net P tr req), tr ++ [req])
         ∧ ∀ modelName requestData', req ≠ relay_request modelName requestData').
Proof.
  split.
  - eexists. split; [reflexivity|]. split; [apply legacy_getSearchTerms_run|].
    intros modelName requestData Heq.
    apply (f_equal (fun r => match r with HttpPost u _ => take 9 u | _ => [] end))
      in Heq.
    vm_compute in Heq. discriminate.
  - intros imageData [imageParts Hparts]%image_parts_of_payloads.
    eexists _, _. split.
    { unfold Legacy.analysis_request. rewrite Hparts. reflexivity. }
    split; [reflexivity|]. split.
    { apply legacy_analyze_run. unfold Legacy.analysis_request.
      by rewrite Hparts. }
    intros modelName requestData Heq.
    apply (f_equal (fun r => match r with HttpPost u _ => take 9 u | _ => [] end))
      in Heq.
    vm_compute in Heq. discriminate.
Qed.

Lemma legacy_analysis_request_throws question imageData e :
  Legacy.analysis_request question imageData = Throw e → native e.
Proof.
  unfold Legacy.analysis_request.
  destruct (mapM image_part imageData) as [parts|e'] eqn:Hparts; simpl; [done|].
  intros [= <-]. eapply mapM_throws; [apply image_part_throws|done].
Qed.

Lemma legacy_analyze_failure question imageData apiKey P tr e tr' :
  Legacy.analyzeImagesWithGemini question imageData apiKey P tr = (Throw e, tr') →
  of_model_call e.
Proof.
  destruct (Legacy.analysis_request question imageData)
    as [requestData|e'] eqn:Hrequest.
  - rewrite (legacy_analyze_run _ _ _ _ _ _ Hrequest). intros [= He _].
    eapply direct_result_failure; [|exact He]. apply answer_text_throws.
  - unfold Legacy.analyzeImagesWithGemini, bind, lift. rewrite Hrequest.
    intros [= <- _]. left. by eapply legacy_analysis_request_throws.
Qed.

Lemma legacy_run_failure (question apiKey : str) (P : Platform) (tr tr' : Trace)
    (e : Exn) :
  apiKey ≠ [] →
  Legacy.processQuestion question apiKey P tr = (Ok (ShowError e), tr') →
  e = Error NO_IMAGES ∨ of_model_call e.
Proof.
  intros Hkey%missing_false.
  unfold Legacy.processQuestion, Legacy.answerQuestion, try_catch. unfold bind at 1.
  rewrite Hkey. unfold bind at 1. cbv beta iota zeta delta [ret].
  cbv beta iota zeta. unfold bind at 1. rewrite legacy_getSearchTerms_run.
  destruct (direct_result searchTerms_of _) as [searchTerms|e1] eqn:Hterms.
  2:{ intros [= <- _]. right. eapply direct_result_failure; [|exact Hterms].
      apply searchTerms_of_throws. }
  unfold bind at 1.
  match goal with |- context [Promise_all_map searchImages searchTerms P ?t] =>
    destruct (Promise_all_map_returns searchImages searchTerms
                searchImages_returns P t) as (searchResults & tr2 & ->) end.
  fold (capped searchResults).
  destruct (length (capped searchResults) =? 0)%nat.
  { intros [= <- _]. by left. }
  unfold bind at 1.
  destruct (Promise_all_map_returns
              (fun img => getImageDetails (Candidate.title img))
              (capped searchResults)
              (fun img => getImageDetails_returns (Candidate.title img)) P tr2)
    as (details & tr3 & ->).
  unfold bind at 1.
  destruct (processImages_returns legacy_config (omap id details) P tr3)
    as (processedImages & tr4 & ->).
  unfold bind at 1.
  destruct (Legacy.analyzeImagesWithGemini _ _ _ P tr4)
    as [[geminiResponse|e5] tr5] eqn:Hanswer.
  - unfold bind, lift.
    destruct (as_string geminiResponse) as [answer|e6] eqn:Hstring; [done|].
    intros [= <- _]. right; left. by eapply as_string_throws.
  - intros [= <- _]. right. by eapply legacy_analyze_failure.
Qed.

Lemma legacy_run_total (question apiKey : str) (P : Platform) (tr : Trace) :
  ∃ outcome tr', Legacy.processQuestion question apiKey P tr = (Ok outcome, tr').
Proof.
  unfold Legacy.processQuestion, try_catch, bind.
  destruct (Legacy.answerQuestion _ _ P tr) as [[formattedResponse|e] tr'];
    by eexists _, _.
Qed.

(** X24: in the single-file version the key is always required.  The
    handler of the submit button trims both inputs and answers a blank
    question or a blank key with an alert, without a request; a run
    without a key ends at once with the error [API key is required] and
    without a request; and a run that the handler starts never ends
    with that error. *)
Theorem legacy_click_needs_key (userQuestionInput apiKeyInput : str)
    (P : Platform) (tr : Trace) :
  let question := JS.trim userQuestionInput in
  let apiKey := JS.trim apiKeyInput in
  (question = [] →
   Legacy.submitBtn_click userQuestionInput apiKeyInput P tr
   = (Ok (Legacy.Alert "Please enter a question"), tr))
  ∧ (question ≠ [] → apiKey = [] →
     Legacy.submitBtn_click userQuestionInput apiKeyInput P tr
     = (Ok (Legacy.Alert "Please enter your Gemini API key"), tr))
  ∧ Legacy.processQuestion question [] P tr
    = (Ok (ShowError (Error "API key is required")), tr)
  ∧ (question ≠ [] → apiKey ≠ [] →
     ∃ outcome tr',
       Legacy.processQuestion question apiKey P tr = (Ok outcome, tr')
       ∧ Legacy.submitBtn_click userQuestionInput apiKeyInput P tr
         = (Ok (Legacy.Processed outcome), tr')
       ∧ outcome ≠ ShowError (Error "API key is required")).
Proof.
  intros question apiKey. unfold Legacy.submitBtn_click. cbv zeta.
  fold question apiKey.
  split; [|split; [|split]].
  - intros ->. by rewrite bool_decide_eq_true_2.
  - intros Hq ->. rewrite bool_decide_eq_false_2 by done.
    by rewrite bool_decide_eq_true_2.
  - reflexivity.
  - intros Hq Hkey. rewrite !bool_decide_eq_false_2 by done. unfold bind.
    destruct (legacy_run_total question apiKey P tr) as (outcome & tr' & Hrun).
    rewrite Hrun. exists outcome, tr'. split; [done|]. split; [done|].
    intros ->. destruct (legacy_run_failure _ _ _ _ _ _ Hkey Hrun) as [He|He].
    + apply (f_equal message) in He. apply (f_equal head) in He.
      vm_compute in He. discriminate.
    + destruct He as [[msg ?]|[He|(status & body & He)]]; [done|..].
      * apply (f_equal message) in He. apply (f_equal length) in He.
        vm_compute in He. discriminate.
      * apply (f_equal message) in He. apply (f_equal head) in He.
        vm_compute in He. discriminate.
Qed.

Lemma legacy_click_needs_key_witness :
  Legacy.submitBtn_click "What is a perceptron?" "   " Scenario.relay_down []
  = (Ok (Legacy.Alert "Please enter your Gemini API key"), [])
  ∧ ∃ outcome tr',
      Legacy.processQuestion "What is a perceptron?" "KEY" Scenario.relay_down []
      = (Ok outcome, tr')
      ∧ Legacy.submitBtn_click " What is a perceptron?" "KEY " Scenario.relay_down []
        = (Ok (Legacy.Processed outcome), tr')
      ∧ outcome ≠ ShowError (Error "API key is required").
Proof.
  split.
  - apply (legacy_click_needs_key "What is a perceptron?" "   ").
    + vm_compute. discriminate.
    + vm_compute. reflexivity.
  - apply (legacy_click_needs_key " What is a perceptron?" "KEY ").
    + vm_compute. discriminate.
    + vm_compute. discriminate.
Defined.

End LegacyMore.

(** ** The credits of an image *)

Section CreditsMore.

Import WikimediaAPI Layout.

Lemma has_tag_lt (s : str) : has_tag s → "<"%char ∈ s.
Proof.
  intros (before & body & after & -> & _). apply elem_of_app. right. left.
Qed.

Lemma stripped_or_default (metadata : JsValue) (field : str) (fallback : Result str)
    (l : str) :
  (field_value metadata field ≫= fun v =>
     if truthy v then s ← as_string v; Ok (JS.strip_tags s) else fallback) = Ok l →
  (∃ s, l = JS.strip_tags s) ∨ fallback = Ok l.
Proof.
  intros (v & _ & Hrest)%bind_Ok. destruct (truthy v); [|by right].
  apply bind_Ok in Hrest as (s & _ & [= <-]). left. by exists s.
Qed.

Lemma license_of_no_tag (metadata : JsValue) (l : str) :
  license_of metadata = Ok l → ¬ has_tag l.
Proof.
  unfold license_of. intros [[s ->]|Hlong]%stripped_or_default.
  { apply stripped_has_no_tag. }
  apply stripped_or_default in Hlong as [[s ->]|[= <-]].
  { apply stripped_has_no_tag. }
  intros Htag%has_tag_lt. apply list_elem_of_In in Htag.
  vm_compute in Htag. intuition discriminate.
Qed.

Lemma attribution_of_no_tag (metadata : JsValue) (a : str) :
  attribution_of metadata = Ok a → ¬ has_tag a.
Proof.
  unfold attribution_of. intros [[s ->]|[= <-]]%stripped_or_default.
  { apply stripped_has_no_tag. }
  intros Htag%has_tag_lt. by apply elem_of_nil in Htag.
Qed.

(** X25: the license and the attribution of an entry that a metadata lookup
    returns hold no tag, whatever markup the repository put into the
    metadata: each is a stripped text, or the default. *)
Theorem credits_hold_no_tag (imageTitle : JsValue) (P : Platform) (tr tr' : Trace)
    (d : Image) :
  getImageDetails imageTitle P tr = (Ok (Some d), tr') →
  ¬ has_tag (license d) ∧ ¬ has_tag (attribution d).
Proof.
  unfold getImageDetails.
  cbv beta iota zeta delta [bind try_catch fetch response_json lift throw ret].
  destruct (net P tr _) as [msg|r]; [done|].
  destruct (ok r); cbv beta iota zeta delta [negb]; [|done].
  destruct (json r) as [data|]; cbv beta iota zeta; [|done].
  destruct (details_of data imageTitle) as [d'|e] eqn:Hdetails; [|done].
  intros [= -> _]. unfold details_of in Hdetails.
  apply bind_Ok in Hdetails as (pages & _ & Hrest).
  apply bind_Ok in Hrest as (pageIds & _ & Hrest).
  cbv zeta in Hrest. case_bool_decide; [done|].
  apply bind_Ok in Hrest as (page & _ & Hrest).
  apply bind_Ok in Hrest as (imageInfo & _ & Hrest).
  apply bind_Ok in Hrest as (metadata & _ & Hrest).
  apply bind_Ok in Hrest as (alt & _ & Hrest).
  apply bind_Ok in Hrest as (licenseInfo & Hlicense & Hrest).
  apply bind_Ok in Hrest as (attr & Hattr & Hrest).
  apply bind_Ok in Hrest as (u & _ & Hrest).
  apply bind_Ok in Hrest as (t & _ & [= <-]). simpl.
  split; [by eapply license_of_no_tag|by eapply attribution_of_no_tag].
Qed.

(** The metadata names the artist inside a link: the attribution is the
    name alone. *)
Lemma credits_hold_no_tag_witness :
  ¬ has_tag (license Credits.engine_png)
  ∧ ¬ has_tag (attribution Credits.engine_png).
Proof.
  apply (credits_hold_no_tag (JStr "File:Engine.png") Credits.linked_artist []
           [HttpGet (Requests.details_url Credits.linked_artist
                       (JStr "File:Engine.png"))]).
  vm_compute. reflexivity.
Defined.

End CreditsMore.

(** ** The prompt of the search terms and the figures of the earlier version *)

Section PromptMore.

Import GeminiAPI AppController Invoker Placeholders.

Lemma prompt_of_question :
  ∃ before : str,
    PROMPTS.SEARCH_TERMS = before ++ "{question}"
    ∧ ∀ question : str,
        Forall (fun c => JS.is_char 36 c = false) question →
        JS.replace PROMPTS.SEARCH_TERMS "{question}" question = before ++ question.
Proof.
  assert (∃ i, JS.indexOf PROMPTS.SEARCH_TERMS "{question}" = Some i
               ∧ drop (i + length ("{question}" : str)) PROMPTS.SEARCH_TERMS = [])
    as (i & Hi & Hend).
  { eexists. split; vm_compute; reflexivity. }
  exists (take i PROMPTS.SEARCH_TERMS). split.
  - destruct (replace_first _ _ [] _ Hi) as [Hsplit _].
    rewrite Hend, (right_id_L [] (++)) in Hsplit. exact Hsplit.
  - intros question Hplain.
    destruct (replace_first _ _ question _ Hi) as [_ ->].
    by rewrite Hend, GetSubstitution_literal, (right_id_L [] (++)).
Qed.

(** X26: the prompt that [getSearchTerms] sends is the template of
    prompts.js with the question in the place of its marker, which is
    at the end: the text of the template and then the question, as it
    is, when the question holds no dollar sign.  With the relay enabled
    the first request of the call carries that prompt. *)
Theorem prompt_ends_with_question (question apiKey : str) (P : Platform)
    (tr : Trace) :
  Forall (fun c => JS.is_char 36 c = false) question →
  ∃ (before : str) rest,
    PROMPTS.SEARCH_TERMS = before ++ "{question}"
    ∧ JS.replace PROMPTS.SEARCH_TERMS "{question}" question = before ++ question
    ∧ snd (getSearchTerms true question apiKey P tr)
      = tr ++ relay_request "gemini-2.0-flash-lite"
                (SearchTermsRequest (before ++ question)) :: rest.
Proof.
  intros Hplain. destruct prompt_of_question as (before & Htemplate & Hprompt).
  specialize (Hprompt question Hplain).
  destruct (getSearchTerms_resilient question P tr apiKey)
    as (Hrelay & Hfallback & Hnokey & _).
  rewrite Hprompt in Hrelay, Hfallback, Hnokey.
  exists before.
  destruct (relay_result searchTerms_of _) as [v|] eqn:Hr.
  - exists []. split; [done|]. split; [done|]. by rewrite (Hrelay v eq_refl).
  - destruct (decide (apiKey = [])) as [Hkey|Hkey].
    + exists []. split; [done|]. split; [done|]. by rewrite Hnokey.
    + eexists [_]. split; [done|]. split; [done|]. by rewrite Hfallback.
Qed.

Lemma prompt_ends_with_question_witness :
  ∃ (before : str) rest,
    PROMPTS.SEARCH_TERMS = before ++ "{question}"
    ∧ JS.replace PROMPTS.SEARCH_TERMS "{question}" "What is a perceptron?"
      = before ++ "What is a perceptron?"
    ∧ snd (getSearchTerms true "What is a perceptron?" [] Scenario.trailing_comma [])
      = [] ++ relay_request "gemini-2.0-flash-lite"
                (SearchTermsRequest (before ++ "What is a perceptron?")) :: rest.
Proof.
  apply (prompt_ends_with_question "What is a perceptron?" []
           Scenario.trailing_comma []).
  repeat constructor.
Defined.

(** *** The figures of the single-file version *)

Lemma legacy_substitute_verbatim (processedImages : list Image)
    (formattedResponse placeholder filename : str) (img : Image) (i : nat) :
  find_image filename processedImages = Some img →
  JS.indexOf formattedResponse placeholder = Some i →
  Forall (fun c => JS.is_char 36 c = false) (Legacy.imgTag_of img) →
  Legacy.substitute processedImages formattedResponse (placeholder, filename)
  = take i formattedResponse ++ Legacy.imgTag_of img
    ++ drop (i + length placeholder) formattedResponse.
Proof.
  intros Hfind Hi Htag. unfold Legacy.substitute. cbn [fst snd]. rewrite Hfind.
  destruct (replace_first _ _ (Legacy.imgTag_of img) _ Hi) as [_ ->].
  by rewrite GetSubstitution_literal.
Qed.

(** X27: in the single-file version, a reply with one placeholder, well
    formed and apart from any other bracket, that names a file for
    which an image is found, is displayed as the text around the
    placeholder with the figure of that image in its place, converted
    from markdown; the figure is inserted as it is when it holds no
    dollar sign. *)
Theorem legacy_single_placeholder_rendered (P : Platform)
    (processedImages : list Image) (before filename after : str) (img : Image) :
  "["%char ∉ before → "["%char ∉ after → "]"%char ∉ filename →
  Forall (fun c => JS.is_line_terminator c = false) filename →
  find_image filename processedImages = Some img →
  Forall (fun c => JS.is_char 36 c = false) (Legacy.imgTag_of img) →
  Legacy.formatted P (before ++ token filename ++ after) processedImages
  = marked_parse P (before ++ Legacy.imgTag_of img ++ after).
Proof.
  intros Hbefore Hafter Hname Hline Hfind Htag.
  unfold Legacy.formatted, imagePlaceholders.
  rewrite exec_all_single by done. cbn [foldl assign JS.match0 JS.match1].
  rewrite (legacy_substitute_verbatim _ _ _ _ img (length before)); try done.
  2:{ by apply indexOf_after_no_bracket. }
  by rewrite take_app_length, <-drop_drop, !drop_app_length.
Qed.

Lemma legacy_single_placeholder_rendered_witness :
  Legacy.formatted Scenario.offline "See the dog: [[[Dog.PNG]]]. It barks."
    [Scenario.dog_png; Scenario.cat_png]
  = "See the dog: " ++ Legacy.imgTag_of Scenario.dog_png ++ ". It barks.".
Proof.
  apply (legacy_single_placeholder_rendered Scenario.offline
           [Scenario.dog_png; Scenario.cat_png]
           "See the dog: " "Dog.PNG" ". It barks." Scenario.dog_png).
  - intros Hin%list_elem_of_In. vm_compute in Hin. intuition discriminate.
  - intros Hin%list_elem_of_In. vm_compute in Hin. intuition discriminate.
  - intros Hin%list_elem_of_In. vm_compute in Hin. intuition discriminate.
  - repeat constructor.
  - vm_compute. reflexivity.
  - apply Forall_forall. intros c Hin%list_elem_of_In.
    vm_compute in Hin. repeat (destruct Hin as [<-|Hin]; [reflexivity|]).
    destruct Hin.
Defined.

End PromptMore.
